(** * The persistent versioned store of realre-ingestion

    A shallow embedding of [src/manager/db.py] (class [DBAdapter]): the
    history log, the schema helper [ensure_scd2_table], the row digest
    [_compute_hash] and the SCD2 upsert [upsert_scd2], together with the part
    of SQLite and of Python's [sqlite3] and [hashlib] modules those methods
    rely on.

    Conventions of the model.
    - A Python [str] is the [string] of its UTF-8 bytes, so
      [value.encode("utf-8")] is the identity.
    - A record (a [dict]) is an association list in insertion order.
    - Record values are [None], [str] and [int]; [bool] (an [int] that
      prints as [True] or [False]), floating-point values, and integers too
      long for [str], are outside the model.
    - The clock [_utcnow_iso()] is an argument [now] of the methods that read
      it.
    - The connection is passed explicitly; a method returns its outcome (a
      value or the exception raised) together with the connection it leaves.
      An exception is known by its class; a [KeyError] also by its key.
    - The connection keeps, next to the stored tables, the list of SQL texts
      handed to [execute], oldest first.
    - The lock serialises the calls; one call is modelled at a time.
    - SQLite's limits on the length of a statement and on the number of
      columns and of parameters are outside the model. *)

From Stdlib Require Import ZArith List String Ascii DecimalString Sorting.Sorted.
From stdpp Require Import base tactics option list strings gmap fin_maps.

Local Open Scope Z_scope.

(** ** Python values and records *)

Inductive pyval : Type :=
  | PNone
  | PStr (s : string)
  | PInt (z : Z).

#[global] Instance pyval_eq_dec : EqDecision pyval.
Proof. solve_decision. Defined.

(** A [dict] with string keys, in insertion order. *)
Definition record : Type := list (string * pyval).

(** [assoc k l] is the value bound to the first occurrence of [k]. *)
Fixpoint assoc {A : Type} (k : string) (l : list (string * A)) : option A :=
  match l with
  | [] => None
  | (k', v) :: l' => if decide (k' = k) then Some v else assoc k l'
  end.

(** [row[field]]: [None] stands for [KeyError]. *)
Definition rec_index (r : record) (field : string) : option pyval := assoc field r.

(** [row.get(field)]: a missing field reads as Python's [None]. *)
Definition rec_get (r : record) (field : string) : pyval :=
  default PNone (assoc field r).

(** [row.keys()]. *)
Definition rec_keys (r : record) : list string := map fst r.

(** [str(z)] for an [int]. *)
Definition str_of_int (z : Z) : string := NilZero.string_of_int (Z.to_int z).

(** [str(value)]; only called on values other than [None]. *)
Definition py_str (v : pyval) : string :=
  match v with
  | PNone => "None"
  | PStr s => s
  | PInt z => str_of_int z
  end.

(** ** [hashlib.sha256]

    SHA-256 as in FIPS 180-4, on 32-bit words held in [Z]. *)

Module Sha256.

Definition mask32 (x : Z) : Z := Z.land x 0xffffffff.
Definition add32 (x y : Z) : Z := mask32 (x + y).
Definition rotr (n x : Z) : Z :=
  Z.lor (Z.shiftr x n) (mask32 (Z.shiftl x (32 - n))).
Definition not32 (x : Z) : Z := Z.lxor x 0xffffffff.

Definition ch (x y z : Z) : Z := Z.lxor (Z.land x y) (Z.land (not32 x) z).
Definition maj (x y z : Z) : Z :=
  Z.lxor (Z.lxor (Z.land x y) (Z.land x z)) (Z.land y z).
Definition bsig0 (x : Z) : Z := Z.lxor (Z.lxor (rotr 2 x) (rotr 13 x)) (rotr 22 x).
Definition bsig1 (x : Z) : Z := Z.lxor (Z.lxor (rotr 6 x) (rotr 11 x)) (rotr 25 x).
Definition ssig0 (x : Z) : Z := Z.lxor (Z.lxor (rotr 7 x) (rotr 18 x)) (Z.shiftr x 3).
Definition ssig1 (x : Z) : Z := Z.lxor (Z.lxor (rotr 17 x) (rotr 19 x)) (Z.shiftr x 10).

(** The constants of the standard are defined from the first primes: the
    initial state holds the first 32 bits of the fractional part of the square
    root of each of the first eight, the round constants those of the cube
    root of each of the first sixty-four. *)
Definition is_prime (n : nat) : bool :=
  forallb (fun d => negb (Nat.eqb (Nat.modulo n d) 0)) (seq 2 (n - 2)).

Definition primes : list Z := map Z.of_nat (List.filter is_prime (seq 2 310)).

(** The integer cube root of [n], between [lo] and [hi], by bisection. *)
Fixpoint cube_root (fuel : nat) (lo hi n : Z) : Z :=
  match fuel with
  | O => lo
  | S fuel' =>
      let mid := (lo + hi) / 2 in
      if mid * mid * mid <=? n
      then cube_root fuel' mid hi n
      else cube_root fuel' lo mid n
  end.

Definition round_constants : list Z :=
  Eval vm_compute in
    map (fun p => mask32 (cube_root 40 0 (2 ^ 36) (p * 2 ^ 96))) primes.

Definition initial_state : list Z :=
  Eval vm_compute in map (fun p => mask32 (Z.sqrt (p * 2 ^ 64))) (firstn 8 primes).

Definition byte_of_ascii (a : ascii) : Z := Z.of_N (N_of_ascii a).

(** The [n] low bytes of [x], most significant first. *)
Fixpoint be_bytes (n : nat) (x : Z) : list Z :=
  match n with
  | O => []
  | S n' => Z.land (Z.shiftr x (8 * Z.of_nat n')) 0xff :: be_bytes n' x
  end.

(** Message, the byte 0x80, zero bytes up to 56 modulo 64, and the bit
    length on eight bytes. *)
Definition pad (msg : list Z) : list Z :=
  let len := Z.of_nat (length msg) in
  let zeros := Z.to_nat ((55 - len) mod 64) in
  msg ++ [0x80] ++ repeat 0 zeros ++ be_bytes 8 (8 * len).

Fixpoint words_of_bytes (bs : list Z) : list Z :=
  match bs with
  | b0 :: b1 :: b2 :: b3 :: rest =>
      (Z.shiftl b0 24 + Z.shiftl b1 16 + Z.shiftl b2 8 + b3) :: words_of_bytes rest
  | _ => []
  end.

Definition wd (l : list Z) (i : nat) : Z := nth i l 0.

(** The message schedule, newest word first: [extend n ws] adds [n] words
    to a schedule that holds at least sixteen. *)
Fixpoint extend (n : nat) (ws : list Z) : list Z :=
  match n with
  | O => ws
  | S n' =>
      let w := add32 (add32 (ssig1 (wd ws 1)) (wd ws 6))
                     (add32 (ssig0 (wd ws 14)) (wd ws 15)) in
      extend n' (w :: ws)
  end.

Definition schedule (block : list Z) : list Z := rev (extend 48 (rev block)).

Record regs : Type :=
  Regs { ra : Z; rb : Z; rc : Z; rd : Z; re : Z; rf : Z; rg : Z; rh : Z }.

Definition round (s : regs) (kw : Z * Z) : regs :=
  let t1 := add32 (add32 (add32 (rh s) (bsig1 (re s)))
                         (add32 (ch (re s) (rf s) (rg s)) (fst kw))) (snd kw) in
  let t2 := add32 (bsig0 (ra s)) (maj (ra s) (rb s) (rc s)) in
  Regs (add32 t1 t2) (ra s) (rb s) (rc s) (add32 (rd s) t1) (re s) (rf s) (rg s).

Definition regs_of (h : list Z) : regs :=
  Regs (wd h 0) (wd h 1) (wd h 2) (wd h 3) (wd h 4) (wd h 5) (wd h 6) (wd h 7).

Definition compress (h : list Z) (block : list Z) : list Z :=
  let s := fold_left round (combine round_constants (schedule block)) (regs_of h) in
  [ add32 (wd h 0) (ra s); add32 (wd h 1) (rb s); add32 (wd h 2) (rc s);
    add32 (wd h 3) (rd s); add32 (wd h 4) (re s); add32 (wd h 5) (rf s);
    add32 (wd h 6) (rg s); add32 (wd h 7) (rh s) ].

(** [blocks n ws h] consumes [n] blocks of sixteen words. *)
Fixpoint blocks (n : nat) (ws : list Z) (h : list Z) : list Z :=
  match n with
  | O => h
  | S n' => blocks n' (skipn 16 ws) (compress h (firstn 16 ws))
  end.

Definition digest_words (msg : list Z) : list Z :=
  let ws := words_of_bytes (pad msg) in
  blocks (Nat.div (length ws) 16) ws initial_state.

Definition hex_digit (d : Z) : ascii :=
  ascii_of_N (Z.to_N (if d <? 10 then 48 + d else 87 + d)).

Fixpoint hex_of_word (n : nat) (x : Z) : string :=
  match n with
  | O => EmptyString
  | S n' => String (hex_digit (Z.land (Z.shiftr x (4 * Z.of_nat n')) 0xf))
                   (hex_of_word n' x)
  end.

(** [hashlib.sha256(data).hexdigest()]. *)
Definition hexdigest (data : string) : string :=
  String.concat "" (map (hex_of_word 8)
    (digest_words (map byte_of_ascii (list_ascii_of_string data)))).

End Sha256.

(** ** [_compute_hash] *)

(** A [hashlib] hasher is the bytes it has been fed. *)
Definition hasher : Type := string.
Definition hasher_new : hasher := EmptyString.
Definition hasher_update (h : hasher) (data : string) : hasher := h +:+ data.
Definition hasher_hexdigest (h : hasher) : string := Sha256.hexdigest h.

(** [value = "" if record.get(field) is None else str(record.get(field))]. *)
Definition hash_value (r : record) (field : string) : string :=
  match rec_get r field with
  | PNone => EmptyString
  | v => py_str v
  end.

Definition _compute_hash (r : record) (fields : list string) : string :=
  hasher_hexdigest
    (fold_left (fun h field => hasher_update h (hash_value r field)) fields hasher_new).

(** ** Exceptions and outcomes *)

Inductive exn : Type :=
  | KeyError (field : string)
  | OverflowError
  | OperationalError
  | IntegrityError.

(** The name of the exception's class. *)
Definition exn_class (e : exn) : string :=
  match e with
  | KeyError _ => "KeyError"
  | OverflowError => "OverflowError"
  | OperationalError => "OperationalError"
  | IntegrityError => "IntegrityError"
  end.

Inductive outcome (A : Type) : Type :=
  | Returns (a : A)
  | Raises (e : exn).
Arguments Returns {A} a.
Arguments Raises {A} e.

(** ** SQLite values, identifiers and tables *)

Inductive sqlval : Type :=
  | SqlNull
  | SqlInt (z : Z)
  | SqlText (s : string).

(** How [sqlite3] adapts a Python value bound to a [?]: an [int] must fit a
    signed 64-bit integer. *)
Definition bind_value (v : pyval) : outcome sqlval :=
  match v with
  | PNone => Returns SqlNull
  | PStr s => Returns (SqlText s)
  | PInt z =>
      if decide (- 2 ^ 63 <= z < 2 ^ 63) then Returns (SqlInt z) else Raises OverflowError
  end.

Fixpoint bind_values (vs : list pyval) : outcome (list sqlval) :=
  match vs with
  | [] => Returns []
  | v :: vs' =>
      match bind_value v with
      | Raises e => Raises e
      | Returns b =>
          match bind_values vs' with
          | Raises e => Raises e
          | Returns bs => Returns (b :: bs)
          end
      end
  end.

(** TEXT affinity: what a column declared [TEXT] stores for a value, and what
    a parameter is turned into when compared with such a column. [None] is
    SQL's NULL. *)
Definition to_text (v : sqlval) : option string :=
  match v with
  | SqlNull => None
  | SqlInt z => Some (str_of_int z)
  | SqlText s => Some s
  end.

Definition lower_ascii (a : ascii) : ascii :=
  let n := nat_of_ascii a in
  if ((65 <=? n) && (n <=? 90))%nat then ascii_of_nat (n + 32) else a.

(** SQLite compares table and column names without regard to ASCII case. *)
Fixpoint canon (s : string) : string :=
  match s with
  | EmptyString => EmptyString
  | String a s' => String (lower_ascii a) (canon s')
  end.

Definition is_letter (a : ascii) : bool :=
  let n := nat_of_ascii (lower_ascii a) in ((97 <=? n) && (n <=? 122))%nat.
Definition is_digit (a : ascii) : bool :=
  let n := nat_of_ascii a in ((48 <=? n) && (n <=? 57))%nat.
Definition is_underscore (a : ascii) : bool := bool_decide (a = "_"%char).

Definition sql_keywords : list string :=
  [ "abort"; "action"; "add"; "after"; "all"; "alter"; "always"; "analyze";
    "and"; "as"; "asc"; "attach"; "autoincrement"; "before"; "begin";
    "between"; "by"; "cascade"; "case"; "cast"; "check"; "collate"; "column";
    "commit"; "conflict"; "constraint"; "create"; "cross"; "current";
    "current_date"; "current_time"; "current_timestamp"; "database";
    "default"; "deferrable"; "deferred"; "delete"; "desc"; "detach";
    "distinct"; "do"; "drop"; "each"; "else"; "end"; "escape"; "except";
    "exclude"; "exclusive"; "exists"; "explain"; "fail"; "filter"; "first";
    "following"; "for"; "foreign"; "from"; "full"; "generated"; "glob";
    "group"; "groups"; "having"; "if"; "ignore"; "immediate"; "in"; "index";
    "indexed"; "initially"; "inner"; "insert"; "instead"; "intersect"; "into";
    "is"; "isnull"; "join"; "key"; "last"; "left"; "like"; "limit"; "match";
    "materialized"; "natural"; "no"; "not"; "nothing"; "notnull"; "null";
    "nulls"; "of"; "offset"; "on"; "or"; "order"; "others"; "outer"; "over";
    "partition"; "plan"; "pragma"; "preceding"; "primary"; "query"; "raise";
    "range"; "recursive"; "references"; "regexp"; "reindex"; "release";
    "rename"; "replace"; "restrict"; "returning"; "right"; "rollback"; "row";
    "rows"; "savepoint"; "select"; "set"; "table"; "temp"; "temporary";
    "then"; "ties"; "to"; "transaction"; "trigger"; "unbounded"; "union";
    "unique"; "update"; "using"; "vacuum"; "values"; "view"; "virtual";
    "when"; "where"; "window"; "with"; "without" ]%string.

(** The names the model reads as a bare SQL identifier: ASCII letters,
    digits and underscores, not starting with a digit, and not an SQL
    keyword. Any other name makes the statement a syntax error here. *)
Definition sql_ident (s : string) : bool :=
  match s with
  | EmptyString => false
  | String a rest =>
      (is_letter a || is_underscore a)
      && forallb (fun c => is_letter c || is_digit c || is_underscore c)
                 (list_ascii_of_string rest)
      && negb (bool_decide (canon s ∈ sql_keywords))
  end.

(** Names beginning with [sqlite_] are reserved for SQLite's own tables. *)
Definition internal_name (s : string) : bool :=
  String.prefix "sqlite_" (canon s).

(** One version of an entity. [cells] holds the declared key and attribute
    columns in declaration order; a cell is the stored text or NULL. *)
Record row : Type := Row {
  id : Z;
  cells : list (string * option string);
  valid_from : string;
  valid_to : string;
  is_current : Z;
  row_hash : string
}.

(** An entity table: the columns declared [TEXT NOT NULL] (the key fields it
    was created with), those declared [TEXT], and its rows in insertion
    order. *)
Record entity_table : Type := Table {
  key_columns : list string;
  attribute_columns : list string;
  rows : list row
}.

Definition table_columns (t : entity_table) : list string :=
  key_columns t ++ attribute_columns t.

(** What ends up in the [details] column: NULL, the string passed, or
    [json.dumps(details, ensure_ascii=False)] of the mapping passed, which is
    kept symbolic. *)
Inductive payload : Type :=
  | PayloadNull
  | PayloadText (s : string)
  | PayloadJson (m : list (string * pyval)).

Record history_event : Type := HistoryEvent {
  h_id : Z;
  job_name : string;
  event_type : string;
  status : string;
  started_at : string;
  ended_at : option string;
  duration_ms : option Z;
  row_count : option Z;
  details : payload
}.

(** The database file: the [ingestion_history] table and the entity tables
    by canonical name. *)
Record store : Type := Store {
  history : list history_event;
  tables : gmap string entity_table
}.

(** The connection: the database and the SQL texts passed to [execute] so
    far, oldest first. *)
Record conn : Type := Conn {
  data : store;
  executed : list string
}.

Definition history_table_name : string := "ingestion_history".

Definition history_columns : list string :=
  [ "id"; "job_name"; "event_type"; "status"; "started_at"; "ended_at";
    "duration_ms"; "row_count"; "details" ]%string.

(** The columns every entity table has besides the declared ones. *)
Definition bookkeeping_columns : list string :=
  [ "id"; "valid_from"; "valid_to"; "is_current"; "row_hash" ]%string.

(** The largest [id] of a list of rows, 0 when there is none. A table with
    [AUTOINCREMENT] from which nothing is ever deleted gives the next row
    one more than this. *)
Definition max_id (rs : list row) : Z := fold_right (fun r m => Z.max (id r) m) 0 rs.
Definition max_h_id (es : list history_event) : Z :=
  fold_right (fun e m => Z.max (h_id e) m) 0 es.


(** ** The connection monad *)

(** A method body: from the connection to an outcome and the connection
    left behind. A raised exception stops the body where it is raised. *)
Definition M (A : Type) : Type := conn -> outcome A * conn.

Definition ret {A : Type} (a : A) : M A := fun c => (Returns a, c).
Definition lift {A : Type} (o : outcome A) : M A := fun c => (o, c).
Definition bind {A B : Type} (m : M A) (k : A -> M B) : M B :=
  fun c =>
    match m c with
    | (Returns a, c') => k a c'
    | (Raises e, c') => (Raises e, c')
    end.

Notation "'let*' x ':=' m 'in' k" := (bind m (fun x => k))
  (at level 10, x pattern, m at level 100, k at level 200).

(** [self._conn.execute(sql, params)]: the text is handed over and SQLite
    runs the statement, which [run] stands for: compiling it, binding the
    parameters, then stepping it. A statement that fails changes nothing. *)
Definition execute {A : Type} (sql : string) (run : store -> outcome (A * store)) : M A :=
  fun c =>
    let log := executed c ++ [sql] in
    match run (data c) with
    | Raises e => (Raises e, Conn (data c) log)
    | Returns (a, s') => (Returns a, Conn s' log)
    end.

(** [with self._conn:] around statements that write rows. [sqlite3] opens a
    transaction before the first INSERT or UPDATE; leaving the block commits
    it, and leaving it by an exception rolls it back, which restores the
    database as it was when the block was entered. *)
Definition transaction {A : Type} (body : M A) : M A :=
  fun c =>
    match body c with
    | (Returns a, c') => (Returns a, c')
    | (Raises e, c') => (Raises e, Conn (data c) (executed c'))
    end.

(** ** SQL texts, as the f-strings build them *)

Definition nl : string := String (ascii_of_nat 10) EmptyString.
Definition indent (n : nat) : string := string_of_list_ascii (repeat " "%char n).

(** [sep.join(parts)]. *)
Definition join (sep : string) (parts : list string) : string := String.concat sep parts.

Definition insert_history_sql : string :=
  nl +:+ indent 16 +:+ "INSERT INTO ingestion_history" +:+ nl
  +:+ indent 16
  +:+ "(job_name, event_type, status, started_at, ended_at, duration_ms, row_count, details)"
  +:+ nl
  +:+ indent 16 +:+ "VALUES (?, ?, ?, ?, ?, ?, ?, ?);" +:+ nl
  +:+ indent 16.

Definition fetch_history_sql : string :=
  "SELECT * FROM ingestion_history ORDER BY id DESC LIMIT ?;".

Definition create_table_sql (table key_cols attr_cols : string) : string :=
  nl +:+ indent 16 +:+ "CREATE TABLE IF NOT EXISTS " +:+ table +:+ " (" +:+ nl
  +:+ indent 20 +:+ "id INTEGER PRIMARY KEY AUTOINCREMENT," +:+ nl
  +:+ indent 20 +:+ key_cols +:+ "," +:+ nl
  +:+ indent 20 +:+ attr_cols +:+ "," +:+ nl
  +:+ indent 20 +:+ "valid_from TEXT NOT NULL," +:+ nl
  +:+ indent 20 +:+ "valid_to TEXT NOT NULL," +:+ nl
  +:+ indent 20 +:+ "is_current INTEGER NOT NULL," +:+ nl
  +:+ indent 20 +:+ "row_hash TEXT NOT NULL" +:+ nl
  +:+ indent 16 +:+ ");" +:+ nl
  +:+ indent 16.

Definition create_key_index_sql (table : string) (key_fields : list string) : string :=
  let idx_cols := join "_" key_fields in
  "CREATE INDEX IF NOT EXISTS idx_" +:+ table +:+ "_" +:+ idx_cols
  +:+ " ON " +:+ table +:+ " (" +:+ join ", " key_fields +:+ ");".

Definition create_current_index_sql (table : string) : string :=
  "CREATE INDEX IF NOT EXISTS idx_" +:+ table +:+ "_current ON " +:+ table
  +:+ "(is_current);".

Definition select_current_sql (table : string) (key_fields : list string) : string :=
  let placeholders := join " AND " (map (fun field => field +:+ "=?") key_fields) in
  nl +:+ indent 20 +:+ "SELECT id, row_hash FROM " +:+ table +:+ nl
  +:+ indent 20 +:+ "WHERE " +:+ placeholders +:+ " AND is_current=1" +:+ nl
  +:+ indent 20 +:+ "ORDER BY id DESC LIMIT 1;" +:+ nl
  +:+ indent 20.

Definition close_sql (table : string) : string :=
  nl +:+ indent 24 +:+ "UPDATE " +:+ table +:+ nl
  +:+ indent 24 +:+ "SET valid_to=?, is_current=0" +:+ nl
  +:+ indent 24 +:+ "WHERE id=?;" +:+ nl
  +:+ indent 24.

Definition insert_sql (table : string) (columns : list string) : string :=
  nl +:+ indent 20 +:+ "INSERT INTO " +:+ table +:+ " (" +:+ join ", " columns
  +:+ ", valid_from, valid_to, is_current, row_hash)" +:+ nl
  +:+ indent 20 +:+ "VALUES (" +:+ join ", " (map (fun _ => "?"%string) columns)
  +:+ ", ?, ?, 1, ?);" +:+ nl
  +:+ indent 20.

(** The open-ended [valid_to] of a current row. *)
Definition sentinel : string := "9999-12-31T00:00:00+00:00".

Definition create_history_sql : string :=
  nl +:+ indent 16 +:+ "CREATE TABLE IF NOT EXISTS ingestion_history (" +:+ nl
  +:+ indent 20 +:+ "id INTEGER PRIMARY KEY AUTOINCREMENT," +:+ nl
  +:+ indent 20 +:+ "job_name TEXT," +:+ nl
  +:+ indent 20 +:+ "event_type TEXT," +:+ nl
  +:+ indent 20 +:+ "status TEXT," +:+ nl
  +:+ indent 20 +:+ "started_at TEXT," +:+ nl
  +:+ indent 20 +:+ "ended_at TEXT," +:+ nl
  +:+ indent 20 +:+ "duration_ms INTEGER," +:+ nl
  +:+ indent 20 +:+ "row_count INTEGER," +:+ nl
  +:+ indent 20 +:+ "details TEXT" +:+ nl
  +:+ indent 16 +:+ ");" +:+ nl
  +:+ indent 16.

(** ** The statements, as SQLite runs them

    The engine is modelled on the structure of each statement, for names
    that are bare identifiers; a statement built from any other name is
    taken to be a syntax error. Every failure of compiling a statement (a
    syntax error, a table or column that does not exist, a duplicate column)
    is an [OperationalError]; a parameter that cannot be bound is an
    [OverflowError]; a violated constraint is an [IntegrityError].

    Indexes change no query result and are not recorded: creating one only
    checks the statement. Outside the engine are therefore: what SQLite
    makes of a name that is no bare identifier (it accepts some, and a name
    can carry SQL of its own); an index name that is already taken by a
    table, and a table name taken by an index; and, on a table that exists,
    a field named like one of the [bookkeeping_columns] or like the row
    identifier ([rowid], [oid], [_rowid_]), which SQLite takes for that
    column. The properties of what is stored are stated for names and
    databases on which none of this can occur (bare names, adapters in use,
    below). *)

Definition is_nil {A : Type} (l : list A) : bool :=
  match l with [] => true | _ => false end.

(** [CREATE TABLE IF NOT EXISTS table (id ..., key_cols, attr_cols, ...)].
    With no key field or no attribute field the column list has a stray
    comma. A name in [sqlite_] is refused; a table that exists is left as it
    is; a new table cannot have two columns of the same name. *)
Definition exec_create_table (table : string) (key_fields attribute_fields : list string)
    (s : store) : outcome (unit * store) :=
  if negb (sql_ident table && forallb sql_ident (key_fields ++ attribute_fields)
           && negb (is_nil key_fields) && negb (is_nil attribute_fields))
  then Raises OperationalError
  else if internal_name table then Raises OperationalError
  else if decide (canon table = history_table_name) then Returns (tt, s)
  else
    match tables s !! canon table with
    | Some _ => Returns (tt, s)
    | None =>
        if decide (NoDup (bookkeeping_columns ++ map canon (key_fields ++ attribute_fields)))
        then Returns (tt, Store (history s)
                            (<[canon table :=
                                 Table (map canon key_fields) (map canon attribute_fields) []]>
                               (tables s)))
        else Raises OperationalError
    end.

(** The declared columns of the table called [table], if there is one. *)
Definition columns_of (table : string) (s : store) : option (list string) :=
  if decide (canon table = history_table_name) then Some history_columns
  else table_columns <$> tables s !! canon table.

(** [CREATE INDEX IF NOT EXISTS idx_table_keys ON table (key, ...)]. *)
Definition exec_create_key_index (table : string) (key_fields : list string)
    (s : store) : outcome (unit * store) :=
  if negb (sql_ident table && forallb sql_ident key_fields && negb (is_nil key_fields))
  then Raises OperationalError
  else
    match columns_of table s with
    | None => Raises OperationalError
    | Some cols =>
        if decide (Forall (fun k => canon k ∈ cols) key_fields) then Returns (tt, s)
        else Raises OperationalError
    end.

(** [CREATE INDEX IF NOT EXISTS idx_table_current ON table(is_current)]. The
    history table has no such column. *)
Definition exec_create_current_index (table : string) (s : store) : outcome (unit * store) :=
  if negb (sql_ident table) then Raises OperationalError
  else if decide (canon table = history_table_name) then Raises OperationalError
  else
    match tables s !! canon table with
    | None => Raises OperationalError
    | Some _ => Returns (tt, s)
    end.

(** [key=?] for each key field, on a row: the cell is not NULL and equals the
    parameter brought to text. *)
Fixpoint row_matches (key_fields : list string) (params : list sqlval) (r : row) : bool :=
  match key_fields, params with
  | [], _ => true
  | k :: ks, p :: ps =>
      match assoc (canon k) (cells r), to_text p with
      | Some (Some stored), Some asked =>
          bool_decide (stored = asked) && row_matches ks ps r
      | _, _ => false
      end
  | _ :: _, [] => false
  end.

(** [ORDER BY id DESC LIMIT 1]. *)
Fixpoint latest (rs : list row) : option row :=
  match rs with
  | [] => None
  | r :: rs' =>
      match latest rs' with
      | Some r' => if id r <? id r' then Some r' else Some r
      | None => Some r
      end
  end.

(** [WHERE key=? AND ... AND is_current=1]. *)
Definition current_rows (key_fields : list string) (params : list sqlval)
    (rs : list row) : list row :=
  List.filter (fun r => row_matches key_fields params r && (is_current r =? 1)) rs.

(** [SELECT id, row_hash FROM table WHERE key=? AND ... AND is_current=1
    ORDER BY id DESC LIMIT 1] with the key values as parameters, then
    [fetchone()]. *)
Definition exec_select_current (table : string) (key_fields : list string)
    (params : list pyval) (s : store) : outcome (option row * store) :=
  if negb (sql_ident table && forallb sql_ident key_fields && negb (is_nil key_fields))
  then Raises OperationalError
  else if decide (canon table = history_table_name) then Raises OperationalError
  else
    match tables s !! canon table with
    | None => Raises OperationalError
    | Some t =>
        if decide (Forall (fun k => canon k ∈ table_columns t) key_fields)
        then
          match bind_values params with
          | Raises e => Raises e
          | Returns bound => Returns (latest (current_rows key_fields bound (rows t)), s)
          end
        else Raises OperationalError
    end.

(** What [UPDATE ... SET valid_to=?, is_current=0] does to one row. *)
Definition close_row (now : string) (r : row) : row :=
  Row (id r) (cells r) (valid_from r) now 0 (row_hash r).

(** [UPDATE table SET valid_to=?, is_current=0 WHERE id=?] with [now] and the
    identifier read from the current row. *)
Definition exec_close (table : string) (now : string) (target : Z)
    (s : store) : outcome (unit * store) :=
  if negb (sql_ident table) then Raises OperationalError
  else if decide (canon table = history_table_name) then Raises OperationalError
  else
    match tables s !! canon table with
    | None => Raises OperationalError
    | Some t =>
        let rs := map (fun r => if decide (id r = target) then close_row now r else r)
                      (rows t) in
        Returns (tt, Store (history s)
                       (<[canon table := Table (key_columns t) (attribute_columns t) rs]>
                          (tables s)))
    end.

(** The cells of a new row: each declared column takes the value listed for
    it, brought to text, and NULL when the statement does not list it. *)
Definition new_cells (t : entity_table) (columns : list string) (params : list sqlval)
    : list (string * option string) :=
  let given := combine (map canon columns) (map to_text params) in
  map (fun c => (c, default None (assoc c given))) (table_columns t).

(** [INSERT INTO table (columns, valid_from, valid_to, is_current, row_hash)
    VALUES (?, ..., ?, ?, 1, ?)] with the values of the record, then [now],
    the sentinel and the digest, which are strings. The key columns are
    declared NOT NULL. *)
Definition exec_insert (table : string) (columns : list string) (now upto hash : string)
    (params : list pyval) (s : store) : outcome (unit * store) :=
  if negb (sql_ident table && forallb sql_ident columns) then Raises OperationalError
  else if decide (canon table = history_table_name) then Raises OperationalError
  else
    match tables s !! canon table with
    | None => Raises OperationalError
    | Some t =>
        if decide (Forall (fun c => canon c ∈ table_columns t) columns)
        then
          match bind_values params with
          | Raises e => Raises e
          | Returns bound =>
              let cs := new_cells t columns bound in
              if decide (Forall (fun k => is_Some (default None (assoc k cs)))
                                (key_columns t))
              then
                let r := Row (max_id (rows t) + 1) cs now upto 1 hash in
                Returns (tt, Store (history s)
                               (<[canon table :=
                                    Table (key_columns t) (attribute_columns t)
                                          (rows t ++ [r])]>
                                  (tables s)))
              else Raises IntegrityError
          end
        else Raises OperationalError
    end.

Definition opt_int (o : option Z) : pyval :=
  match o with Some z => PInt z | None => PNone end.

(** [INSERT INTO ingestion_history (...) VALUES (...)]; the result is
    [cursor.lastrowid]. The two integers must fit 64 bits. *)
Definition exec_insert_history (job event stat started : string) (ended : option string)
    (duration count : option Z) (blob : payload) (s : store) : outcome (Z * store) :=
  match bind_values [opt_int duration; opt_int count] with
  | Raises e => Raises e
  | Returns _ =>
      let new_id := max_h_id (history s) + 1 in
      Returns (new_id,
               Store (history s
                        ++ [HistoryEvent new_id job event stat started ended duration count
                                         blob])
                     (tables s))
  end.

Fixpoint insert_desc (e : history_event) (es : list history_event) : list history_event :=
  match es with
  | [] => [e]
  | x :: es' => if h_id x <? h_id e then e :: es else x :: insert_desc e es'
  end.

(** [ORDER BY id DESC]. *)
Definition order_by_id_desc (es : list history_event) : list history_event :=
  fold_right insert_desc [] es.

(** [SELECT * FROM ingestion_history ORDER BY id DESC LIMIT ?]. SQLite reads a
    negative LIMIT as no limit. *)
Definition exec_fetch_history (limit : Z) (s : store)
    : outcome (list history_event * store) :=
  match bind_value (PInt limit) with
  | Raises e => Raises e
  | Returns _ =>
      let ordered := order_by_id_desc (history s) in
      Returns (if limit <? 0 then ordered else firstn (Z.to_nat limit) ordered, s)
  end.

(** ** [DBAdapter] *)

(** A statement that changes no table of the model. *)
Definition no_change (s : store) : outcome (unit * store) := Returns (tt, s).

Definition _configure : M unit :=
  let* _ := execute "PRAGMA journal_mode=WAL;" no_change in
  execute "PRAGMA synchronous=NORMAL;" no_change.

(** The history table is part of every [store], so creating it if absent
    changes nothing. *)
Definition ensure_history_schema : M unit := execute create_history_sql no_change.

(** [sqlite3.connect] on a new file, then [__init__]. *)
Definition connect : conn := Conn (Store [] ∅) [].
Definition init : M unit := let* _ := _configure in ensure_history_schema.

(** The [details] argument of [log_history]. *)
Inductive details_arg : Type :=
  | DetailsNone
  | DetailsStr (s : string)
  | DetailsMapping (m : list (string * pyval)).

Definition log_history (now : string) (job event stat : string)
    (started ended : option string) (duration count : option Z)
    (det : details_arg) : M Z :=
  let blob :=
    match det with
    | DetailsMapping m => PayloadJson m
    | DetailsStr s => PayloadText s
    | DetailsNone => PayloadNull
    end in
  (* started_at or _utcnow_iso() *)
  let started_or_now :=
    match started with
    | Some s => if decide (s = EmptyString) then now else s
    | None => now
    end in
  transaction
    (execute insert_history_sql
       (exec_insert_history job event stat started_or_now ended duration count blob)).

Definition fetch_history (limit : Z) : M (list history_event) :=
  transaction (execute fetch_history_sql (exec_fetch_history limit)).

(** The three statements are DDL: [sqlite3] opens no transaction for them,
    so each one that succeeds stays, whatever follows. *)
Definition ensure_scd2_table (table : string) (key_fields attribute_fields : list string)
    : M unit :=
  let key_cols := join ", " (map (fun name => name +:+ " TEXT NOT NULL") key_fields) in
  let attr_cols := join ", " (map (fun name => name +:+ " TEXT") attribute_fields) in
  let* _ := execute (create_table_sql table key_cols attr_cols)
              (exec_create_table table key_fields attribute_fields) in
  let* _ := execute (create_key_index_sql table key_fields)
              (exec_create_key_index table key_fields) in
  execute (create_current_index_sql table) (exec_create_current_index table).

(** [[row[field] for field in key_fields]]. *)
Fixpoint key_values_of (rec : record) (key_fields : list string) : outcome (list pyval) :=
  match key_fields with
  | [] => Returns []
  | field :: rest =>
      match rec_index rec field with
      | None => Raises (KeyError field)
      | Some v =>
          match key_values_of rec rest with
          | Raises e => Raises e
          | Returns vs => Returns (v :: vs)
          end
      end
  end.

(** The body of [for row in rows:]; the result is what the pass adds to
    [inserted]. *)
Definition upsert_row (table : string) (key_fields attribute_fields : list string)
    (now : string) (rec : record) : M Z :=
  let digest := _compute_hash rec attribute_fields in
  let* key_values := lift (key_values_of rec key_fields) in
  let* current := execute (select_current_sql table key_fields)
                    (exec_select_current table key_fields key_values) in
  if bool_decide (row_hash <$> current = Some digest) then ret 0
  else
    let* _ := match current with
              | Some cur => execute (close_sql table) (exec_close table now (id cur))
              | None => ret tt
              end in
    let columns := key_fields ++ attribute_fields in
    let values := map (rec_get rec) columns in
    let* _ := execute (insert_sql table columns)
                (exec_insert table columns now sentinel digest values) in
    ret 1.

Fixpoint upsert_rows (table : string) (key_fields attribute_fields : list string)
    (now : string) (recs : list record) (inserted : Z) : M Z :=
  match recs with
  | [] => ret inserted
  | rec :: rest =>
      let* n := upsert_row table key_fields attribute_fields now rec in
      upsert_rows table key_fields attribute_fields now rest (inserted + n)
  end.

(** [attribute_fields = list(attribute_fields or [])], then the fields of the
    first record that are not key fields when that list is empty. *)
Definition effective_attribute_fields (recs : list record) (key_fields : list string)
    (attribute_fields : option (list string)) : list string :=
  let given := default [] attribute_fields in
  if is_nil given
  then match recs with
       | [] => []
       | first :: _ => List.filter (fun f => negb (bool_decide (f ∈ key_fields))) (rec_keys first)
       end
  else given.

Definition upsert_scd2 (now : string) (table : string) (records : list record)
    (key_fields : list string) (attribute_fields : option (list string)) : M Z :=
  if is_nil records then ret 0
  else
    let attrs := effective_attribute_fields records key_fields attribute_fields in
    let* _ := ensure_scd2_table table key_fields attrs in
    transaction (upsert_rows table key_fields attrs now records 0).

(** * [clients/vworld_client.py]: what is made of an answer of the service *)

(** What [json.loads] returns: [None], a [bool], a number (kept as the text
    it was read from), a [str], a [list], or a [dict] with its keys in
    order. *)
#[warnings="-register-all"]
Inductive json : Type :=
  | JNull
  | JBool (b : bool)
  | JNumber (text : string)
  | JString (s : string)
  | JArray (items : list json)
  | JObject (fields : list (string * json)).

(** [d.get(key)] on a [dict]; [None] stands for Python's [None]. *)
Definition dict_get (d : list (string * json)) (key : string) : option json := assoc key d.

(** [d[key] = value]: the value of a key that is there is replaced where it
    stands, a new key goes last. *)
Fixpoint dict_set (d : list (string * json)) (key : string) (value : json)
    : list (string * json) :=
  match d with
  | [] => [(key, value)]
  | (k, v) :: rest =>
      if decide (k = key) then (k, value) :: rest else (k, v) :: dict_set rest key value
  end.

(** [value == text] for a value out of [json.loads] and a [str]: only a
    [str] equals one. *)
Definition equals_str (value : option json) (text : string) : bool :=
  match value with
  | Some (JString s) => bool_decide (s = text)
  | _ => false
  end.

(** The exceptions of this part: the module's own, and the [AttributeError]
    of calling [.get] on what is not a [dict]. *)
Inductive vworld_exn : Type :=
  | VWorldAPIError
  | AttributeError.

Inductive answer (A : Type) : Type :=
  | Answers (a : A)
  | Fails (e : vworld_exn).
Arguments Answers {A} a.
Arguments Fails {A} e.

(** [_perform_address_search_request], from the decoded [payload] on: the
    request and [json.loads] are what gives [payload]. The [response] block
    is returned as a [dict]; when nothing was found its [result] is made a
    [dict] whose [items] is a list. *)
Definition _perform_address_search_request (payload : json) : answer (list (string * json)) :=
  match payload with
  | JObject top =>
      match dict_get top "response" with
      | Some (JObject response_data) =>
          let status := dict_get response_data "status" in
          if equals_str status "NOT_FOUND" then
            let result_dict :=
              match dict_get response_data "result" with
              | Some (JObject result) =>
                  match dict_get result "items" with
                  | Some (JArray _) => result
                  | _ => dict_set result "items" (JArray [])
                  end
              | _ => [("items"%string, JArray [])]
              end in
            Answers (dict_set response_data "result" (JObject result_dict))
          else if negb (equals_str status "OK") then Fails VWorldAPIError
          else Answers response_data
      | _ => Fails VWorldAPIError
      end
  | _ => Fails AttributeError
  end.

(** [sep in s], for a separator of one ASCII character. *)
Fixpoint contains (sep : ascii) (s : string) : bool :=
  match s with
  | EmptyString => false
  | String a rest => bool_decide (a = sep) || contains sep rest
  end.

(** [s.split(sep, 1)[0]]: what stands before the first [sep]. *)
Fixpoint before_first (sep : ascii) (s : string) : string :=
  match s with
  | EmptyString => EmptyString
  | String a rest => if bool_decide (a = sep) then EmptyString else String a (before_first sep rest)
  end.

(** [_numbers_match], the comparison of two building numbers in
    [_perform_validated_address_search_request]. *)
Definition _numbers_match (query candidate : string) : bool :=
  if contains "-" query then bool_decide (query = candidate)
  else negb (contains "-" candidate)
       && bool_decide (before_first "-" query = before_first "-" candidate).

(** * The vocabulary of the properties *)

(** A body [m] keeps the relation [R] between the database before and the
    database after, whatever its outcome. *)
Definition keeps {A : Type} (R : store -> store -> Prop) (m : M A) : Prop :=
  forall c, R (data c) (data (snd (m c))).

(** The class of the exception raised, if any, is [cls]. *)
Definition raises_only {A : Type} (cls : string) (o : outcome A) : Prop :=
  match o with
  | Returns _ => True
  | Raises e => exn_class e = cls
  end.

(** The exception comes from [sqlite3]: any but [KeyError]. *)
Definition from_sqlite (e : exn) : Prop :=
  match e with
  | KeyError _ => False
  | _ => True
  end.

(** The rows stored under a canonical table name; none when there is no such
    table. *)
Definition rows_at (key : string) (s : store) : list row :=
  from_option rows [] (tables s !! key).

(** The rows of the table a caller names [table]. *)
Definition table_rows (table : string) (s : store) : list row := rows_at (canon table) s.

(** The history and the rows of every table are the same in both
    databases. *)
Definition same_rows (s s' : store) : Prop :=
  history s' = history s /\ forall key, rows_at key s' = rows_at key s.

(** The history and the rows of every table but [table] are the same in both
    databases. *)
Definition others_untouched (table : string) (s s' : store) : Prop :=
  history s' = history s
  /\ forall key, key <> canon table -> rows_at key s' = rows_at key s.

(** The grammar the specification asks for: letters, digits and underscores,
    at least one character. *)
Definition strict_identifier (s : string) : bool :=
  negb (bool_decide (s = EmptyString))
  && forallb (fun c => is_letter c || is_digit c || is_underscore c)
             (list_ascii_of_string s).

(** Most recent first: no later element has a larger identifier. *)
Definition newest_first : list history_event -> Prop :=
  StronglySorted (fun e e' => h_id e' <= h_id e).

(** In the order of the identifiers, which is the order of logging. *)
Definition oldest_first : list history_event -> Prop :=
  StronglySorted (fun e e' => h_id e < h_id e').

(** [r'] is the version [r], as it was or closed: only [valid_to] and
    [is_current] may differ. *)
Definition same_version (r r' : row) : Prop :=
  id r' = id r /\ cells r' = cells r /\ valid_from r' = valid_from r
  /\ row_hash r' = row_hash r.

(** [rs'] holds every version of [rs], in the same order, followed by the
    versions added since. *)
Definition rows_extended (rs rs' : list row) : Prop :=
  exists kept added, rs' = kept ++ added /\ Forall2 same_version rs kept.

(** The history only grew, and so did every table. *)
Definition no_row_deleted (s s' : store) : Prop :=
  (exists added, history s' = history s ++ added)
  /\ forall key, rows_extended (rows_at key s) (rows_at key s').

(** What [exec_close] does to the rows stored under [key]. *)
Definition closed_in (table now : string) (target : Z) (key : string) (r : row) : row :=
  if decide (key = canon table /\ id r = target) then close_row now r else r.

(** The calls a client of [DBAdapter] can make. *)
Inductive operation : Type :=
  | EnsureHistorySchema
  | LogHistory (now job event stat : string) (started ended : option string)
      (duration count : option Z) (det : details_arg)
  | FetchHistory (limit : Z)
  | EnsureScd2Table (table : string) (key_fields attribute_fields : list string)
  | UpsertScd2 (now table : string) (records : list record) (key_fields : list string)
      (attribute_fields : option (list string)).

(** The connection a call leaves, whether it returns or raises. *)
Definition perform (c : conn) (op : operation) : conn :=
  match op with
  | EnsureHistorySchema => snd (ensure_history_schema c)
  | LogHistory now job event stat started ended duration count det =>
      snd (log_history now job event stat started ended duration count det c)
  | FetchHistory limit => snd (fetch_history limit c)
  | EnsureScd2Table table key_fields attribute_fields =>
      snd (ensure_scd2_table table key_fields attribute_fields c)
  | UpsertScd2 now table records key_fields attribute_fields =>
      snd (upsert_scd2 now table records key_fields attribute_fields c)
  end.

(** At most one row of [rs] is current for the key tuple [key], read as the
    lookup of [upsert_scd2] reads it. *)
Definition single_current (key_fields : list string) (key : list sqlval)
    (rs : list row) : Prop :=
  (length (current_rows key_fields key rs) <= 1)%nat.

(** The value [sqlite3] binds for a Python value that it can bind. *)
Definition adapt (v : pyval) : sqlval :=
  match v with
  | PNone => SqlNull
  | PStr s => SqlText s
  | PInt z => SqlInt z
  end.

Definition bindable (v : pyval) : Prop :=
  match v with
  | PInt z => - 2 ^ 63 <= z < 2 ^ 63
  | _ => True
  end.

(** What a [TEXT] column stores for the field [f] of a record. *)
Definition cell_of (rec : record) (f : string) : option string :=
  to_text (adapt (rec_get rec f)).

(** The key of a record as the table stores it. *)
Definition key_cells (key_fields : list string) (rec : record) : list (option string) :=
  map (cell_of rec) key_fields.

(** Every key field of the record has a value other than [None], and every
    integer among its key and attribute values fits 64 bits. *)
Definition storable (key_fields attribute_fields : list string) (rec : record) : Prop :=
  Forall (fun k => rec_get rec k <> PNone) key_fields
  /\ Forall (fun f => bindable (rec_get rec f)) (key_fields ++ attribute_fields).

(** The names are bare identifiers, the table is not one of SQLite's or the
    history table, there is at least one key field and one attribute field,
    and the declared columns are distinct from each other and from the
    bookkeeping columns. *)
Definition well_named (table : string) (key_fields attribute_fields : list string) : Prop :=
  sql_ident table = true
  /\ internal_name table = false
  /\ canon table <> history_table_name
  /\ forallb sql_ident (key_fields ++ attribute_fields) = true
  /\ key_fields <> [] /\ attribute_fields <> []
  /\ NoDup (bookkeeping_columns ++ map canon (key_fields ++ attribute_fields)).

(** The table was created for these key and attribute fields. *)
Definition declares (t : entity_table) (key_fields attribute_fields : list string) : Prop :=
  key_columns t = map canon key_fields /\ attribute_columns t = map canon attribute_fields.

(** The table is absent, or is as [ensure_scd2_table] creates it for these
    fields, with no row. *)
Definition fresh (table : string) (key_fields attribute_fields : list string)
    (s : store) : Prop :=
  match tables s !! canon table with
  | None => True
  | Some t =>
      declares t key_fields attribute_fields
      /\ NoDup (bookkeeping_columns ++ table_columns t)
      /\ rows t = []
  end.

(** The rows after [UPDATE ... WHERE id = target]. *)
Definition close_rows (now : string) (target : Z) (rs : list row) : list row :=
  map (fun r => if decide (id r = target) then close_row now r else r) rs.

(** The rows of the table once the current row [found], if any, is closed. *)
Definition after_close (now : string) (found : option row) (rs : list row) : list row :=
  match found with
  | Some cur => close_rows now (id cur) rs
  | None => rs
  end.

(** The rows [after] are the rows [before] with the row [cur] closed at
    [now], followed by one new row with the cells [cs] and the digest
    [digest], current from [now] on. *)
Definition supersedes (now : string) (cur : row) (cs : list (string * option string))
    (digest : string) (before after : list row) : Prop :=
  let closed := close_row now cur in
  let added := Row (max_id before + 1) cs now sentinel 1 digest in
  after = close_rows now (id cur) before ++ [added]
  /\ closed ∈ after
  /\ id closed = id cur /\ valid_to closed = now /\ is_current closed = 0
  /\ is_current added = 1
  /\ valid_to added = "9999-12-31T00:00:00+00:00"%string
  /\ valid_from added = valid_to closed.

(** The row an INSERT adds for a record. *)
Definition new_version (key_fields attribute_fields : list string) (now : string)
    (rec : record) (new_id : Z) : row :=
  Row new_id (map (fun f => (canon f, cell_of rec f)) (key_fields ++ attribute_fields))
      now sentinel 1 (_compute_hash rec attribute_fields).

(** The rows a batch of new keys leaves in an empty table: one version per
    record, numbered from [start + 1]. *)
Fixpoint versions (key_fields attribute_fields : list string) (now : string) (start : Z)
    (recs : list record) : list row :=
  match recs with
  | [] => []
  | rec :: rest =>
      new_version key_fields attribute_fields now rec (start + 1)
      :: versions key_fields attribute_fields now (start + 1) rest
  end.

(** ** The scenario of the specification *)

Definition day1 : string := "2024-05-01T09:00:00+00:00".
Definition day2 : string := "2024-05-02T09:00:00+00:00".

Definition account (account_id balance : string) : record :=
  [("account_id", PStr account_id); ("balance", PStr balance)]%string.

(** A new adapter. *)
Definition adapter : conn := snd (init connect).

(** A new adapter on which the start and the success of a job were logged. *)
Definition two_events : conn :=
  snd (log_history "2024-05-01T09:00:05+00:00" "fetch_transactions" "success" "ok"
         (Some day1) (Some "2024-05-01T09:00:05+00:00"%string) (Some 5000) (Some 5)
         (DetailsStr "5 rows")
         (snd (log_history day1 "fetch_transactions" "start" "running" None None None None
                 DetailsNone adapter))).

(** A new adapter on which [A1] with balance 100 was upserted on [day1]. *)
Definition accounts_day1 : conn :=
  snd (upsert_scd2 day1 "accounts" [account "A1" "100"] ["account_id"]%string None adapter).

Definition accounts_day1_row : row :=
  Row 1 [("account_id", Some "A1"); ("balance", Some "100")]%string day1 sentinel 1
      (Sha256.hexdigest "100").

Definition accounts_day1_table : entity_table :=
  Table ["account_id"]%string ["balance"]%string [accounts_day1_row].

Ltac by_computation := apply (bool_decide_unpack _); vm_compute; exact I.

(** ** More vocabulary: adapters in use *)

(** The identifiers 1, 2, ..., n. *)
Definition first_ids (n : nat) : list Z := map Z.of_nat (seq 1 n).



(** A row is either current and open-ended, or closed. *)
Definition open_ended (r : row) : Prop :=
  (is_current r = 1 /\ valid_to r = sentinel) \/ is_current r = 0.

(** What one pass of the loop can make of the rows [rs] of its table: nothing,
    or close one current row, or add one row, or both. *)
Definition one_pass (now : string) (rs rs' : list row) : Prop :=
  rs' = rs
  \/ (exists cur, In cur rs /\ is_current cur = 1
                  /\ (rs' = close_rows now (id cur) rs
                      \/ exists cs digest,
                           rs' = close_rows now (id cur) rs
                                 ++ [Row (max_id rs + 1) cs now sentinel 1 digest]))
  \/ (exists cs digest, rs' = rs ++ [Row (max_id rs + 1) cs now sentinel 1 digest]).

(** The call, if it is an [upsert_scd2] on [table], names the key fields
    [key_fields]. *)
Definition keyed_by (table : string) (key_fields : list string) (op : operation) : Prop :=
  match op with
  | UpsertScd2 _ t _ ks _ => canon t = canon table -> ks = key_fields
  | _ => True
  end.

(** The outcome of [m] and the database it leaves depend on the database
    only, not on the statements executed before. *)
Definition data_only {A : Type} (m : M A) : Prop :=
  forall c d, data c = data d ->
              fst (m c) = fst (m d) /\ data (snd (m c)) = data (snd (m d)).

(** The current row of the key of [rec] among [rs] has the digest of [rec]:
    a pass of the loop on [rec] has nothing to do. *)
Definition settled (key_fields attribute_fields : list string) (rs : list row)
    (rec : record) : Prop :=
  row_hash <$> latest (current_rows key_fields (map adapt (map (rec_get rec) key_fields)) rs)
  = Some (_compute_hash rec attribute_fields).

(** What the lookup of a record needs to run on a table with the columns
    [columns]: names that are identifiers, key fields among the columns, and
    a key that can be read from the record and bound. *)
Definition readable (table : string) (key_fields columns : list string)
    (rec : record) : Prop :=
  sql_ident table && forallb sql_ident key_fields && negb (is_nil key_fields) = true
  /\ canon table <> history_table_name
  /\ Forall (fun k => canon k ∈ columns) key_fields
  /\ key_values_of rec key_fields = Returns (map (rec_get rec) key_fields)
  /\ Forall bindable (map (rec_get rec) key_fields).


(** What a pass of the loop that returned has made of the rows [rs] of its
    table, for the key fields [key_fields]: nothing; or one row more; or one
    current row closed and one row more, which starts at [now] and matches
    every key the closed row matches. The new row is numbered after all the
    others and is current. *)
Definition returned_pass (key_fields : list string) (now : string)
    (rs rs' : list row) : Prop :=
  rs' = rs
  \/ exists added,
       id added = max_id rs + 1 /\ is_current added = 1 /\ valid_from added = now
       /\ (rs' = rs ++ [added]
           \/ exists cur,
                In cur rs /\ is_current cur = 1
                /\ rs' = close_rows now (id cur) rs ++ [added]
                /\ forall q, row_matches key_fields q cur = true ->
                             row_matches key_fields q added = true).

(** Every closed row of [rs] is followed by a row of the same key that
    starts when it ends. *)
Definition superseded_in (key_fields : list string) (rs : list row) : Prop :=
  forall r, In r rs -> is_current r = 0 ->
    exists next,
      In next rs /\ id r < id next /\ valid_from next = valid_to r
      /\ forall q, row_matches key_fields q r = true ->
                   row_matches key_fields q next = true.

(** ** The names the engine reads as SQLite does *)

(** Names SQLite reads, where no column is called so, as something else than
    a column: the row identifier under its three names, and the two truth
    values. *)
Definition special_names : list string := ["rowid"; "oid"; "_rowid_"; "true"; "false"].

(** A field name that can only be the column declared under it: a bare
    identifier, not the name of a bookkeeping column (on an existing table
    SQLite takes such a field for that column) and not a special name. *)
Definition bare_field (f : string) : Prop :=
  sql_ident f = true /\ canon f ∉ bookkeeping_columns ++ special_names.

(** A table name that is a bare identifier and cannot be the name of an
    index: the indexes of [ensure_scd2_table], which the engine does not
    record, are all named [idx_...]. *)
Definition bare_table (table : string) : Prop :=
  sql_ident table = true /\ String.prefix "idx_" (canon table) = false.

Definition bare_names (table : string) (fields : list string) : Prop :=
  bare_table table /\ Forall bare_field fields.

(** The call names bare names only; for [upsert_scd2] the attribute fields
    are those the call works with. *)
Definition bare (op : operation) : Prop :=
  match op with
  | EnsureScd2Table table key_fields attribute_fields =>
      bare_names table (key_fields ++ attribute_fields)
  | UpsertScd2 _ table records key_fields attribute_fields =>
      bare_names table
        (key_fields ++ effective_attribute_fields records key_fields attribute_fields)
  | _ => True
  end.

(** An adapter in use: a new one on which calls were made, each with bare
    names, each of which returned or raised. Every table of its database was
    created by [ensure_scd2_table] from bare names, and no table is named
    like an index. *)
Definition in_use (c : conn) : Prop :=
  exists ops, Forall bare ops /\ c = fold_left perform ops adapter.

(** The row [r] holds, in the key columns, the key of the record [rec]. *)
Definition has_key (key_fields : list string) (rec : record) (r : row) : Prop :=
  Forall (fun k => exists text, cell_of rec k = Some text
                                /\ assoc (canon k) (cells r) = Some (Some text))
         key_fields.

(** * Properties *)

(** ** The monad *)

Section Keeps.
Context (R : store -> store -> Prop).
Hypothesis R_refl : forall s, R s s.
Hypothesis R_trans : forall s1 s2 s3, R s1 s2 -> R s2 s3 -> R s1 s3.

Lemma keeps_ret {A : Type} (a : A) : keeps R (ret a).
Proof. intros c. apply R_refl. Qed.

Lemma keeps_lift {A : Type} (o : outcome A) : keeps R (lift o).
Proof. intros c. apply R_refl. Qed.

Lemma keeps_bind {A B : Type} (m : M A) (k : A -> M B) :
  keeps R m -> (forall a, keeps R (k a)) -> keeps R (bind m k).
Proof.
  intros Hm Hk c. unfold bind. specialize (Hm c).
  destruct (m c) as [[a|e] c1]; simpl in *; [|exact Hm].
  eapply R_trans; [exact Hm|apply Hk].
Qed.

Lemma keeps_execute {A : Type} (sql : string) (run : store -> outcome (A * store)) :
  (forall s a s', run s = Returns (a, s') -> R s s') -> keeps R (execute sql run).
Proof.
  intros Hrun c. unfold execute.
  destruct (run (data c)) as [[a s']|e] eqn:E; simpl; [|apply R_refl].
  eapply Hrun, E.
Qed.

Lemma keeps_transaction {A : Type} (m : M A) : keeps R m -> keeps R (transaction m).
Proof.
  intros Hm c. unfold transaction. specialize (Hm c).
  destruct (m c) as [[a|e] c1]; simpl in *; [exact Hm|apply R_refl].
Qed.
End Keeps.

(** ** The row digest *)

Example sha256_abc :
  Sha256.hexdigest "abc"
  = "ba7816bf8f01cfea414140de5dae2223b00361a396177a9cb410ff61f20015ad"%string.
Proof. vm_compute. reflexivity. Qed.

Example sha256_empty :
  Sha256.hexdigest ""
  = "e3b0c44298fc1c149afbf4c8996fb92427ae41e4649b934ca495991b7852b855"%string.
Proof. vm_compute. reflexivity. Qed.

Lemma append_cons (a : ascii) (s t : string) : String a s +:+ t = String a (s +:+ t).
Proof. reflexivity. Qed.

Lemma append_empty_r (s : string) : s +:+ EmptyString = s.
Proof. induction s as [|a s IH]; [reflexivity|]. now rewrite append_cons, IH. Qed.

Lemma append_assoc (s1 s2 s3 : string) : (s1 +:+ s2) +:+ s3 = s1 +:+ (s2 +:+ s3).
Proof. induction s1 as [|a s1 IH]; [reflexivity|]. now rewrite !append_cons, IH. Qed.

Lemma concat_empty_cons (s : string) (l : list string) :
  String.concat EmptyString (s :: l) = s +:+ String.concat EmptyString l.
Proof.
  destruct l; cbn [String.concat]; [|reflexivity].
  symmetry. apply append_empty_r.
Qed.

Lemma hasher_fold (r : record) (fields : list string) (h : hasher) :
  fold_left (fun h field => hasher_update h (hash_value r field)) fields h
  = h +:+ String.concat EmptyString (map (hash_value r) fields).
Proof.
  revert h. induction fields as [|f fields IH]; intros h.
  - cbn [fold_left map String.concat]. symmetry. apply append_empty_r.
  - cbn [fold_left map]. rewrite IH, concat_empty_cons.
    unfold hasher_update. apply append_assoc.
Qed.

(** Claim C5. The digest of a record is SHA-256 of the concatenation, in the
    declared order, of its attribute values brought to text, [None] and a
    missing field counting as the empty string; so two records that agree on
    the attribute fields have the same digest, whatever their other fields
    (the key fields among them) hold. *)
Theorem compute_hash_attribute_values_only (r1 r2 : record) (fields : list string) :
  (forall f, f ∈ fields -> rec_get r1 f = rec_get r2 f) ->
  _compute_hash r1 fields
  = Sha256.hexdigest
      (join EmptyString
         (map (fun f => match rec_get r1 f with PNone => EmptyString | v => py_str v end)
              fields))
  /\ _compute_hash r1 fields = _compute_hash r2 fields.
Proof.
  intros Hsame. unfold _compute_hash, hasher_hexdigest, hasher_new, join.
  rewrite !hasher_fold. split; [reflexivity|].
  assert (map (hash_value r1) fields = map (hash_value r2) fields) as ->; [|reflexivity].
  apply map_ext_in. intros f Hf.
  unfold hash_value. rewrite Hsame; [reflexivity|].
  now apply list_elem_of_In.
Qed.

Lemma compute_hash_attribute_values_only_witness :
  _compute_hash [("tx_id", PStr "mock-0"); ("amount", PInt 12); ("currency", PNone)]%string
                ["amount"; "currency"; "note"]%string
  = _compute_hash [("tx_id", PStr "mock-1"); ("amount", PInt 12)]%string
                  ["amount"; "currency"; "note"]%string.
Proof.
  apply (compute_hash_attribute_values_only
           [("tx_id", PStr "mock-0"); ("amount", PInt 12); ("currency", PNone)]%string
           [("tx_id", PStr "mock-1"); ("amount", PInt 12)]%string
           ["amount"; "currency"; "note"]%string).
  intros f Hf.
  repeat (apply elem_of_cons in Hf as [->|Hf]; [reflexivity|]).
  now apply elem_of_nil in Hf.
Defined.

(** ** Empty batches and inferred attribute fields *)

(** Claim C8. With no record, [upsert_scd2] returns 0 and leaves the
    connection as it found it: no statement is handed to SQLite, so no table
    is created and none is changed. *)
Theorem upsert_scd2_empty_batch (now table : string) (key_fields : list string)
    (attribute_fields : option (list string)) (c : conn) :
  upsert_scd2 now table [] key_fields attribute_fields c = (Returns 0, c).
Proof. reflexivity. Qed.

(** Claim C10. For a batch that is not empty, passing an empty list of
    attribute fields is the same call as passing none: in both cases the
    attribute fields are the fields of the first record that are not key
    fields, in the record's order. *)
Theorem upsert_scd2_empty_attribute_fields (now table : string) (first : record)
    (rest : list record) (key_fields : list string) (c : conn) :
  upsert_scd2 now table (first :: rest) key_fields (Some []) c
  = upsert_scd2 now table (first :: rest) key_fields None c
  /\ effective_attribute_fields (first :: rest) key_fields (Some [])
     = List.filter (fun f => negb (bool_decide (f ∈ key_fields))) (rec_keys first)
  /\ upsert_scd2 now table (first :: rest) key_fields (Some []) c
     = bind (ensure_scd2_table table key_fields
               (List.filter (fun f => negb (bool_decide (f ∈ key_fields))) (rec_keys first)))
            (fun _ => transaction
               (upsert_rows table key_fields
                  (List.filter (fun f => negb (bool_decide (f ∈ key_fields))) (rec_keys first))
                  now (first :: rest) 0)) c.
Proof. repeat split. Qed.


(** ** Adapters in use *)

Lemma adapter_in_use : in_use adapter.
Proof. exists []. split; [constructor|reflexivity]. Qed.

Lemma in_use_perform (c : conn) (op : operation) :
  in_use c -> bare op -> in_use (perform c op).
Proof.
  intros (ops & Hops & ->) Hop. exists (ops ++ [op]). split.
  - apply Forall_app. split; [exact Hops|]. constructor; [exact Hop|constructor].
  - rewrite fold_left_app. reflexivity.
Qed.

Lemma in_use_all (c : conn) (ops : list operation) :
  in_use c -> Forall bare ops -> in_use (fold_left perform ops c).
Proof.
  revert c. induction ops as [|op ops IH]; intros c Hc Hops; [exact Hc|].
  apply Forall_cons in Hops as [Hop Hops]. cbn [fold_left].
  apply IH; [apply in_use_perform; assumption|exact Hops].
Qed.

Lemma accounts_bare :
  bare_names "accounts" ["account_id"; "balance"]%string.
Proof.
  split; [split; reflexivity|].
  repeat constructor; by_computation.
Qed.

Lemma accounts_day1_in_use : in_use accounts_day1.
Proof.
  apply (in_use_perform adapter
           (UpsertScd2 day1 "accounts" [account "A1" "100"] ["account_id"]%string None)).
  - apply adapter_in_use.
  - exact accounts_bare.
Qed.
(** ** What the statements can do *)

Lemma same_rows_refl (s : store) : same_rows s s.
Proof. split; reflexivity. Qed.

Lemma same_rows_trans (s1 s2 s3 : store) :
  same_rows s1 s2 -> same_rows s2 s3 -> same_rows s1 s3.
Proof.
  intros [H1 R1] [H2 R2]. split; [congruence|].
  intros key. now rewrite R2, R1.
Qed.

Lemma exec_create_table_cases (table : string) (key_fields attribute_fields : list string)
    (s : store) :
  match exec_create_table table key_fields attribute_fields s with
  | Raises e => exn_class e = "OperationalError"
  | Returns (_, s') =>
      s' = s
      \/ (tables s !! canon table = None
          /\ s' = Store (history s)
                    (<[canon table :=
                         Table (map canon key_fields) (map canon attribute_fields) []]>
                       (tables s)))
  end.
Proof.
  unfold exec_create_table.
  repeat case_match; simplify_eq; simpl; auto.
Qed.

Lemma exec_create_table_same_rows (table : string) (key_fields attribute_fields : list string)
    (s s' : store) (u : unit) :
  exec_create_table table key_fields attribute_fields s = Returns (u, s') -> same_rows s s'.
Proof.
  intros E. pose proof (exec_create_table_cases table key_fields attribute_fields s) as H.
  rewrite E in H. destruct H as [->|[Hnone ->]]; [apply same_rows_refl|].
  split; [reflexivity|]. intros key. unfold rows_at. simpl.
  destruct (decide (canon table = key)) as [<-|Hne].
  - rewrite lookup_insert_eq, Hnone. reflexivity.
  - rewrite lookup_insert_ne by exact Hne. reflexivity.
Qed.

Lemma exec_create_key_index_cases (table : string) (key_fields : list string) (s : store) :
  match exec_create_key_index table key_fields s with
  | Raises e => exn_class e = "OperationalError"
  | Returns (_, s') => s' = s
  end.
Proof.
  unfold exec_create_key_index.
  repeat case_match; simplify_eq; simpl; auto.
Qed.

Lemma exec_create_current_index_cases (table : string) (s : store) :
  match exec_create_current_index table s with
  | Raises e => exn_class e = "OperationalError"
  | Returns (_, s') => s' = s
  end.
Proof.
  unfold exec_create_current_index.
  repeat case_match; simplify_eq; simpl; auto.
Qed.

Lemma ensure_scd2_table_same_rows (table : string) (key_fields attribute_fields : list string) :
  keeps same_rows (ensure_scd2_table table key_fields attribute_fields).
Proof.
  unfold ensure_scd2_table.
  apply keeps_bind; [exact same_rows_trans| |intros _].
  - apply keeps_execute; [exact same_rows_refl|].
    intros s [] s'. apply exec_create_table_same_rows.
  - apply keeps_bind; [exact same_rows_trans| |intros _].
    + apply keeps_execute; [exact same_rows_refl|]. intros s a s' E.
      pose proof (exec_create_key_index_cases table key_fields s) as H.
      rewrite E in H. subst s'. apply same_rows_refl.
    + apply keeps_execute; [exact same_rows_refl|]. intros s a s' E.
      pose proof (exec_create_current_index_cases table s) as H.
      rewrite E in H. subst s'. apply same_rows_refl.
Qed.

Lemma same_version_refl (r : row) : same_version r r.
Proof. repeat split. Qed.

Lemma Forall2_same_version_refl (rs : list row) : Forall2 same_version rs rs.
Proof. induction rs; constructor; [apply same_version_refl|assumption]. Qed.

Lemma rows_extended_refl (rs : list row) : rows_extended rs rs.
Proof.
  exists rs, []. split; [now rewrite app_nil_r|apply Forall2_same_version_refl].
Qed.

Lemma rows_extended_trans (rs1 rs2 rs3 : list row) :
  rows_extended rs1 rs2 -> rows_extended rs2 rs3 -> rows_extended rs1 rs3.
Proof.
  intros (k1 & a1 & -> & F1) (k2 & a2 & -> & F2).
  apply Forall2_app_inv_l in F2 as (k2a & k2b & Fa & Fb & ->).
  exists k2a, (k2b ++ a2). split; [now rewrite app_assoc|].
  clear Fb. revert k2a Fa. induction F1 as [|r r1 rs ks Hr _ IH]; intros k2a Fa.
  - inversion Fa. constructor.
  - inversion Fa as [|? r2 ? ks2 Hr2 Hrest]; subst. constructor; [|apply IH, Hrest].
    destruct Hr as (?&?&?&?), Hr2 as (?&?&?&?). repeat split; congruence.
Qed.

Lemma no_row_deleted_refl (s : store) : no_row_deleted s s.
Proof.
  split; [exists []; now rewrite app_nil_r|]. intros key. apply rows_extended_refl.
Qed.

Lemma no_row_deleted_trans (s1 s2 s3 : store) :
  no_row_deleted s1 s2 -> no_row_deleted s2 s3 -> no_row_deleted s1 s3.
Proof.
  intros [[a1 H1] R1] [[a2 H2] R2]. split.
  - exists (a1 ++ a2). now rewrite H2, H1, app_assoc.
  - intros key. eapply rows_extended_trans; [apply R1|apply R2].
Qed.

Lemma same_rows_no_row_deleted (s s' : store) : same_rows s s' -> no_row_deleted s s'.
Proof.
  intros [Hh Hr]. split; [exists []; now rewrite app_nil_r|].
  intros key. rewrite Hr. apply rows_extended_refl.
Qed.

(** The rows under every name after one table was given new rows. *)
Lemma rows_at_insert (key name : string) (t : entity_table) (s : store) :
  rows_at key (Store (history s) (<[name := t]> (tables s)))
  = if decide (name = key) then rows t else rows_at key s.
Proof.
  unfold rows_at. cbn [tables]. destruct (decide (name = key)) as [<-|Hne].
  - now rewrite lookup_insert_eq.
  - now rewrite lookup_insert_ne.
Qed.

Lemma bind_values_raises (vs : list pyval) (e : exn) :
  bind_values vs = Raises e -> e = OverflowError.
Proof.
  induction vs as [|v vs IH]; cbn [bind_values]; [discriminate|].
  destruct v as [| |z]; cbn [bind_value].
  - destruct (bind_values vs); [discriminate|]. intros E. apply IH. congruence.
  - destruct (bind_values vs); [discriminate|]. intros E. apply IH. congruence.
  - destruct (decide _); [|congruence].
    destruct (bind_values vs); [discriminate|]. intros E. apply IH. congruence.
Qed.

Lemma exec_select_current_cases (table : string) (key_fields : list string)
    (params : list pyval) (s : store) :
  match exec_select_current table key_fields params s with
  | Raises e => from_sqlite e
  | Returns (found, s') =>
      s' = s
      /\ exists bound,
           bind_values params = Returns bound
           /\ found = latest (current_rows key_fields bound (table_rows table s))
  end.
Proof.
  unfold exec_select_current, table_rows, rows_at.
  repeat case_match; simplify_eq; simpl; eauto.
  match goal with H : bind_values _ = Raises _ |- _ => apply bind_values_raises in H end.
  now subst.
Qed.

Lemma exec_close_cases (table now : string) (target : Z) (s : store) :
  match exec_close table now target s with
  | Raises e => from_sqlite e
  | Returns (_, s') =>
      history s' = history s
      /\ forall key, rows_at key s' = map (closed_in table now target key) (rows_at key s)
  end.
Proof.
  unfold exec_close.
  repeat case_match; simplify_eq; simpl; auto.
  split; [reflexivity|]. intros key. rewrite rows_at_insert. cbn [rows].
  unfold closed_in. destruct (decide (canon table = key)) as [<-|Hne].
  - unfold rows_at.
    match goal with H : tables s !! canon table = Some _ |- _ => rewrite H end.
    cbn. apply map_ext. intros r.
    destruct (decide (id r = target)); destruct (decide (_ /\ _)); tauto || reflexivity.
  - rewrite <- (map_id (rows_at key s)) at 1. apply map_ext. intros r.
    destruct (decide (_ /\ _)) as [[-> _]|]; [congruence|reflexivity].
Qed.

Lemma exec_insert_cases (table : string) (columns : list string) (now upto hash : string)
    (params : list pyval) (s : store) :
  match exec_insert table columns now upto hash params s with
  | Raises e => from_sqlite e
  | Returns (_, s') =>
      history s' = history s
      /\ exists t bound,
           tables s !! canon table = Some t
           /\ bind_values params = Returns bound
           /\ forall key,
                rows_at key s'
                = if decide (canon table = key)
                  then rows t ++ [Row (max_id (rows t) + 1) (new_cells t columns bound)
                                      now upto 1 hash]
                  else rows_at key s
  end.
Proof.
  unfold exec_insert.
  repeat case_match; simplify_eq; simpl; auto.
  - split; [reflexivity|]. eexists _, _. split; [reflexivity|]. split; [reflexivity|].
    intros key. now rewrite rows_at_insert.
  - match goal with H : bind_values _ = Raises _ |- _ => apply bind_values_raises in H end.
    now subst.
Qed.
(** ** Identifiers are not validated *)

Lemma create_table_sql_interpolates (table key_cols attr_cols : string) :
  exists before after, create_table_sql table key_cols attr_cols = before +:+ table +:+ after.
Proof.
  exists (nl +:+ indent 16 +:+ "CREATE TABLE IF NOT EXISTS "). eexists.
  unfold create_table_sql. rewrite !append_assoc. reflexivity.
Qed.

Lemma ensure_scd2_table_raises_operational (table : string)
    (key_fields attribute_fields : list string) (c : conn) :
  raises_only "OperationalError" (fst (ensure_scd2_table table key_fields attribute_fields c)).
Proof.
  unfold ensure_scd2_table, bind, execute.
  pose proof (exec_create_table_cases table key_fields attribute_fields (data c)) as H1.
  destruct (exec_create_table table key_fields attribute_fields (data c))
    as [[[] s1]|e1]; cbn [data fst]; [|exact H1].
  pose proof (exec_create_key_index_cases table key_fields s1) as H2.
  destruct (exec_create_key_index table key_fields s1) as [[[] s2]|e2];
    cbn [data fst]; [|exact H2].
  pose proof (exec_create_current_index_cases table s2) as H3.
  destruct (exec_create_current_index table s2) as [[[] s3]|e3]; cbn [data fst]; [exact I|].
  exact H3.
Qed.

(** Whatever the names, the CREATE TABLE text is the first statement the
    method hands to SQLite. *)
Lemma ensure_scd2_table_first_statement (table : string)
    (key_fields attribute_fields : list string) (c : conn) :
  exists later,
    executed (snd (ensure_scd2_table table key_fields attribute_fields c))
    = executed c
      ++ create_table_sql table
           (join ", " (map (fun name => name +:+ " TEXT NOT NULL") key_fields))
           (join ", " (map (fun name => name +:+ " TEXT") attribute_fields))
         :: later.
Proof.
  unfold ensure_scd2_table, bind, execute.
  destruct (exec_create_table table key_fields attribute_fields (data c))
    as [[[] s1]|e1]; cbn [executed data fst snd]; [|eexists; reflexivity].
  destruct (exec_create_key_index table key_fields s1) as [[[] s2]|e2];
    cbn [executed data fst snd]; [|rewrite <- app_assoc; eexists; reflexivity].
  destruct (exec_create_current_index table s2) as [[[] s3]|e3];
    cbn [executed data fst snd]; rewrite <- !app_assoc; eexists; reflexivity.
Qed.

(** Claim C3, as stated, fails: a table name with a hyphen is outside the
    grammar, yet the CREATE TABLE text is built with the name in it and handed
    to SQLite, and what is raised is SQLite's [OperationalError]. *)
Lemma ensure_scd2_table_hyphenated_name :
  strict_identifier "my-table" = false
  /\ ensure_scd2_table "my-table" ["k"]%string ["a"]%string connect
     = (Raises OperationalError,
        Conn (data connect) [create_table_sql "my-table" "k TEXT NOT NULL" "a TEXT"])
  /\ exn_class OperationalError <> "SchemaError"%string.
Proof. repeat split. discriminate. Qed.

(** Claim C3, amended. [ensure_scd2_table] checks no name itself: whatever
    the table name and the field names, the first thing it does is to hand
    SQLite the CREATE TABLE text with the names interpolated as given, and
    no exception it raises is a [SchemaError]. When every name is a bare
    identifier, the only exception it lets through is SQLite's
    [OperationalError]. (What SQLite makes of a name that is no bare
    identifier is not part of the statement.) *)
Theorem ensure_scd2_table_no_validation (table : string)
    (key_fields attribute_fields : list string) (c : conn) :
  let key_cols := join ", " (map (fun name => name +:+ " TEXT NOT NULL") key_fields) in
  let attr_cols := join ", " (map (fun name => name +:+ " TEXT") attribute_fields) in
  let result := ensure_scd2_table table key_fields attribute_fields c in
  (exists later,
      executed (snd result)
      = executed c ++ create_table_sql table key_cols attr_cols :: later)
  /\ (exists before after,
         create_table_sql table key_cols attr_cols = before +:+ table +:+ after)
  /\ (forall e, fst result = Raises e -> exn_class e <> "SchemaError"%string)
  /\ (sql_ident table && forallb sql_ident (key_fields ++ attribute_fields) = true ->
      raises_only "OperationalError" (fst result)).
Proof.
  intros key_cols attr_cols result. subst key_cols attr_cols result.
  split; [apply ensure_scd2_table_first_statement|].
  split; [apply create_table_sql_interpolates|].
  split.
  - intros e _. destruct e; discriminate.
  - intros _. apply ensure_scd2_table_raises_operational.
Qed.

Lemma ensure_scd2_table_no_validation_witness :
  exn_class OperationalError <> "SchemaError"%string
  /\ raises_only "OperationalError"
       (fst (ensure_scd2_table "accounts" ["account_id"]%string [] adapter)).
Proof.
  destruct (ensure_scd2_table_no_validation "accounts" ["account_id"]%string [] adapter)
    as (_ & _ & Hclass & Honly).
  split.
  - apply (Hclass OperationalError). reflexivity.
  - apply Honly. reflexivity.
Defined.

(** ** A record without a key field *)

Lemma key_values_of_missing (rec : record) (key_fields : list string) (field : string) :
  field ∈ key_fields -> rec_index rec field = None ->
  exists f, key_values_of rec key_fields = Raises (KeyError f).
Proof.
  induction key_fields as [|k ks IH]; intros Hin Hnone.
  - now apply elem_of_nil in Hin.
  - cbn [key_values_of]. destruct (rec_index rec k) as [v|] eqn:Ek; [|eauto].
    apply elem_of_cons in Hin as [->|Hin]; [congruence|].
    destruct (IH Hin Hnone) as (f & ->). eauto.
Qed.

Lemma key_values_of_raises (rec : record) (key_fields : list string) (e : exn) :
  key_values_of rec key_fields = Raises e ->
  exists f, e = KeyError f /\ f ∈ key_fields /\ rec_index rec f = None.
Proof.
  induction key_fields as [|k ks IH]; cbn [key_values_of]; [discriminate|].
  destruct (rec_index rec k) as [v|] eqn:Ek.
  - destruct (key_values_of rec ks) as [vs|e']; [discriminate|]. intros E. simplify_eq.
    destruct (IH eq_refl) as (f & -> & Hf & Hnone).
    exists f. repeat split; [now apply list_elem_of_further|exact Hnone].
  - intros E. simplify_eq. exists k. repeat split; [apply list_elem_of_here|exact Ek].
Qed.

Lemma execute_raises {A : Type} (sql : string) (run : store -> outcome (A * store))
    (c c' : conn) (e : exn) :
  execute sql run c = (Raises e, c') -> run (data c) = Raises e.
Proof.
  unfold execute. destruct (run (data c)) as [[a s']|e']; intros E; now simplify_eq.
Qed.

Lemma operational_from_sqlite (e : exn) : exn_class e = "OperationalError"%string -> from_sqlite e.
Proof. destruct e; [discriminate|exact (fun _ => I)..]. Qed.

Lemma ensure_scd2_table_raises (table : string) (key_fields attribute_fields : list string)
    (c c' : conn) (e : exn) :
  ensure_scd2_table table key_fields attribute_fields c = (Raises e, c') -> from_sqlite e.
Proof.
  intros E. apply operational_from_sqlite.
  pose proof (ensure_scd2_table_raises_operational table key_fields attribute_fields c) as H.
  rewrite E in H. exact H.
Qed.

(** An exception out of one pass of the loop is the [KeyError] of a key
    field the record lacks, or comes from a statement. *)
Lemma upsert_row_raises (table : string) (key_fields attribute_fields : list string)
    (now : string) (rec : record) (c c' : conn) (e : exn) :
  upsert_row table key_fields attribute_fields now rec c = (Raises e, c') ->
  (exists f, e = KeyError f /\ f ∈ key_fields /\ rec_index rec f = None)
  \/ from_sqlite e.
Proof.
  unfold upsert_row, bind, lift.
  destruct (key_values_of rec key_fields) as [vs|e0] eqn:Ekv.
  2: { intros E. simplify_eq. left. now apply key_values_of_raises. }
  intros E. right.
  destruct (execute (select_current_sql table key_fields) _ c) as [[found|e1] c1] eqn:E1.
  2: { simplify_eq. apply execute_raises in E1.
       pose proof (exec_select_current_cases table key_fields vs (data c)) as H.
       now rewrite E1 in H. }
  destruct (bool_decide _); [discriminate|].
  assert (Hins : forall c2,
            (let (o, c3) := execute (insert_sql table (key_fields ++ attribute_fields))
                              (exec_insert table (key_fields ++ attribute_fields) now sentinel
                                 (_compute_hash rec attribute_fields)
                                 (map (rec_get rec) (key_fields ++ attribute_fields))) c2 in
             match o with
             | Returns _ => ret 1 c3
             | Raises e' => (Raises e', c3)
             end) = (Raises e, c') -> from_sqlite e).
  { intros c2 E'.
    destruct (execute (insert_sql table (key_fields ++ attribute_fields)) _ c2)
      as [[[]|e3] c3] eqn:E3; [discriminate|].
    simplify_eq. apply execute_raises in E3.
    match type of E3 with
    | exec_insert ?t ?cols ?n ?u ?h ?ps ?s = _ =>
        pose proof (exec_insert_cases t cols n u h ps s) as H
    end.
    now rewrite E3 in H. }
  destruct found as [cur|].
  - destruct (execute (close_sql table) _ c1) as [[[]|e2] c2] eqn:E2; [now apply (Hins c2)|].
    simplify_eq. apply execute_raises in E2.
    pose proof (exec_close_cases table now (id cur) (data c1)) as H.
    now rewrite E2 in H.
  - now apply (Hins c1).
Qed.

Lemma upsert_rows_raises (table : string) (key_fields attribute_fields : list string)
    (now : string) (recs : list record) :
  forall (inserted : Z) (c c' : conn) (e : exn),
    upsert_rows table key_fields attribute_fields now recs inserted c = (Raises e, c') ->
    (exists rec f, rec ∈ recs /\ e = KeyError f /\ f ∈ key_fields /\ rec_index rec f = None)
    \/ from_sqlite e.
Proof.
  induction recs as [|rec rest IH]; intros inserted c c' e; cbn [upsert_rows].
  - discriminate.
  - unfold bind at 1.
    destruct (upsert_row table key_fields attribute_fields now rec c) as [[n|e0] c1] eqn:E1.
    + intros E. destruct (IH _ _ _ _ E) as [(r & f & Hr & Hrest)|Hs]; [left|now right].
      exists r, f. split; [now apply list_elem_of_further|exact Hrest].
    + intros E. simplify_eq.
      destruct (upsert_row_raises _ _ _ _ _ _ _ _ E1) as [(f & Hf)|Hs]; [left|now right].
      exists rec, f. split; [apply list_elem_of_here|exact Hf].
Qed.

Lemma upsert_rows_key_error (table : string) (key_fields attribute_fields : list string)
    (now : string) (recs : list record) (rec : record) (field : string) :
  rec ∈ recs -> field ∈ key_fields -> rec_index rec field = None ->
  forall inserted c, exists e c',
    upsert_rows table key_fields attribute_fields now recs inserted c = (Raises e, c').
Proof.
  intros Hrec Hfield Hnone.
  induction recs as [|r rest IH]; intros inserted c.
  - now apply elem_of_nil in Hrec.
  - cbn [upsert_rows]. unfold bind at 1.
    destruct (decide (r = rec)) as [->|Hne].
    + destruct (key_values_of_missing rec key_fields field Hfield Hnone) as (f & E).
      unfold upsert_row, bind, lift. rewrite E. eauto.
    + apply elem_of_cons in Hrec as [->|Hrec]; [congruence|].
      destruct (upsert_row table key_fields attribute_fields now r c) as [[n|e] c1]; [|eauto].
      apply IH, Hrec.
Qed.

Lemma exn_class_not_UpsertError (e : exn) : exn_class e <> "UpsertError"%string.
Proof. destruct e; discriminate. Qed.

(** Claim C2, as stated, fails: on three complete records followed by one
    without the key field the call raises Python's [KeyError]; the adapter
    has no [UpsertError]. The table is left without any row. *)
Lemma upsert_scd2_missing_key_is_KeyError :
  let batch : list record :=
    [ account "A1" "100"; account "A2" "250"; account "A3" "75";
      [("balance", PStr "40")] ]%string in
  let result := upsert_scd2 day1 "accounts" batch ["account_id"]%string None adapter in
  fst result = Raises (KeyError "account_id")
  /\ exn_class (KeyError "account_id") <> "UpsertError"%string
  /\ table_rows "accounts" (data (snd result)) = [].
Proof. vm_compute. repeat split. discriminate. Qed.

(** Claim C2, amended. When some record of the batch lacks a declared key
    field, [upsert_scd2], called with bare names, raises an exception, which
    is never an [UpsertError]: it is the [KeyError] of a key field that a
    record of the batch lacks, unless a statement fails before that record is
    reached. The transaction is rolled back: the history and the rows of
    every table are what they were before the call, the rows written for
    earlier records of the batch included. (A table name that carries SQL is
    put into the CREATE TABLE text as it is, and that statement is not part
    of the transaction.) *)
Theorem upsert_scd2_missing_key_rolls_back (now table : string) (records : list record)
    (key_fields : list string) (attribute_fields : option (list string)) (c : conn)
    (rec : record) (field : string) :
  bare (UpsertScd2 now table records key_fields attribute_fields) ->
  rec ∈ records -> field ∈ key_fields -> rec_index rec field = None ->
  exists e c',
    upsert_scd2 now table records key_fields attribute_fields c = (Raises e, c')
    /\ exn_class e <> "UpsertError"%string
    /\ ((exists rec' f, rec' ∈ records /\ e = KeyError f /\ f ∈ key_fields
                        /\ rec_index rec' f = None)
        \/ from_sqlite e)
    /\ history (data c') = history (data c)
    /\ forall name, table_rows name (data c') = table_rows name (data c).
Proof.
  intros _ Hrec Hfield Hnone.
  unfold upsert_scd2.
  destruct records as [|r0 rest]; [now apply elem_of_nil in Hrec|].
  cbn [is_nil].
  set (attrs := effective_attribute_fields (r0 :: rest) key_fields attribute_fields).
  pose proof (ensure_scd2_table_same_rows table key_fields attrs c) as [Hh Hr].
  unfold bind.
  destruct (ensure_scd2_table table key_fields attrs c) as [[[]|e] c1] eqn:Eens;
    cbn [snd] in Hh, Hr.
  - destruct (upsert_rows_key_error table key_fields attrs now (r0 :: rest) rec field
                Hrec Hfield Hnone 0 c1) as (e & c2 & E).
    unfold transaction. rewrite E.
    exists e, (Conn (data c1) (executed c2)). cbn [data].
    split; [reflexivity|]. split; [apply exn_class_not_UpsertError|].
    split; [exact (upsert_rows_raises _ _ _ _ _ _ _ _ _ E)|].
    split; [exact Hh|]. intros name. apply Hr.
  - exists e, c1. split; [reflexivity|]. split; [apply exn_class_not_UpsertError|].
    split; [right; exact (ensure_scd2_table_raises _ _ _ _ _ _ Eens)|].
    split; [exact Hh|]. intros name. apply Hr.
Qed.

Lemma upsert_scd2_missing_key_rolls_back_witness :
  exists e c',
    upsert_scd2 day1 "accounts" [account "A1" "100"; [("balance", PStr "40")]]%string
      ["account_id"]%string None adapter = (Raises e, c')
    /\ exn_class e <> "UpsertError"%string
    /\ ((exists rec' f, rec' ∈ [account "A1" "100"; [("balance", PStr "40")]]%string
                        /\ e = KeyError f /\ f ∈ ["account_id"]%string
                        /\ rec_index rec' f = None)
        \/ from_sqlite e)
    /\ history (data c') = history (data adapter)
    /\ forall name, table_rows name (data c') = table_rows name (data adapter).
Proof.
  apply (upsert_scd2_missing_key_rolls_back _ _ _ _ _ _
           [("balance", PStr "40")]%string "account_id"%string).
  - exact accounts_bare.
  - apply list_elem_of_further, list_elem_of_here.
  - apply list_elem_of_here.
  - reflexivity.
Defined.

(** ** The history log *)

Lemma insert_desc_perm (e : history_event) (es : list history_event) :
  Permutation (insert_desc e es) (e :: es).
Proof.
  induction es as [|x es IH]; cbn [insert_desc]; [reflexivity|].
  destruct (h_id x <? h_id e); [reflexivity|].
  rewrite IH. apply perm_swap.
Qed.

Lemma insert_desc_sorted (e : history_event) (es : list history_event) :
  newest_first es -> newest_first (insert_desc e es).
Proof.
  unfold newest_first. induction es as [|x es IH]; intros Hs; cbn [insert_desc].
  - repeat constructor.
  - apply StronglySorted_inv in Hs as [Hs Hx].
    destruct (h_id x <? h_id e) eqn:E.
    + apply Z.ltb_lt in E. constructor; [constructor; assumption|].
      constructor; [lia|].
      eapply Forall_impl; [exact Hx|]. cbn. intros y Hy. lia.
    + apply Z.ltb_ge in E. constructor; [apply IH, Hs|].
      rewrite insert_desc_perm. constructor; assumption.
Qed.

Lemma order_by_id_desc_perm (es : list history_event) :
  Permutation (order_by_id_desc es) es.
Proof.
  induction es as [|e es IH]; cbn; [reflexivity|].
  fold (order_by_id_desc es). now rewrite insert_desc_perm, IH.
Qed.

Lemma order_by_id_desc_sorted (es : list history_event) : newest_first (order_by_id_desc es).
Proof.
  induction es as [|e es IH]; cbn; [constructor|].
  apply insert_desc_sorted, IH.
Qed.

Lemma insert_desc_oldest (e : history_event) (es : list history_event) :
  Forall (fun x => h_id e < h_id x) es -> insert_desc e es = es ++ [e].
Proof.
  induction 1 as [|x es Hx _ IH]; [reflexivity|]. cbn [insert_desc app].
  destruct (h_id x <? h_id e) eqn:E; [apply Z.ltb_lt in E; lia|]. now rewrite IH.
Qed.

(** A history in the order of its identifiers is read backwards. *)
Lemma order_by_id_desc_rev (es : list history_event) :
  oldest_first es -> order_by_id_desc es = rev es.
Proof.
  unfold oldest_first. induction 1 as [|e es _ IH He]; [reflexivity|].
  cbn [order_by_id_desc fold_right rev]. fold (order_by_id_desc es). rewrite IH.
  apply insert_desc_oldest. apply Forall_forall. intros x Hx.
  rewrite Forall_forall in He. apply He. apply list_elem_of_In.
  apply list_elem_of_In, in_rev in Hx. exact Hx.
Qed.

Lemma max_h_id_bound (es : list history_event) :
  0 <= max_h_id es /\ Forall (fun e => h_id e <= max_h_id es) es.
Proof.
  induction es as [|e es [IH0 IH]]; [split; [reflexivity|constructor]|].
  cbn [max_h_id fold_right]. fold (max_h_id es). split; [lia|].
  constructor; [lia|]. eapply Forall_impl; [exact IH|]. cbn. intros x Hx. lia.
Qed.

Lemma oldest_first_snoc (es : list history_event) (e : history_event) :
  oldest_first es -> h_id e = max_h_id es + 1 -> oldest_first (es ++ [e]).
Proof.
  unfold oldest_first. intros Hs He.
  assert (Hlt : Forall (fun x => h_id x < h_id e) es).
  { destruct (max_h_id_bound es) as [_ Hmax].
    eapply Forall_impl; [exact Hmax|]. cbn. intros x Hx. lia. }
  clear He. induction Hs as [|x es Hs IH Hx]; cbn [app]; [repeat constructor|].
  apply Forall_cons in Hlt as [Hxe Hlt]. constructor; [now apply IH|].
  apply Forall_app. split; [exact Hx|]. repeat constructor. exact Hxe.
Qed.

(** The adapter keeps the history in the order of its identifiers. *)
Lemma log_history_oldest_first (now job event stat : string)
    (started ended : option string) (duration count : option Z) (det : details_arg)
    (c : conn) :
  oldest_first (history (data c)) ->
  oldest_first
    (history (data (snd (log_history now job event stat started ended duration count det c)))).
Proof.
  intros Hs. unfold log_history, transaction, execute, exec_insert_history.
  destruct (bind_values _); cbn [snd data history]; [|exact Hs].
  now apply oldest_first_snoc.
Qed.

(** Claim C9, as stated, fails: with a negative limit SQLite puts no bound on
    the result, so [fetch_history(-1)] after two logged events returns both. *)
Lemma fetch_history_negative_limit :
  exists events,
    fst (fetch_history (-1) two_events) = Returns events
    /\ length events = 2%nat
    /\ ~ (Z.of_nat (length events) <= -1).
Proof.
  eexists. split; [vm_compute; reflexivity|].
  split; [reflexivity|]. cbn [length]. lia.
Qed.

(** A limit that does not fit 64 bits cannot be bound: the call raises. *)
Lemma fetch_history_limit_too_large :
  fst (fetch_history (2 ^ 63) two_events) = Raises OverflowError.
Proof. reflexivity. Qed.

(** Claim C9, amended. The limit is bound as it is given, and the database
    is unchanged whatever it is. For a limit from 0 up to the largest integer
    SQLite binds, [fetch_history] returns the first [limit] events of the
    history put most recent first by identifier (all of them when there are
    fewer), so none of the events left out has a larger identifier than a
    returned one; when the history is in the order in which [log_history]
    wrote it, these are its last [limit] events, the last one first. For a
    negative limit down to the smallest integer SQLite binds it returns the
    whole history, most recent first. For a limit that does not fit 64 bits
    it raises [OverflowError]. *)
Theorem fetch_history_most_recent_first (limit : Z) (c : conn) :
  (0 <= limit < 2 ^ 63 ->
   exists events older c',
     fetch_history limit c = (Returns events, c')
     /\ data c' = data c
     /\ Z.of_nat (length events) = Z.min limit (Z.of_nat (length (history (data c))))
     /\ newest_first (events ++ older)
     /\ Permutation (events ++ older) (history (data c))
     /\ (oldest_first (history (data c)) ->
         events = firstn (Z.to_nat limit) (rev (history (data c)))))
  /\ (- 2 ^ 63 <= limit < 0 ->
      exists events c',
        fetch_history limit c = (Returns events, c')
        /\ data c' = data c
        /\ newest_first events
        /\ Permutation events (history (data c))
        /\ (oldest_first (history (data c)) -> events = rev (history (data c))))
  /\ (~ (- 2 ^ 63 <= limit < 2 ^ 63) ->
      exists c', fetch_history limit c = (Raises OverflowError, c') /\ data c' = data c).
Proof.
  split; [|split].
  - intros Hlimit.
    exists (firstn (Z.to_nat limit) (order_by_id_desc (history (data c)))),
           (skipn (Z.to_nat limit) (order_by_id_desc (history (data c)))),
           (Conn (data c) (executed c ++ [fetch_history_sql])).
    split.
    { unfold fetch_history, transaction, execute, exec_fetch_history. cbn [bind_value].
      destruct (decide (- 2 ^ 63 <= limit < 2 ^ 63)) as [_|Hout]; [|lia].
      destruct (limit <? 0) eqn:E; [apply Z.ltb_lt in E; lia|]. reflexivity. }
    split; [reflexivity|]. split.
    { rewrite length_take, (Permutation_length (order_by_id_desc_perm _)). lia. }
    split; [rewrite take_drop; apply order_by_id_desc_sorted|].
    split; [rewrite take_drop; apply order_by_id_desc_perm|].
    intros Hs. now rewrite order_by_id_desc_rev.
  - intros Hlimit.
    exists (order_by_id_desc (history (data c))),
           (Conn (data c) (executed c ++ [fetch_history_sql])).
    split.
    { unfold fetch_history, transaction, execute, exec_fetch_history. cbn [bind_value].
      destruct (decide (- 2 ^ 63 <= limit < 2 ^ 63)) as [_|Hout]; [|lia].
      destruct (limit <? 0) eqn:E; [reflexivity|apply Z.ltb_ge in E; lia]. }
    split; [reflexivity|].
    split; [apply order_by_id_desc_sorted|].
    split; [apply order_by_id_desc_perm|].
    intros Hs. now rewrite order_by_id_desc_rev.
  - intros Hlimit.
    exists (Conn (data c) (executed c ++ [fetch_history_sql])).
    split; [|reflexivity].
    unfold fetch_history, transaction, execute, exec_fetch_history. cbn [bind_value].
    destruct (decide (- 2 ^ 63 <= limit < 2 ^ 63)) as [Hin|_]; [contradiction|].
    reflexivity.
Qed.

Lemma fetch_history_most_recent_first_witness :
  (exists events older c',
     fetch_history 1 two_events = (Returns events, c')
     /\ data c' = data two_events
     /\ Z.of_nat (length events) = Z.min 1 (Z.of_nat (length (history (data two_events))))
     /\ newest_first (events ++ older)
     /\ Permutation (events ++ older) (history (data two_events))
     /\ (oldest_first (history (data two_events)) ->
         events = firstn (Z.to_nat 1) (rev (history (data two_events)))))
  /\ (exists events c',
        fetch_history (-1) two_events = (Returns events, c')
        /\ data c' = data two_events
        /\ newest_first events
        /\ Permutation events (history (data two_events))
        /\ (oldest_first (history (data two_events)) ->
            events = rev (history (data two_events))))
  /\ (exists c',
        fetch_history (2 ^ 63) two_events = (Raises OverflowError, c')
        /\ data c' = data two_events).
Proof.
  split; [|split].
  - apply (fetch_history_most_recent_first 1 two_events). lia.
  - apply (fetch_history_most_recent_first (-1) two_events). lia.
  - apply (fetch_history_most_recent_first (2 ^ 63) two_events). lia.
Defined.

(** ** Nothing is deleted *)

Lemma exec_close_no_row_deleted (table now : string) (target : Z) (s s' : store) (u : unit) :
  exec_close table now target s = Returns (u, s') -> no_row_deleted s s'.
Proof.
  intros E. pose proof (exec_close_cases table now target s) as H.
  rewrite E in H. destruct H as [Hh Hr].
  split; [exists []; now rewrite app_nil_r|].
  intros key. rewrite Hr. exists (map (closed_in table now target key) (rows_at key s)), [].
  split; [now rewrite app_nil_r|].
  induction (rows_at key s) as [|r rs IH]; cbn [map]; constructor; [|exact IH].
  unfold closed_in. destruct (decide _); repeat split.
Qed.

Lemma exec_insert_no_row_deleted (table : string) (columns : list string)
    (now upto hash : string) (params : list pyval) (s s' : store) (u : unit) :
  exec_insert table columns now upto hash params s = Returns (u, s') -> no_row_deleted s s'.
Proof.
  intros E. pose proof (exec_insert_cases table columns now upto hash params s) as H.
  rewrite E in H. destruct H as (Hh & t & bound & Ht & _ & Hr).
  split; [exists []; now rewrite app_nil_r|].
  intros key. rewrite Hr. destruct (decide (canon table = key)) as [<-|Hne].
  - unfold rows_at. rewrite Ht. cbn. eexists _, _. split; [reflexivity|].
    apply Forall2_same_version_refl.
  - apply rows_extended_refl.
Qed.

Lemma upsert_row_no_row_deleted (table : string) (key_fields attribute_fields : list string)
    (now : string) (rec : record) :
  keeps no_row_deleted (upsert_row table key_fields attribute_fields now rec).
Proof.
  unfold upsert_row.
  apply keeps_bind; [exact no_row_deleted_trans| |intros key_values].
  { apply keeps_lift, no_row_deleted_refl. }
  apply keeps_bind; [exact no_row_deleted_trans| |intros current].
  { apply keeps_execute; [exact no_row_deleted_refl|]. intros s found s' E.
    pose proof (exec_select_current_cases table key_fields key_values s) as H.
    rewrite E in H. destruct H as [-> _]. apply no_row_deleted_refl. }
  destruct (bool_decide _); [apply keeps_ret, no_row_deleted_refl|].
  apply keeps_bind; [exact no_row_deleted_trans| |intros _].
  { destruct current as [cur|]; [|apply keeps_ret, no_row_deleted_refl].
    apply keeps_execute; [exact no_row_deleted_refl|]. intros s u s'.
    apply exec_close_no_row_deleted. }
  apply keeps_bind; [exact no_row_deleted_trans| |intros _].
  { apply keeps_execute; [exact no_row_deleted_refl|]. intros s u s'.
    apply exec_insert_no_row_deleted. }
  apply keeps_ret, no_row_deleted_refl.
Qed.

(** A relation that every pass of the loop keeps is kept by the loop, and by
    the whole call if creating the table keeps it too. *)
Lemma upsert_rows_keeps (R : store -> store -> Prop) (table : string)
    (key_fields attribute_fields : list string) (now : string) :
  (forall s, R s s) -> (forall s1 s2 s3, R s1 s2 -> R s2 s3 -> R s1 s3) ->
  (forall rec, keeps R (upsert_row table key_fields attribute_fields now rec)) ->
  forall recs inserted,
    keeps R (upsert_rows table key_fields attribute_fields now recs inserted).
Proof.
  intros Hrefl Htrans Hrow recs.
  induction recs as [|rec rest IH]; intros inserted; cbn [upsert_rows].
  - apply keeps_ret, Hrefl.
  - apply keeps_bind; [exact Htrans|apply Hrow|]. intros n. apply IH.
Qed.

Lemma upsert_scd2_keeps (R : store -> store -> Prop) (now table : string)
    (records : list record) (key_fields : list string)
    (attribute_fields : option (list string)) :
  (forall s, R s s) -> (forall s1 s2 s3, R s1 s2 -> R s2 s3 -> R s1 s3) ->
  (forall s s', same_rows s s' -> R s s') ->
  (forall attrs rec, keeps R (upsert_row table key_fields attrs now rec)) ->
  keeps R (upsert_scd2 now table records key_fields attribute_fields).
Proof.
  intros Hrefl Htrans Hsame Hrow. unfold upsert_scd2.
  destruct (is_nil records); [apply keeps_ret, Hrefl|].
  apply keeps_bind; [exact Htrans| |intros _].
  - intros c. apply Hsame, ensure_scd2_table_same_rows.
  - apply keeps_transaction; [exact Hrefl|].
    apply upsert_rows_keeps; [exact Hrefl|exact Htrans|apply Hrow].
Qed.

Lemma log_history_no_row_deleted (now job event stat : string)
    (started ended : option string) (duration count : option Z) (det : details_arg) :
  keeps no_row_deleted (log_history now job event stat started ended duration count det).
Proof.
  unfold log_history. apply keeps_transaction; [exact no_row_deleted_refl|].
  apply keeps_execute; [exact no_row_deleted_refl|].
  intros s a s' E. unfold exec_insert_history in E.
  destruct (bind_values _); [|discriminate]. simplify_eq.
  split; [eexists; reflexivity|]. intros key. apply rows_extended_refl.
Qed.

Lemma fetch_history_same_data (limit : Z) (c : conn) :
  data (snd (fetch_history limit c)) = data c.
Proof.
  unfold fetch_history, transaction, execute, exec_fetch_history.
  destruct (bind_value (PInt limit)); reflexivity.
Qed.

Lemma perform_no_row_deleted (c : conn) (op : operation) :
  no_row_deleted (data c) (data (perform c op)).
Proof.
  destruct op; cbn [perform].
  - apply no_row_deleted_refl.
  - apply log_history_no_row_deleted.
  - rewrite fetch_history_same_data. apply no_row_deleted_refl.
  - apply same_rows_no_row_deleted, ensure_scd2_table_same_rows.
  - apply upsert_scd2_keeps;
      [exact no_row_deleted_refl|exact no_row_deleted_trans
      |exact same_rows_no_row_deleted|].
    intros attrs rec. apply upsert_row_no_row_deleted.
Qed.

Lemma perform_all_no_row_deleted (ops : list operation) (c : conn) :
  no_row_deleted (data c) (data (fold_left perform ops c)).
Proof.
  revert c. induction ops as [|op ops IH]; intros c; cbn [fold_left].
  - apply no_row_deleted_refl.
  - eapply no_row_deleted_trans; [apply perform_no_row_deleted|apply IH].
Qed.

(** ** Reading the key of a record *)

Lemma key_values_of_returns (rec : record) (key_fields : list string) (vs : list pyval) :
  key_values_of rec key_fields = Returns vs -> vs = map (rec_get rec) key_fields.
Proof.
  revert vs. induction key_fields as [|k ks IH]; intros vs E; cbn [key_values_of] in E.
  - now simplify_eq.
  - cbn [map]. unfold rec_get at 1. unfold rec_index in E.
    destruct (assoc k rec) as [v|]; [|discriminate].
    destruct (key_values_of rec ks) as [vs'|]; [|discriminate].
    simplify_eq. cbn. f_equal. now apply IH.
Qed.

Lemma bind_values_app (l1 l2 : list pyval) (bound : list sqlval) :
  bind_values (l1 ++ l2) = Returns bound ->
  exists b1 b2, bound = b1 ++ b2 /\ bind_values l1 = Returns b1
                /\ bind_values l2 = Returns b2.
Proof.
  revert bound. induction l1 as [|v l1 IH]; intros bound E.
  - exists [], bound. auto.
  - cbn [app bind_values] in *. destruct (bind_value v) as [b|]; [|discriminate].
    destruct (bind_values (l1 ++ l2)) as [bs|]; [|discriminate]. simplify_eq.
    destruct (IH bs eq_refl) as (b1 & b2 & -> & -> & E2).
    exists (b :: b1), b2. auto.
Qed.

Lemma bind_values_length (l : list pyval) (bound : list sqlval) :
  bind_values l = Returns bound -> length bound = length l.
Proof.
  revert bound. induction l as [|v l IH]; intros bound E; cbn [bind_values] in E.
  - now simplify_eq.
  - destruct (bind_value v) as [b|]; [|discriminate].
    destruct (bind_values l) as [bs|]; [|discriminate]. simplify_eq.
    cbn. f_equal. now apply IH.
Qed.

(** ** Matching rows *)

(** Two parameter tuples that match one common row match the same rows. *)
Lemma row_matches_agree (key_fields : list string) (q1 q2 : list sqlval) (r : row) :
  row_matches key_fields q1 r = true -> row_matches key_fields q2 r = true ->
  forall r', row_matches key_fields q1 r' = row_matches key_fields q2 r'.
Proof.
  revert q1 q2. induction key_fields as [|k ks IH]; intros q1 q2 H1 H2 r'; [reflexivity|].
  destruct q1 as [|a q1], q2 as [|b q2]; cbn [row_matches] in *; try discriminate.
  destruct (assoc (canon k) (cells r)) as [[stored|]|]; try discriminate.
  destruct (to_text a) as [ta|]; [|discriminate].
  destruct (to_text b) as [tb|]; [|discriminate].
  apply andb_true_iff in H1 as [E1 H1], H2 as [E2 H2].
  apply bool_decide_eq_true in E1, E2. subst ta tb.
  rewrite (IH q1 q2 H1 H2 r'). reflexivity.
Qed.

(** If every non-NULL key cell of [r] holds the text of the corresponding
    parameter of [own], then [r] matches [own] as soon as it matches any
    tuple. *)
Lemma row_matches_own (key_fields : list string) (own q : list sqlval) (r : row) :
  Forall2 (fun k p => forall stored, assoc (canon k) (cells r) = Some (Some stored) ->
                                     to_text p = Some stored) key_fields own ->
  row_matches key_fields q r = true -> row_matches key_fields own r = true.
Proof.
  intros Hown. revert q. induction Hown as [|k p ks ps Hk _ IH]; intros q Hq; [reflexivity|].
  destruct q as [|a q]; cbn [row_matches] in *; [discriminate|].
  destruct (assoc (canon k) (cells r)) as [[stored|]|]; try discriminate.
  rewrite (Hk stored eq_refl).
  destruct (to_text a) as [ta|]; [|discriminate].
  apply andb_true_iff in Hq as [_ Hq].
  rewrite (IH q Hq), andb_true_r. now apply bool_decide_eq_true.
Qed.

Lemma assoc_combine_skip {A : Type} (k : string) (pre : list string) (pre_v : list A)
    (l : list string) (vs : list A) :
  length pre = length pre_v -> k ∉ pre ->
  assoc k (combine (pre ++ l) (pre_v ++ vs)) = assoc k (combine l vs).
Proof.
  revert pre_v. induction pre as [|x pre IH]; intros [|v pre_v] Hlen Hk; try discriminate.
  - reflexivity.
  - cbn. apply not_elem_of_cons in Hk as [Hne Hk].
    destruct (decide (x = k)) as [->|_]; [congruence|].
    apply IH; [now inversion Hlen|exact Hk].
Qed.

(** In the list of the values given by an INSERT, a key column that occurs
    once among the key fields holds the value of its own parameter. *)
Lemma assoc_given_keys {A : Type} (keys : list string) (vals : list A)
    (pre more : list string) (pre_v more_v : list A) :
  NoDup keys -> length keys = length vals -> length pre = length pre_v ->
  (forall k, k ∈ keys -> k ∉ pre) ->
  Forall2 (fun k v => assoc k (combine (pre ++ keys ++ more) (pre_v ++ vals ++ more_v))
                      = Some v) keys vals.
Proof.
  revert vals pre pre_v. induction keys as [|k keys IH];
    intros [|v vals] pre pre_v Hnd Hlen Hpre Hfresh; try discriminate; constructor.
  - rewrite assoc_combine_skip; [|exact Hpre|apply Hfresh, list_elem_of_here].
    cbn. now rewrite decide_True.
  - apply NoDup_cons in Hnd as [Hk Hnd].
    specialize (IH vals (pre ++ [k]) (pre_v ++ [v]) Hnd).
    rewrite <- !app_assoc in IH. cbn [app] in IH. apply IH.
    + now inversion Hlen.
    + rewrite !length_app. cbn. lia.
    + intros k' Hk' [Hin|Hin%list_elem_of_singleton]%elem_of_app.
      * eapply Hfresh; [apply list_elem_of_further, Hk'|exact Hin].
      * congruence.
Qed.

Lemma assoc_tabulate {A : Type} (f : string -> A) (cols : list string) (c : string) (v : A) :
  assoc c (map (fun c' => (c', f c')) cols) = Some v -> v = f c.
Proof.
  induction cols as [|x cols IH]; cbn; [discriminate|].
  destruct (decide (x = c)) as [->|_]; [congruence|exact IH].
Qed.

Lemma Forall2_map_both {A B A' B' : Type} (P : A' -> B' -> Prop) (f : A -> A') (g : B -> B')
    (l : list A) (k : list B) :
  Forall2 P (map f l) (map g k) -> Forall2 (fun x y => P (f x) (g y)) l k.
Proof.
  revert k. induction l as [|x l IH]; intros [|y k] H; inversion H; subst; constructor.
  - assumption.
  - now apply IH.
Qed.

(** A row made by an INSERT that lists the key fields first matches its own
    key parameters whenever it matches any tuple. *)
Lemma new_row_matches_own (t : entity_table) (key_fields more : list string)
    (own rest q : list sqlval) (r : row) :
  NoDup (map canon key_fields) -> length own = length key_fields ->
  cells r = new_cells t (key_fields ++ more) (own ++ rest) ->
  row_matches key_fields q r = true -> row_matches key_fields own r = true.
Proof.
  intros Hnd Hlen Hcells. apply row_matches_own.
  pose proof (assoc_given_keys (map canon key_fields) (map to_text own) [] (map canon more)
                [] (map to_text rest) Hnd) as Hgiven.
  rewrite !length_map in Hgiven. specialize (Hgiven (eq_sym Hlen) eq_refl).
  cbn [app] in Hgiven. rewrite <- !map_app in Hgiven.
  specialize (Hgiven (fun k _ Hin => proj1 (elem_of_nil k) Hin)).
  apply Forall2_map_both in Hgiven.
  eapply Forall2_impl; [exact Hgiven|]. cbn. intros k p Hk stored Hstored.
  rewrite Hcells in Hstored. unfold new_cells in Hstored.
  apply assoc_tabulate in Hstored. rewrite Hk in Hstored. cbn in Hstored. congruence.
Qed.

(** ** One current version per key *)

Lemma others_untouched_refl (table : string) (s : store) : others_untouched table s s.
Proof. split; reflexivity. Qed.

Lemma others_untouched_trans (table : string) (s1 s2 s3 : store) :
  others_untouched table s1 s2 -> others_untouched table s2 s3 ->
  others_untouched table s1 s3.
Proof.
  intros [H1 R1] [H2 R2]. split; [congruence|].
  intros k Hk. now rewrite R2, R1.
Qed.

Lemma latest_nil_inv (rs : list row) : latest rs = None -> rs = [].
Proof.
  destruct rs as [|r rs]; [reflexivity|]. cbn [latest].
  destruct (latest rs); [destruct (id r <? id r0)|]; discriminate.
Qed.

Lemma latest_single_inv (rs : list row) (x : row) :
  (length rs <= 1)%nat -> latest rs = Some x -> rs = [x].
Proof.
  destruct rs as [|r [|r' rs]]; cbn [length]; intros Hlen E; [discriminate| |lia].
  cbn in E. congruence.
Qed.

Lemma filter_none {A : Type} (f : A -> bool) (l : list A) :
  (forall x, In x l -> f x = false) -> List.filter f l = [].
Proof.
  induction l as [|x l IH]; intros H; [reflexivity|]. cbn.
  rewrite (H x (or_introl eq_refl)). apply IH. intros y Hy. apply H. now right.
Qed.

Lemma current_rows_ext (key_fields : list string) (q1 q2 : list sqlval) (rs : list row) :
  (forall r, row_matches key_fields q1 r = row_matches key_fields q2 r) ->
  current_rows key_fields q1 rs = current_rows key_fields q2 rs.
Proof. intros H. apply filter_ext. intros r. now rewrite H. Qed.

Lemma current_rows_snoc (key_fields : list string) (q : list sqlval) (rs : list row)
    (r : row) :
  current_rows key_fields q (rs ++ [r])
  = current_rows key_fields q rs
    ++ (if row_matches key_fields q r && (is_current r =? 1) then [r] else []).
Proof. unfold current_rows. rewrite List.filter_app. reflexivity. Qed.

(** Closing rows never adds a current row. *)
Lemma current_rows_closed_le (key_fields : list string) (q : list sqlval)
    (f : row -> row) (rs : list row) :
  (forall r, f r = r \/ is_current (f r) = 0) ->
  (length (current_rows key_fields q (map f rs)) <= length (current_rows key_fields q rs))%nat.
Proof.
  intros Hf. induction rs as [|r rs IH]; [reflexivity|].
  unfold current_rows in *. cbn [map List.filter].
  destruct (Hf r) as [->|E].
  - destruct (_ && _); cbn [length]; lia.
  - rewrite E, andb_false_r. destruct (_ && _); cbn [length]; lia.
Qed.

(** Closing the only current row of a key leaves the key without one. *)
Lemma current_rows_closed_nil (key_fields : list string) (q : list sqlval)
    (f : row -> row) (rs : list row) (x : row) :
  current_rows key_fields q rs = [x] ->
  (forall r, (f r = r /\ id r <> id x) \/ is_current (f r) = 0) ->
  current_rows key_fields q (map f rs) = [].
Proof.
  intros Hx Hf. unfold current_rows. apply filter_none.
  intros r' [r [<- Hr]]%in_map_iff.
  destruct (Hf r) as [[-> Hid]|E]; [|now rewrite E, andb_false_r].
  destruct (row_matches key_fields q r && (is_current r =? 1)) eqn:Et; [|reflexivity].
  assert (Hin : In r (current_rows key_fields q rs)) by (apply filter_In; auto).
  rewrite Hx in Hin. destruct Hin as [->|[]]. congruence.
Qed.

Lemma closed_in_cases (table now : string) (target : Z) (r : row) :
  (closed_in table now target (canon table) r = r /\ id r <> target)
  \/ is_current (closed_in table now target (canon table) r) = 0.
Proof.
  unfold closed_in. destruct (decide _) as [[_ E]|Hn]; [now right|].
  left. split; [reflexivity|]. intros E. apply Hn. now split.
Qed.

Section OneRecord.
Context (table : string) (key_fields attribute_fields : list string) (now : string)
  (rec : record) (key : list sqlval).
Hypothesis keys_distinct : NoDup (map canon key_fields).

(** The INSERT of [upsert_row], once the key has no current row left. *)
Lemma insert_single_current (own : list sqlval) (upto hash : string) (s1 s2 : store)
    (u : unit) :
  bind_values (map (rec_get rec) key_fields) = Returns own ->
  single_current key_fields key (table_rows table s1) ->
  ((forall r, row_matches key_fields key r = row_matches key_fields own r) ->
   current_rows key_fields own (table_rows table s1) = []) ->
  exec_insert table (key_fields ++ attribute_fields) now upto hash
    (map (rec_get rec) (key_fields ++ attribute_fields)) s1
  = Returns (u, s2) ->
  single_current key_fields key (table_rows table s2).
Proof.
  intros Eown Hinv Hgone E.
  pose proof (exec_insert_cases table (key_fields ++ attribute_fields) now upto hash
                (map (rec_get rec) (key_fields ++ attribute_fields)) s1) as H.
  rewrite E in H. destruct H as (_ & t & bound & Ht & Ebound & Hr).
  rewrite map_app in Ebound.
  apply bind_values_app in Ebound as (own' & rest & -> & Eown' & _).
  rewrite Eown in Eown'. simplify_eq.
  assert (Hlen : length own' = length key_fields).
  { rewrite (bind_values_length _ _ Eown). apply length_map. }
  unfold single_current, table_rows in *. rewrite Hr, decide_True by reflexivity.
  assert (Hrows : rows_at (canon table) s1 = rows t) by (unfold rows_at; now rewrite Ht).
  rewrite Hrows in *. rewrite current_rows_snoc, length_app.
  destruct (row_matches key_fields key _ && _) eqn:Enew; cbn [length]; [|lia].
  apply andb_true_iff in Enew as [Enew _].
  match type of Enew with
  | row_matches _ _ ?r = true =>
      assert (Hown : row_matches key_fields own' r = true)
        by (eapply new_row_matches_own;
            [exact keys_distinct|exact Hlen|reflexivity|exact Enew])
  end.
  pose proof (row_matches_agree key_fields key own' _ Enew Hown) as Hagree.
  rewrite (current_rows_ext key_fields key own' (rows t) Hagree).
  rewrite (Hgone Hagree). cbn. lia.
Qed.

Lemma upsert_row_single_current :
  keeps (fun s s' => single_current key_fields key (table_rows table s) ->
                     single_current key_fields key (table_rows table s'))
        (upsert_row table key_fields attribute_fields now rec).
Proof.
  intros c Hinv. unfold upsert_row, bind, lift.
  destruct (key_values_of rec key_fields) as [vs|e] eqn:Ekv; [|exact Hinv].
  apply key_values_of_returns in Ekv. subst vs.
  unfold execute at 1.
  pose proof (exec_select_current_cases table key_fields (map (rec_get rec) key_fields)
                (data c)) as Hsel.
  destruct (exec_select_current table key_fields _ (data c)) as [[found s]|e];
    [|exact Hinv].
  destruct Hsel as [-> (own & Eown & ->)].
  destruct (bool_decide _); [exact Hinv|].
  (* the state after the UPDATE, if there is one *)
  set (c0 := Conn (data c) (executed c ++ [select_current_sql table key_fields])).
  set (closed := match latest (current_rows key_fields own (table_rows table (data c))) with
                 | Some cur => execute (close_sql table) (exec_close table now (id cur))
                 | None => ret tt
                 end c0).
  assert (Hclose :
    single_current key_fields key (table_rows table (data (snd closed)))
    /\ ((forall r, row_matches key_fields key r = row_matches key_fields own r) ->
        fst closed = Returns tt ->
        current_rows key_fields own (table_rows table (data (snd closed))) = [])).
  { subst closed c0. destruct (latest _) as [cur|] eqn:Efound.
    - unfold execute. cbn [data].
      pose proof (exec_close_cases table now (id cur) (data c)) as Hc.
      destruct (exec_close table now (id cur) (data c)) as [[[] s1]|e]; cbn [fst snd data].
      + destruct Hc as [_ Hr]. unfold table_rows in *. rewrite Hr. split.
        * unfold single_current in *.
          etransitivity; [apply current_rows_closed_le|exact Hinv].
          intros r. destruct (closed_in_cases table now (id cur) r) as [[-> _]|E]; auto.
        * intros Hagree _.
          apply (current_rows_closed_nil _ _ _ _ cur); [|apply closed_in_cases].
          apply latest_single_inv; [|exact Efound].
          rewrite <- (current_rows_ext key_fields key own _ Hagree). exact Hinv.
      + split; [exact Hinv|discriminate].
    - cbn [ret fst snd data]. split; [exact Hinv|].
      intros _ _. now apply latest_nil_inv. }
  clearbody closed. destruct closed as [[[]|e] c1];
    cbn [fst snd] in Hclose; destruct Hclose as [Hinv1 Hgone]; [|exact Hinv1].
  unfold execute.
  destruct (exec_insert _ _ _ _ _ _ _) as [[[] s2]|e] eqn:Eins; [|exact Hinv1].
  cbn [snd data ret].
  eapply insert_single_current; [exact Eown|exact Hinv1| |exact Eins].
  intros Hagree. now apply Hgone.
Qed.

(** One pass of the loop writes to no other table and not to the history. *)
Lemma upsert_row_others_untouched :
  keeps (others_untouched table) (upsert_row table key_fields attribute_fields now rec).
Proof.
  unfold upsert_row.
  apply keeps_bind; [exact (others_untouched_trans table)| |intros key_values].
  { apply keeps_lift, others_untouched_refl. }
  apply keeps_bind; [exact (others_untouched_trans table)| |intros current].
  { apply keeps_execute; [exact (others_untouched_refl table)|]. intros s found s' E.
    pose proof (exec_select_current_cases table key_fields key_values s) as H.
    rewrite E in H. destruct H as [-> _]. apply others_untouched_refl. }
  destruct (bool_decide _); [apply keeps_ret, others_untouched_refl|].
  apply keeps_bind; [exact (others_untouched_trans table)| |intros _].
  { destruct current as [cur|]; [|apply keeps_ret, others_untouched_refl].
    apply keeps_execute; [exact (others_untouched_refl table)|]. intros s u s' E.
    pose proof (exec_close_cases table now (id cur) s) as H. rewrite E in H.
    destruct H as [Hh Hr]. split; [exact Hh|]. intros k Hk. rewrite Hr.
    rewrite <- (map_id (rows_at k s)) at 2. apply map_ext. intros r.
    unfold closed_in. destruct (decide _) as [[-> _]|_]; [congruence|reflexivity]. }
  apply keeps_bind; [exact (others_untouched_trans table)| |intros _].
  { apply keeps_execute; [exact (others_untouched_refl table)|]. intros s u s' E.
    match type of E with
    | exec_insert ?t ?cols ?n ?up ?h ?ps ?s0 = _ =>
        pose proof (exec_insert_cases t cols n up h ps s0) as H
    end.
    rewrite E in H. destruct H as (Hh & t & bound & _ & _ & Hr).
    split; [exact Hh|]. intros k Hk. rewrite Hr.
    destruct (decide (canon table = k)); [congruence|reflexivity]. }
  apply keeps_ret, others_untouched_refl.
Qed.
End OneRecord.

(** Every call leaves the history in the order of its identifiers, so the
    history of an adapter is always in that order. *)
Lemma perform_oldest_first (c : conn) (op : operation) :
  oldest_first (history (data c)) -> oldest_first (history (data (perform c op))).
Proof.
  destruct op; cbn [perform]; intros Hs.
  - exact Hs.
  - now apply log_history_oldest_first.
  - now rewrite fetch_history_same_data.
  - now rewrite (proj1 (ensure_scd2_table_same_rows _ _ _ c)).
  - assert (H : others_untouched table (data c)
                  (data (snd (upsert_scd2 now table records key_fields attribute_fields c)))).
    { apply (upsert_scd2_keeps (others_untouched table)).
      - apply others_untouched_refl.
      - apply others_untouched_trans.
      - intros s s' [Hh Hr]. split; [exact Hh|]. intros k _. apply Hr.
      - intros attrs rec. apply upsert_row_others_untouched. }
    now rewrite (proj1 H).
Qed.

Lemma adapter_oldest_first (ops : list operation) :
  oldest_first (history (data (fold_left perform ops adapter))).
Proof.
  assert (H : forall c, oldest_first (history (data c)) ->
                        oldest_first (history (data (fold_left perform ops c)))).
  { induction ops as [|op ops IH]; intros c Hs; [exact Hs|].
    cbn [fold_left]. apply IH, perform_oldest_first, Hs. }
  apply H. constructor.
Qed.

(** Claim C1, as stated, fails: SQLite compares column names without regard
    to case, so the key fields [account_id] and [Account_id] are one column
    of the table. The lookup for a record that gives them different values
    finds no row, and the INSERT names the column twice and stores the first
    value: the key tuple [(A1, A1)] had one current row before the call and
    has two after it. *)
Lemma upsert_scd2_two_names_one_column :
  let key_fields := ["account_id"; "Account_id"]%string in
  let key := [SqlText "A1"; SqlText "A1"] in
  let call :=
    upsert_scd2 day2 "accounts"
      [[("account_id", PStr "A1"); ("Account_id", PStr "B"); ("balance", PStr "200")]%string]
      key_fields None accounts_day1 in
  single_current key_fields key (table_rows "accounts" (data accounts_day1))
  /\ fst call = Returns 1
  /\ length (current_rows key_fields key (table_rows "accounts" (data (snd call)))) = 2%nat
  /\ ~ single_current key_fields key (table_rows "accounts" (data (snd call))).
Proof.
  cbv zeta. unfold single_current.
  split; [vm_compute; lia|]. split; [vm_compute; reflexivity|].
  split; [vm_compute; reflexivity|]. vm_compute. lia.
Qed.

(** Claim C1, amended. On an adapter in use, [upsert_scd2] called with bare
    names and with key fields that are distinct columns keeps the
    single-current invariant: for every tuple of key values, if at most one
    row of the table is current for it before the call, at most one is after
    it, whatever the batch holds and whether the call returns or raises; and
    the call changes no row of any other table. *)
Theorem upsert_scd2_single_current (now table : string) (records : list record)
    (key_fields : list string) (attribute_fields : option (list string))
    (key : list sqlval) (c : conn) :
  in_use c ->
  bare (UpsertScd2 now table records key_fields attribute_fields) ->
  NoDup (map canon key_fields) ->
  single_current key_fields key (table_rows table (data c)) ->
  let c' := snd (upsert_scd2 now table records key_fields attribute_fields c) in
  single_current key_fields key (table_rows table (data c'))
  /\ forall other, canon other <> canon table ->
                   table_rows other (data c') = table_rows other (data c).
Proof.
  intros _ _ Hnd Hinv c'. subst c'. split.
  - revert Hinv.
    apply (upsert_scd2_keeps
             (fun s s' => single_current key_fields key (table_rows table s) ->
                          single_current key_fields key (table_rows table s'))).
    + auto.
    + auto.
    + intros s s' [_ Hr] H. unfold table_rows. now rewrite Hr.
    + intros attrs rec. now apply upsert_row_single_current.
  - intros other Hother.
    apply (upsert_scd2_keeps (others_untouched table)).
    + apply others_untouched_refl.
    + apply others_untouched_trans.
    + intros s s' [Hh Hr]. split; [exact Hh|]. intros k _. apply Hr.
    + intros attrs rec. apply upsert_row_others_untouched.
    + exact Hother.
Qed.

Lemma upsert_scd2_single_current_witness :
  let c' := snd (upsert_scd2 day2 "accounts" [account "A1" "200"] ["account_id"]%string None
                   accounts_day1) in
  single_current ["account_id"]%string [SqlText "A1"] (table_rows "accounts" (data c'))
  /\ forall other, canon other <> canon "accounts" ->
                   table_rows other (data c') = table_rows other (data accounts_day1).
Proof.
  apply upsert_scd2_single_current.
  - exact accounts_day1_in_use.
  - exact accounts_bare.
  - by_computation.
  - unfold single_current. vm_compute. lia.
Defined.
(** ** Records a table can take *)

Lemma bind_values_adapt (vs : list pyval) :
  Forall bindable vs -> bind_values vs = Returns (map adapt vs).
Proof.
  induction 1 as [|v vs Hv _ IH]; [reflexivity|].
  cbn [bind_values map]. rewrite IH.
  destruct v as [| |z]; cbn [bind_value adapt]; try reflexivity.
  cbn in Hv. now rewrite decide_True.
Qed.

Lemma key_values_of_storable (rec : record) (key_fields : list string) :
  Forall (fun k => rec_get rec k <> PNone) key_fields ->
  key_values_of rec key_fields = Returns (map (rec_get rec) key_fields).
Proof.
  induction 1 as [|k ks Hk _ IH]; [reflexivity|].
  cbn [key_values_of map]. rewrite IH. unfold rec_get, rec_index in *.
  destruct (assoc k rec); [reflexivity|]. now cbn in Hk.
Qed.

Lemma bind_values_returns (vs : list pyval) (bound : list sqlval) :
  bind_values vs = Returns bound -> bound = map adapt vs /\ Forall bindable vs.
Proof.
  revert bound. induction vs as [|v vs IH]; intros bound E; cbn [bind_values] in E.
  - simplify_eq. split; [reflexivity|constructor].
  - destruct (bind_value v) as [b|] eqn:Ev; [|discriminate].
    destruct (bind_values vs) as [bs|]; [|discriminate]. simplify_eq.
    destruct (IH bs eq_refl) as [-> Hvs].
    destruct v as [| |z]; cbn [bind_value] in Ev.
    + simplify_eq. split; [reflexivity|now constructor].
    + simplify_eq. split; [reflexivity|now constructor].
    + destruct (decide (- 2 ^ 63 <= z < 2 ^ 63)) as [Hz|]; [|discriminate].
      simplify_eq. split; [reflexivity|now constructor].
Qed.

Lemma table_rows_present (table : string) (s : store) (t : entity_table) :
  tables s !! canon table = Some t -> table_rows table s = rows t.
Proof. intros H. unfold table_rows, rows_at. now rewrite H. Qed.

(** What the statements of the loop did, when they returned. *)
Lemma exec_select_current_returns (table : string) (key_fields : list string)
    (params : list pyval) (s s' : store) (found : option row) (t : entity_table) :
  exec_select_current table key_fields params s = Returns (found, s') ->
  tables s !! canon table = Some t ->
  s' = s /\ Forall bindable params
  /\ found = latest (current_rows key_fields (map adapt params) (rows t)).
Proof.
  intros E Ht.
  pose proof (exec_select_current_cases table key_fields params s) as H.
  rewrite E in H. destruct H as (-> & bound & Hb & ->).
  apply bind_values_returns in Hb as [-> Hb].
  now rewrite (table_rows_present _ _ _ Ht).
Qed.

Lemma exec_close_returns (table now : string) (target : Z) (s s' : store) (u : unit)
    (t : entity_table) :
  exec_close table now target s = Returns (u, s') ->
  tables s !! canon table = Some t ->
  s' = Store (history s)
         (<[canon table :=
              Table (key_columns t) (attribute_columns t)
                    (map (fun r => if decide (id r = target) then close_row now r else r)
                         (rows t))]> (tables s)).
Proof.
  intros E Ht. unfold exec_close in E. rewrite Ht in E.
  repeat case_match; simplify_eq. reflexivity.
Qed.

Lemma exec_insert_returns (table : string) (columns : list string) (now upto hash : string)
    (params : list pyval) (s s' : store) (u : unit) (t : entity_table) :
  exec_insert table columns now upto hash params s = Returns (u, s') ->
  tables s !! canon table = Some t ->
  let cs := new_cells t columns (map adapt params) in
  Forall bindable params
  /\ Forall (fun k => is_Some (default None (assoc k cs))) (key_columns t)
  /\ s' = Store (history s)
            (<[canon table :=
                 Table (key_columns t) (attribute_columns t)
                       (rows t ++ [Row (max_id (rows t) + 1) cs now upto 1 hash])]>
               (tables s)).
Proof.
  intros E Ht. unfold exec_insert in E. rewrite Ht in E.
  destruct (negb _); [discriminate|].
  destruct (decide (canon table = history_table_name)); [discriminate|].
  destruct (decide (Forall _ columns)); [|discriminate].
  destruct (bind_values params) as [bound|] eqn:Eb; [|discriminate].
  apply bind_values_returns in Eb as [-> Hb].
  destruct (decide (Forall _ (key_columns t))) as [Hnn|]; [|discriminate].
  simplify_eq. auto.
Qed.

Lemma is_nil_false {A : Type} (l : list A) : l <> [] -> is_nil l = false.
Proof. destruct l; [congruence|reflexivity]. Qed.

Lemma forallb_app_true {A : Type} (f : A -> bool) (l1 l2 : list A) :
  forallb f (l1 ++ l2) = true -> forallb f l1 = true /\ forallb f l2 = true.
Proof. rewrite forallb_app. apply andb_true_iff. Qed.

Lemma Forall2_tabulate {A : Type} (g : string -> A) (ks : list string) (vs : list A) :
  Forall2 (fun k v => g k = v) ks vs -> map (fun k => (k, g k)) ks = combine ks vs.
Proof. induction 1 as [|k v ks vs E _ IH]; [reflexivity|]. cbn. now rewrite E, IH. Qed.

(** Listing every declared column once, an INSERT fills the cells with the
    values in the order given. *)
Lemma new_cells_all (t : entity_table) (key_fields attribute_fields : list string)
    (vals : list sqlval) :
  declares t key_fields attribute_fields ->
  NoDup (map canon (key_fields ++ attribute_fields)) ->
  length vals = length (key_fields ++ attribute_fields) ->
  new_cells t (key_fields ++ attribute_fields) vals
  = combine (map canon (key_fields ++ attribute_fields)) (map to_text vals).
Proof.
  intros [Hk Ha] Hnd Hlen. unfold new_cells, table_columns.
  rewrite Hk, Ha, <- map_app.
  apply (Forall2_tabulate
           (fun c => default None (assoc c (combine (map canon (key_fields ++ attribute_fields))
                                                    (map to_text vals))))).
  pose proof (assoc_given_keys (map canon (key_fields ++ attribute_fields)) (map to_text vals)
                [] [] [] [] Hnd) as H.
  rewrite !length_map, !app_nil_r in H. cbn [app] in H.
  specialize (H (eq_sym Hlen) eq_refl (fun k _ Hin => proj1 (elem_of_nil k) Hin)).
  eapply Forall2_impl; [exact H|]. cbn. intros k v ->. reflexivity.
Qed.

Lemma elem_of_map {A B : Type} (f : A -> B) (l : list A) (x : A) : x ∈ l -> f x ∈ map f l.
Proof. rewrite !list_elem_of_In. apply in_map. Qed.

Lemma Forall2_Forall_left {A B : Type} (P : A -> B -> Prop) (Q : B -> Prop) (R : A -> Prop)
    (ks : list A) (vs : list B) :
  Forall2 P ks vs -> Forall Q vs -> (forall k v, P k v -> Q v -> R k) -> Forall R ks.
Proof.
  intros H2 HQ Himp. induction H2 as [|k v ks vs Hkv _ IH]; constructor.
  - eapply Himp; [exact Hkv|]. now inversion HQ.
  - apply IH. now inversion HQ.
Qed.

Lemma cell_of_is_Some (rec : record) (k : string) :
  rec_get rec k <> PNone -> is_Some (cell_of rec k).
Proof. unfold cell_of. destruct (rec_get rec k); [congruence|eexists..]; reflexivity. Qed.

Lemma combine_cells (rec : record) (fields : list string) :
  combine (map canon fields) (map to_text (map adapt (map (rec_get rec) fields)))
  = map (fun f => (canon f, cell_of rec f)) fields.
Proof.
  unfold cell_of. induction fields as [|f fs IH]; [reflexivity|].
  cbn [map combine]. now rewrite IH.
Qed.

Section OnEntityTable.
Context (t : entity_table) (s : store) (table : string) (key_fields attribute_fields : list string).
Hypothesis names : well_named table key_fields attribute_fields.
Hypothesis present : tables s !! canon table = Some t.
Hypothesis declared : declares t key_fields attribute_fields.

Lemma columns_present (fields : list string) :
  fields ⊆ key_fields ++ attribute_fields ->
  Forall (fun c => canon c ∈ table_columns t) fields.
Proof.
  intros Hsub. apply Forall_forall. intros c Hc.
  destruct declared as [Hk Ha]. unfold table_columns. rewrite Hk, Ha, <- map_app.
  apply elem_of_map, Hsub, Hc.
Qed.

Lemma exec_select_current_ok (params : list pyval) :
  Forall bindable params ->
  exec_select_current table key_fields params s
  = Returns (latest (current_rows key_fields (map adapt params) (rows t)), s).
Proof.
  intros Hbind.
  destruct names as (Ht & _ & Hh & Hcols & Hk & _ & _).
  apply forallb_app_true in Hcols as [Hkeys _].
  unfold exec_select_current.
  rewrite Ht, Hkeys, (is_nil_false _ Hk). cbn [andb negb].
  rewrite decide_False by exact Hh. rewrite present.
  rewrite decide_True; [now rewrite (bind_values_adapt _ Hbind)|].
  apply columns_present. intros k Hin. apply elem_of_app. now left.
Qed.

Lemma exec_close_ok (now : string) (target : Z) :
  exec_close table now target s
  = Returns (tt, Store (history s)
                   (<[canon table :=
                        Table (key_columns t) (attribute_columns t)
                              (close_rows now target (rows t))]> (tables s))).
Proof.
  destruct names as (Ht & _ & Hh & _).
  unfold exec_close. rewrite Ht. cbn [negb].
  rewrite decide_False by exact Hh. rewrite present. reflexivity.
Qed.

Lemma exec_insert_ok (now upto hash : string) (rec : record) :
  storable key_fields attribute_fields rec ->
  exec_insert table (key_fields ++ attribute_fields) now upto hash
    (map (rec_get rec) (key_fields ++ attribute_fields)) s
  = Returns (tt, Store (history s)
                   (<[canon table :=
                        Table (key_columns t) (attribute_columns t)
                              (rows t ++ [Row (max_id (rows t) + 1)
                                              (map (fun f => (canon f, cell_of rec f))
                                                   (key_fields ++ attribute_fields))
                                              now upto 1 hash])]> (tables s))).
Proof.
  intros [Hkeys Hbind].
  destruct names as (Ht & _ & Hh & Hcols & _ & _ & Hnd).
  apply NoDup_app in Hnd as (_ & _ & Hnd).
  unfold exec_insert. rewrite Ht, Hcols. cbn [andb negb].
  rewrite decide_False by exact Hh. rewrite present.
  rewrite decide_True by (now apply columns_present).
  rewrite (bind_values_adapt (map (rec_get rec) (key_fields ++ attribute_fields)))
    by (now apply Forall_map).
  rewrite (new_cells_all t key_fields attribute_fields _ declared Hnd)
    by (now rewrite !length_map).
  rewrite decide_True; [now rewrite combine_cells|].
  destruct declared as [Hk _]. rewrite Hk. rewrite !map_app.
  pose proof (assoc_given_keys (map canon key_fields)
                (map to_text (map adapt (map (rec_get rec) key_fields)))
                [] (map canon attribute_fields) []
                (map to_text (map adapt (map (rec_get rec) attribute_fields)))) as H.
  cbn [app] in H. rewrite !length_map in H.
  rewrite map_app in Hnd. apply NoDup_app in Hnd as (Hndk & _ & _).
  specialize (H Hndk eq_refl eq_refl (fun k _ Hin => proj1 (elem_of_nil k) Hin)).
  eapply Forall2_Forall_left; [exact H| |].
  - apply Forall_forall. intros o Ho.
    apply list_elem_of_In, in_map_iff in Ho as (x & <- & Hx).
    apply in_map_iff in Hx as (v & <- & Hv).
    apply in_map_iff in Hv as (k & <- & Hkin).
    apply cell_of_is_Some. rewrite Forall_forall in Hkeys. apply Hkeys.
    now apply list_elem_of_In.
  - cbn. intros k v -> Hv. exact Hv.
Qed.
End OnEntityTable.

Lemma max_id_close_rows (now : string) (target : Z) (rs : list row) :
  max_id (close_rows now target rs) = max_id rs.
Proof.
  induction rs as [|r rs IH]; [reflexivity|].
  unfold close_rows, max_id in *. cbn [map fold_right]. rewrite IH.
  destruct (decide (id r = target)); reflexivity.
Qed.

(** One pass of the loop on a record the table can take: either the current
    row of its key has the record's digest and nothing changes, or that row
    is closed, if there is one, and a new version is added. *)
Lemma upsert_row_run (t : entity_table) (c : conn) (table : string)
    (key_fields attribute_fields : list string) (now : string) (rec : record) :
  well_named table key_fields attribute_fields ->
  tables (data c) !! canon table = Some t ->
  declares t key_fields attribute_fields ->
  storable key_fields attribute_fields rec ->
  let found := latest (current_rows key_fields (map adapt (map (rec_get rec) key_fields))
                         (rows t)) in
  let same := bool_decide (row_hash <$> found = Some (_compute_hash rec attribute_fields)) in
  exists c',
    upsert_row table key_fields attribute_fields now rec c
    = (Returns (if same then 0 else 1), c')
    /\ data c'
       = if same then data c
         else Store (history (data c))
                (<[canon table :=
                     Table (key_columns t) (attribute_columns t)
                       (after_close now found (rows t)
                        ++ [new_version key_fields attribute_fields now rec
                              (max_id (rows t) + 1)])]> (tables (data c))).
Proof.
  intros Hnames Hpresent Hdecl Hrec found same.
  destruct (Hrec) as [Hkeys Hbind].
  assert (Hbk : Forall bindable (map (rec_get rec) key_fields)).
  { apply Forall_app in Hbind as [Hb _]. now apply Forall_map. }
  unfold upsert_row, bind, lift.
  rewrite (key_values_of_storable _ _ Hkeys).
  unfold execute at 1.
  rewrite (exec_select_current_ok t (data c) table key_fields attribute_fields
             Hnames Hpresent Hdecl _ Hbk).
  fold found. fold same. destruct same.
  { eexists. split; reflexivity. }
  destruct found as [cur|]; cbn [after_close].
  - unfold execute at 1. cbn [data].
    rewrite (exec_close_ok t (data c) table key_fields attribute_fields Hnames Hpresent).
    unfold execute. cbn [data].
    erewrite (exec_insert_ok (Table (key_columns t) (attribute_columns t)
                                    (close_rows now (id cur) (rows t))));
      [|exact Hnames|apply lookup_insert_eq|exact Hdecl|exact Hrec].
    eexists. split; [reflexivity|]. cbn [data history tables rows key_columns attribute_columns].
    rewrite insert_insert_eq, max_id_close_rows. reflexivity.
  - unfold ret at 1. unfold execute. cbn [data].
    erewrite (exec_insert_ok t); [|exact Hnames|exact Hpresent|exact Hdecl|exact Hrec].
    eexists. split; reflexivity.
Qed.

(** One pass of the loop that returned, on any table: the key could be read
    and bound; either the current row of the key had the digest of the record
    and nothing changed, or that row was closed, if there was one, and a row
    was added whose key cells are not NULL. *)
Lemma upsert_row_returns (t : entity_table) (c : conn) (table : string)
    (key_fields attribute_fields : list string) (now : string) (rec : record)
    (n : Z) (c' : conn) :
  tables (data c) !! canon table = Some t ->
  upsert_row table key_fields attribute_fields now rec c = (Returns n, c') ->
  let found := latest (current_rows key_fields (map adapt (map (rec_get rec) key_fields))
                         (rows t)) in
  let cs := new_cells t (key_fields ++ attribute_fields)
              (map adapt (map (rec_get rec) (key_fields ++ attribute_fields))) in
  if bool_decide (row_hash <$> found = Some (_compute_hash rec attribute_fields))
  then n = 0 /\ data c' = data c
  else n = 1
       /\ Forall bindable (map (rec_get rec) (key_fields ++ attribute_fields))
       /\ Forall (fun k => is_Some (default None (assoc k cs))) (key_columns t)
       /\ data c'
          = Store (history (data c))
              (<[canon table :=
                   Table (key_columns t) (attribute_columns t)
                     (after_close now found (rows t)
                      ++ [Row (max_id (rows t) + 1) cs now sentinel 1
                              (_compute_hash rec attribute_fields)])]> (tables (data c))).
Proof.
  intros Hpresent Hrun found cs.
  unfold upsert_row, bind, lift in Hrun.
  destruct (key_values_of rec key_fields) as [vs|] eqn:Ekeys; [|discriminate].
  apply key_values_of_returns in Ekeys as ->.
  unfold execute at 1 in Hrun.
  destruct (exec_select_current _ _ _ _) as [[found0 s0]|] eqn:Esel; [|discriminate].
  apply (exec_select_current_returns _ _ _ _ _ _ t) in Esel as (-> & _ & ->);
    [|exact Hpresent].
  fold found in Hrun. destruct (bool_decide _).
  { unfold ret in Hrun. simplify_eq. auto. }
  destruct found as [cur|]; cbn [after_close].
  - unfold execute at 1 in Hrun. cbn [data] in Hrun.
    destruct (exec_close _ _ _ _) as [[u s1]|] eqn:Eclose; [|discriminate].
    apply (exec_close_returns _ _ _ _ _ _ t) in Eclose as ->; [|exact Hpresent].
    unfold execute in Hrun. cbn [data] in Hrun.
    destruct (exec_insert _ _ _ _ _ _ _) as [[u2 s2]|] eqn:Eins; [|discriminate].
    eapply exec_insert_returns in Eins as (Hb & Hnn & Hs2); [|apply lookup_insert_eq].
    unfold ret in Hrun. simplify_eq.
    cbn [data history tables rows key_columns attribute_columns] in *.
    rewrite insert_insert_eq. fold (close_rows now (id cur) (rows t)).
    rewrite max_id_close_rows. auto.
  - unfold ret at 1 in Hrun. unfold execute in Hrun. cbn [data] in Hrun.
    destruct (exec_insert _ _ _ _ _ _ _) as [[u2 s2]|] eqn:Eins; [|discriminate].
    eapply exec_insert_returns in Eins as (Hb & Hnn & Hs2); [|exact Hpresent].
    unfold ret in Hrun. simplify_eq. auto.
Qed.

Section EnsureSucceeds.
Context (t : entity_table) (table : string) (key_fields attribute_fields : list string).
Hypothesis names : well_named table key_fields attribute_fields.

Lemma exec_create_table_checks :
  sql_ident table && forallb sql_ident (key_fields ++ attribute_fields)
  && negb (is_nil key_fields) && negb (is_nil attribute_fields) = true.
Proof.
  destruct names as (Ht & _ & _ & Hcols & Hk & Ha & _).
  now rewrite Ht, Hcols, (is_nil_false _ Hk), (is_nil_false _ Ha).
Qed.

Lemma exec_create_indexes_ok (s : store) :
  tables s !! canon table = Some t -> declares t key_fields attribute_fields ->
  exec_create_key_index table key_fields s = Returns (tt, s)
  /\ exec_create_current_index table s = Returns (tt, s).
Proof.
  intros Hpresent Hdecl.
  destruct names as (Ht & _ & Hh & Hcols & Hk & _ & _).
  apply forallb_app_true in Hcols as [Hkeys _].
  unfold exec_create_key_index, exec_create_current_index, columns_of.
  rewrite Ht, Hkeys, (is_nil_false _ Hk). cbn [andb negb].
  rewrite !decide_False by exact Hh. rewrite Hpresent. cbn [fmap option_fmap option_map].
  rewrite decide_True; [split; reflexivity|].
  eapply columns_present; [exact Hdecl|]. intros k Hin. apply elem_of_app. now left.
Qed.

(** On a table that exists with these columns, [ensure_scd2_table] returns
    and changes nothing in the database. *)
Lemma ensure_scd2_table_present (c : conn) :
  tables (data c) !! canon table = Some t -> declares t key_fields attribute_fields ->
  exists c', ensure_scd2_table table key_fields attribute_fields c = (Returns tt, c')
             /\ data c' = data c.
Proof.
  intros Hpresent Hdecl.
  destruct (exec_create_indexes_ok (data c) Hpresent Hdecl) as [Hi1 Hi2].
  unfold ensure_scd2_table, bind, execute.
  assert (Hcreate : exec_create_table table key_fields attribute_fields (data c)
                    = Returns (tt, data c)).
  { unfold exec_create_table. rewrite exec_create_table_checks. cbn [negb].
    destruct names as (_ & -> & Hh & _). rewrite decide_False by exact Hh.
    now rewrite Hpresent. }
  rewrite Hcreate. cbn [data]. rewrite Hi1. cbn [data]. rewrite Hi2.
  eexists. split; reflexivity.
Qed.
End EnsureSucceeds.

(** Where there is no such table, [ensure_scd2_table] creates it empty. *)
Lemma ensure_scd2_table_absent (table : string) (key_fields attribute_fields : list string)
    (c : conn) :
  well_named table key_fields attribute_fields ->
  tables (data c) !! canon table = None ->
  exists c', ensure_scd2_table table key_fields attribute_fields c = (Returns tt, c')
             /\ data c'
                = Store (history (data c))
                    (<[canon table :=
                         Table (map canon key_fields) (map canon attribute_fields) []]>
                       (tables (data c))).
Proof.
  intros Hnames Habsent.
  set (t0 := Table (map canon key_fields) (map canon attribute_fields) []).
  set (s1 := Store (history (data c)) (<[canon table := t0]> (tables (data c)))).
  assert (Hpresent : tables s1 !! canon table = Some t0) by apply lookup_insert_eq.
  assert (Hdecl : declares t0 key_fields attribute_fields) by (split; reflexivity).
  destruct (exec_create_indexes_ok t0 table key_fields attribute_fields Hnames
              s1 Hpresent Hdecl) as [Hi1 Hi2].
  unfold ensure_scd2_table, bind, execute.
  assert (Hcreate : exec_create_table table key_fields attribute_fields (data c)
                    = Returns (tt, s1)).
  { unfold exec_create_table.
    rewrite (exec_create_table_checks table key_fields attribute_fields Hnames).
    cbn [negb]. destruct Hnames as (_ & -> & Hh & _ & _ & _ & Hnd).
    rewrite decide_False by exact Hh. rewrite Habsent.
    now rewrite decide_True by exact Hnd. }
  rewrite Hcreate. cbn [data]. rewrite Hi1. cbn [data]. rewrite Hi2.
  eexists. split; reflexivity.
Qed.

(** On a table that exists, [ensure_scd2_table] changes nothing when it
    returns. *)
Lemma ensure_scd2_table_returns_present (table : string)
    (key_fields attribute_fields : list string) (c c' : conn) (u : unit) (t : entity_table) :
  tables (data c) !! canon table = Some t ->
  ensure_scd2_table table key_fields attribute_fields c = (Returns u, c') ->
  data c' = data c.
Proof.
  intros Ht E. unfold ensure_scd2_table, bind, execute in E.
  pose proof (exec_create_table_cases table key_fields attribute_fields (data c)) as H1.
  destruct (exec_create_table _ _ _ _) as [[u1 s1]|]; [|discriminate].
  destruct H1 as [->|[Hnone _]]; [|congruence].
  cbn [data] in E.
  pose proof (exec_create_key_index_cases table key_fields (data c)) as H2.
  destruct (exec_create_key_index _ _ _) as [[u2 s2]|]; [|discriminate].
  subst s2. cbn [data] in E.
  pose proof (exec_create_current_index_cases table (data c)) as H3.
  destruct (exec_create_current_index _ _) as [[u3 s3]|]; [|discriminate].
  subst s3. now simplify_eq.
Qed.

(** When [ensure_scd2_table] returns on a fresh table, the names are well
    formed. *)
Lemma ensure_scd2_table_returns_well_named (table : string)
    (key_fields attribute_fields : list string) (c c' : conn) (u : unit) :
  fresh table key_fields attribute_fields (data c) ->
  ensure_scd2_table table key_fields attribute_fields c = (Returns u, c') ->
  well_named table key_fields attribute_fields.
Proof.
  intros Hfresh E. unfold ensure_scd2_table, bind, execute in E.
  destruct (exec_create_table _ _ _ _) as [[u1 s1]|] eqn:E1; [|discriminate].
  cbn [data] in E.
  destruct (exec_create_key_index _ _ _) as [[u2 s2]|]; [|discriminate].
  cbn [data] in E.
  destruct (exec_create_current_index _ _) as [[u3 s3]|] eqn:E3; [|discriminate].
  assert (Hh : canon table <> history_table_name).
  { unfold exec_create_current_index in E3.
    destruct (negb _); [discriminate|].
    now destruct (decide (canon table = history_table_name)). }
  unfold exec_create_table in E1.
  destruct (sql_ident table && forallb sql_ident (key_fields ++ attribute_fields)
            && negb (is_nil key_fields) && negb (is_nil attribute_fields)) eqn:Hchecks;
    [|discriminate].
  cbn [negb] in E1.
  apply andb_true_iff in Hchecks as [Hchecks Ha].
  apply andb_true_iff in Hchecks as [Hchecks Hk].
  apply andb_true_iff in Hchecks as [Ht Hcols].
  destruct (internal_name table) eqn:Hint; [discriminate|].
  rewrite decide_False in E1 by exact Hh.
  repeat split; try assumption.
  - intros ->. discriminate.
  - intros ->. discriminate.
  - unfold fresh in Hfresh. destruct (tables (data c) !! canon table) as [t|].
    + destruct Hfresh as ([Hdk Hda] & Hnd & _).
      unfold table_columns in Hnd. now rewrite Hdk, Hda, <- map_app in Hnd.
    + now destruct (decide (NoDup _)).
Qed.

Lemma latest_In (rs : list row) (x : row) : latest rs = Some x -> In x rs.
Proof.
  revert x. induction rs as [|r rs IH]; intros x E; [discriminate|].
  cbn [latest] in E. destruct (latest rs) as [r'|].
  - destruct (id r <? id r'); simplify_eq; [right; now apply IH|now left].
  - simplify_eq. now left.
Qed.

Lemma effective_attribute_fields_given (recs : list record) (key_fields attrs : list string) :
  attrs <> [] -> effective_attribute_fields recs key_fields (Some attrs) = attrs.
Proof. intros H. unfold effective_attribute_fields. cbn. now rewrite (is_nil_false _ H). Qed.

(** A row holds the key of a record exactly when the lookup of the record
    matches it. *)
Lemma has_key_row_matches (key_fields : list string) (rec : record) (r : row) :
  has_key key_fields rec r
  <-> row_matches key_fields (map adapt (map (rec_get rec) key_fields)) r = true.
Proof.
  unfold has_key. induction key_fields as [|k ks IH]; cbn [map row_matches].
  - split; [reflexivity|constructor].
  - rewrite Forall_cons, IH. unfold cell_of.
    destruct (assoc (canon k) (cells r)) as [[stored|]|];
      destruct (to_text (adapt (rec_get rec k))) as [asked|].
    all: try (split; [intros [(text & H1 & H2) _]; discriminate|discriminate]).
    rewrite andb_true_iff, bool_decide_eq_true. split.
    + intros [(text & H1 & H2) Hrest]. split; [congruence|exact Hrest].
    + intros [-> Hrest]. split; [exists asked; split; reflexivity|exact Hrest].
Qed.

Lemma latest_only (rs : list row) (cur : row) :
  In cur rs -> (forall r, In r rs -> r = cur) -> latest rs = Some cur.
Proof.
  induction rs as [|r rs IH]; intros Hin Hall; [destruct Hin|].
  assert (Hr : r = cur) by (apply Hall; now left). subst r.
  cbn [latest]. destruct rs as [|x rs]; [reflexivity|].
  rewrite IH.
  - now destruct (id cur <? id cur).
  - left. apply Hall. right. now left.
  - intros r' Hr'. apply Hall. now right.
Qed.

(** The one current row that holds the key of a record is what the lookup
    of the record finds. *)
Lemma only_current_found (key_fields : list string) (rec : record) (rs : list row)
    (cur : row) :
  In cur rs -> is_current cur = 1 -> has_key key_fields rec cur ->
  (forall r, In r rs -> is_current r = 1 -> has_key key_fields rec r -> r = cur) ->
  latest (current_rows key_fields (map adapt (map (rec_get rec) key_fields)) rs) = Some cur.
Proof.
  intros Hin Hcur Hkey Honly. apply latest_only.
  - apply filter_In. split; [exact Hin|].
    apply andb_true_iff. split; [now apply has_key_row_matches|now apply Z.eqb_eq].
  - intros r [Hr Hm]%filter_In. apply andb_true_iff in Hm as [Hm Hc].
    apply Honly; [exact Hr|now apply Z.eqb_eq|now apply has_key_row_matches].
Qed.

(** With no current row that holds the key of a record, the lookup of the
    record finds nothing. *)
Lemma no_current_found (key_fields : list string) (rec : record) (rs : list row) :
  (forall r, In r rs -> is_current r = 1 -> ~ has_key key_fields rec r) ->
  current_rows key_fields (map adapt (map (rec_get rec) key_fields)) rs = [].
Proof.
  intros H. apply filter_none. intros r Hr.
  destruct (row_matches key_fields (map adapt (map (rec_get rec) key_fields)) r) eqn:Em;
    [|reflexivity].
  destruct (is_current r =? 1) eqn:Ec; [|reflexivity].
  exfalso. apply (H r Hr); [now apply Z.eqb_eq|now apply has_key_row_matches].
Qed.

(** Claim C6, as stated, fails: a record whose digest differs from that of
    the current row of its key is not always taken. An integer beyond 64
    bits cannot be bound to the INSERT: the call raises [OverflowError]
    after the UPDATE, the transaction is rolled back, and the old row is
    still the current one. *)
Lemma upsert_scd2_supersede_refused :
  let rec := [("account_id", PStr "A1"); ("balance", PInt (2 ^ 63))]%string in
  let call := upsert_scd2 day2 "accounts" [rec] ["account_id"]%string None accounts_day1 in
  table_rows "accounts" (data accounts_day1) = [accounts_day1_row]
  /\ has_key ["account_id"]%string rec accounts_day1_row
  /\ is_current accounts_day1_row = 1
  /\ row_hash accounts_day1_row <> _compute_hash rec ["balance"]%string
  /\ fst call = Raises OverflowError
  /\ table_rows "accounts" (data (snd call)) = [accounts_day1_row].
Proof.
  cbv zeta. split; [vm_compute; reflexivity|].
  split; [apply has_key_row_matches; vm_compute; reflexivity|].
  split; [reflexivity|]. split; [vm_compute; discriminate|].
  split; vm_compute; reflexivity.
Qed.

(** Claim C6, amended. On an adapter in use, the loop of [upsert_scd2],
    called with bare names, reaches a record whose key has one current row,
    with a [row_hash] other than the digest of the record. When the pass on
    that record returns, it has closed that row, setting [valid_to] to the
    time of the call and [is_current] to 0, and has added after it a row with
    the values of the record, [is_current] 1, [valid_to] the sentinel and
    [valid_from] that same time; the pass counts 1. The same holds of a whole
    call on a batch of that one record, and such a call does return when the
    table was created for the fields of the call and can take the record;
    the cells of the new row are then the values of the record as [TEXT]. *)
Theorem upsert_scd2_supersedes (t : entity_table) (c : conn) (table : string)
    (key_fields attribute_fields : list string) (now : string) (rec : record) (cur : row) :
  in_use c ->
  bare_names table (key_fields ++ attribute_fields) ->
  tables (data c) !! canon table = Some t ->
  In cur (rows t) -> is_current cur = 1 -> has_key key_fields rec cur ->
  (forall r, In r (rows t) -> is_current r = 1 -> has_key key_fields rec r -> r = cur) ->
  row_hash cur <> _compute_hash rec attribute_fields ->
  let columns := key_fields ++ attribute_fields in
  let cs := new_cells t columns (map adapt (map (rec_get rec) columns)) in
  let digest := _compute_hash rec attribute_fields in
  (forall n c',
      upsert_row table key_fields attribute_fields now rec c = (Returns n, c') ->
      n = 1 /\ supersedes now cur cs digest (rows t) (table_rows table (data c')))
  /\ (forall n c',
        attribute_fields <> [] ->
        upsert_scd2 now table [rec] key_fields (Some attribute_fields) c = (Returns n, c') ->
        n = 1 /\ supersedes now cur cs digest (rows t) (table_rows table (data c')))
  /\ (well_named table key_fields attribute_fields ->
      declares t key_fields attribute_fields ->
      storable key_fields attribute_fields rec ->
      cs = map (fun f => (canon f, cell_of rec f)) columns
      /\ exists c', upsert_scd2 now table [rec] key_fields (Some attribute_fields) c
                    = (Returns 1, c')).
Proof.
  intros _ _ Hpresent Hstored Hcur Hkey Honly Hdiff columns cs digest.
  pose proof (only_current_found key_fields rec (rows t) cur Hstored Hcur Hkey Honly)
    as Hfound.
  assert (Hstep : forall c0 n c',
            data c0 = data c ->
            upsert_row table key_fields attribute_fields now rec c0 = (Returns n, c') ->
            n = 1 /\ supersedes now cur cs digest (rows t) (table_rows table (data c'))).
  { intros c0 n c' E0 Hrun.
    apply (upsert_row_returns t) in Hrun; [|now rewrite E0].
    rewrite Hfound in Hrun. cbn [fmap option_fmap option_map] in Hrun.
    rewrite bool_decide_eq_false_2 in Hrun by congruence.
    destruct Hrun as (-> & _ & _ & Hdata). split; [reflexivity|].
    assert (Hrows : table_rows table (data c')
                    = close_rows now (id cur) (rows t)
                      ++ [Row (max_id (rows t) + 1) cs now sentinel 1 digest]).
    { unfold table_rows. rewrite Hdata, E0, rows_at_insert, decide_True by reflexivity.
      reflexivity. }
    unfold supersedes. rewrite Hrows.
    split; [reflexivity|]. split; [|repeat split].
    apply elem_of_app. left.
    apply latest_In in Hfound. apply filter_In in Hfound as [Hin _].
    apply list_elem_of_In. unfold close_rows. apply in_map_iff.
    exists cur. split; [now rewrite decide_True|exact Hin]. }
  split; [intros n c'; now apply Hstep|]. split.
  - intros n c' Hattrs Hcall. unfold upsert_scd2 in Hcall. cbn [is_nil] in Hcall.
    rewrite (effective_attribute_fields_given _ _ _ Hattrs) in Hcall.
    unfold bind at 1 in Hcall.
    destruct (ensure_scd2_table _ _ _ c) as [[u|] c1] eqn:Hens; [|discriminate].
    apply (ensure_scd2_table_returns_present _ _ _ _ _ _ t Hpresent) in Hens.
    unfold transaction in Hcall. cbn [upsert_rows] in Hcall. unfold bind in Hcall.
    destruct (upsert_row _ _ _ _ _ c1) as [[m|] c2] eqn:Hrow; [|discriminate].
    unfold ret in Hcall. simplify_eq.
    exact (Hstep c1 _ _ Hens Hrow).
  - intros Hnames Hdecl Hrec. split.
    { subst cs columns.
      rewrite (new_cells_all t key_fields attribute_fields _ Hdecl).
      - apply combine_cells.
      - destruct Hnames as (_ & _ & _ & _ & _ & _ & Hnd).
        apply NoDup_app in Hnd as (_ & _ & Hnd). exact Hnd.
      - now rewrite !length_map. }
    unfold upsert_scd2. cbn [is_nil].
    assert (Hattrs : attribute_fields <> []) by apply Hnames.
    rewrite (effective_attribute_fields_given _ _ _ Hattrs).
    destruct (ensure_scd2_table_present t table key_fields attribute_fields Hnames
                c Hpresent Hdecl) as (c1 & Hens & Hdata1).
    unfold bind at 1. rewrite Hens.
    destruct (upsert_row_run t c1 table key_fields attribute_fields now rec Hnames)
      as (c' & Hrun & _); [now rewrite Hdata1|exact Hdecl|exact Hrec|].
    rewrite Hfound in Hrun. cbn [fmap option_fmap option_map] in Hrun.
    rewrite bool_decide_eq_false_2 in Hrun by congruence.
    unfold transaction. cbn [upsert_rows]. unfold bind. rewrite Hrun.
    exists c'. reflexivity.
Qed.

(** ** A batch applied twice *)

Lemma assoc_tabulated {A : Type} (g : string -> A) (fields : list string) (k : string) :
  NoDup (map canon fields) -> k ∈ fields ->
  assoc (canon k) (map (fun f => (canon f, g f)) fields) = Some (g k).
Proof.
  induction fields as [|f fields IH]; intros Hnd Hin; [now apply elem_of_nil in Hin|].
  cbn [map] in Hnd. apply NoDup_cons in Hnd as [Hf Hnd]. cbn [map assoc].
  destruct (decide (canon f = canon k)) as [E|Hne].
  - apply elem_of_cons in Hin as [->|Hin]; [reflexivity|].
    exfalso. apply Hf. rewrite E. now apply elem_of_map.
  - apply elem_of_cons in Hin as [->|Hin]; [now destruct Hne|now apply IH].
Qed.

(** A row whose key cells are those of [rec'] and that matches the key
    parameters of [rec]: both records have the same stored key. *)
Lemma row_matches_cells_eq (r : row) (rec rec' : record) (ks : list string) :
  Forall (fun k => assoc (canon k) (cells r) = Some (cell_of rec' k)) ks ->
  row_matches ks (map adapt (map (rec_get rec) ks)) r = true ->
  map (cell_of rec') ks = map (cell_of rec) ks.
Proof.
  induction ks as [|k ks IH]; intros Hcells Hm; [reflexivity|].
  apply Forall_cons in Hcells as [Hk Hcells].
  cbn [map row_matches] in *. rewrite Hk in Hm. fold (cell_of rec k) in Hm.
  destruct (cell_of rec' k) as [stored|]; [|discriminate].
  destruct (cell_of rec k) as [asked|]; [|discriminate].
  apply andb_true_iff in Hm as [E Hm]. apply bool_decide_eq_true in E as ->.
  now rewrite IH.
Qed.

(** Conversely, for a record whose key values are not [None]. *)
Lemma row_matches_cells_own (r : row) (rec rec' : record) (ks : list string) :
  Forall (fun k => assoc (canon k) (cells r) = Some (cell_of rec' k)) ks ->
  Forall (fun k => rec_get rec k <> PNone) ks ->
  map (cell_of rec') ks = map (cell_of rec) ks ->
  row_matches ks (map adapt (map (rec_get rec) ks)) r = true.
Proof.
  induction ks as [|k ks IH]; intros Hcells Hkeys E; [reflexivity|].
  apply Forall_cons in Hcells as [Hk Hcells]. apply Forall_cons in Hkeys as [Hnn Hkeys].
  cbn [map row_matches] in *. rewrite Hk. fold (cell_of rec k).
  destruct (cell_of_is_Some rec k Hnn) as [asked Hasked]. rewrite Hasked in *.
  injection E as -> Hrest. rewrite bool_decide_eq_true_2 by reflexivity.
  now apply IH.
Qed.

Section Versions.
Context (key_fields attribute_fields : list string) (now : string).
Hypothesis columns_distinct : NoDup (map canon (key_fields ++ attribute_fields)).

Lemma versions_length (start : Z) (recs : list record) :
  length (versions key_fields attribute_fields now start recs) = length recs.
Proof. revert start. induction recs as [|r recs IH]; intros start; cbn; [|rewrite IH]; reflexivity. Qed.

Lemma versions_max_id (start : Z) (recs : list record) :
  0 <= start ->
  max_id (versions key_fields attribute_fields now start recs)
  = if is_nil recs then 0 else start + Z.of_nat (length recs).
Proof.
  revert start. induction recs as [|r recs IH]; intros start Hs; [reflexivity|].
  cbn [versions max_id fold_right is_nil]. fold (max_id (versions key_fields attribute_fields
                                                           now (start + 1) recs)).
  rewrite IH by lia. cbn [new_version id length].
  destruct recs; cbn [is_nil length]; lia.
Qed.

Lemma versions_snoc (start : Z) (recs : list record) (rec : record) :
  versions key_fields attribute_fields now start (recs ++ [rec])
  = versions key_fields attribute_fields now start recs
    ++ [new_version key_fields attribute_fields now rec
          (start + Z.of_nat (length recs) + 1)].
Proof.
  revert start. induction recs as [|r recs IH]; intros start; cbn [app versions length].
  - replace (start + Z.of_nat 0 + 1) with (start + 1) by lia. reflexivity.
  - rewrite IH. cbn [app].
    replace (start + 1 + Z.of_nat (length recs) + 1)
      with (start + Z.of_nat (S (length recs)) + 1) by lia.
    reflexivity.
Qed.

Lemma versions_In (start : Z) (recs : list record) (r : row) :
  In r (versions key_fields attribute_fields now start recs) ->
  exists rec i, In rec recs /\ r = new_version key_fields attribute_fields now rec i.
Proof.
  revert start. induction recs as [|rec recs IH]; intros start; cbn [versions]; [intros []|].
  intros [<-|Hin].
  - exists rec, (start + 1). split; [now left|reflexivity].
  - destruct (IH _ Hin) as (rec' & i & Hrec & ->). exists rec', i. split; [now right|reflexivity].
Qed.

Lemma versions_has (start : Z) (recs : list record) (rec : record) :
  In rec recs ->
  exists i, In (new_version key_fields attribute_fields now rec i)
               (versions key_fields attribute_fields now start recs).
Proof.
  revert start. induction recs as [|r recs IH]; intros start; [intros []|].
  intros [->|Hin]; cbn [versions].
  - eexists. now left.
  - destruct (IH (start + 1) Hin) as [i Hi]. exists i. now right.
Qed.

Lemma new_version_cells (rec' : record) (i : Z) :
  Forall (fun k => assoc (canon k) (cells (new_version key_fields attribute_fields now rec' i))
                   = Some (cell_of rec' k)) key_fields.
Proof.
  apply Forall_forall. intros k Hk. cbn [new_version cells].
  apply assoc_tabulated; [exact columns_distinct|]. apply elem_of_app. now left.
Qed.

(** A version that matches the key parameters of a record has the stored key
    of that record. *)
Lemma new_version_matches_key (rec rec' : record) (i : Z) :
  row_matches key_fields (map adapt (map (rec_get rec) key_fields))
    (new_version key_fields attribute_fields now rec' i) = true ->
  key_cells key_fields rec' = key_cells key_fields rec.
Proof. apply row_matches_cells_eq, new_version_cells. Qed.

(** The version of a record matches its own key parameters. *)
Lemma new_version_matches_own (rec : record) (i : Z) :
  Forall (fun k => rec_get rec k <> PNone) key_fields ->
  row_matches key_fields (map adapt (map (rec_get rec) key_fields))
    (new_version key_fields attribute_fields now rec i) = true.
Proof.
  intros Hkeys. apply (row_matches_cells_own _ rec rec); [apply new_version_cells|exact Hkeys|].
  reflexivity.
Qed.
End Versions.

Lemma NoDup_map_inj {A B : Type} (f : A -> B) (l : list A) (x y : A) :
  NoDup (map f l) -> In x l -> In y l -> f x = f y -> x = y.
Proof.
  induction l as [|a l IH]; intros Hnd Hx Hy E; [destruct Hx|].
  cbn [map] in Hnd. apply NoDup_cons in Hnd as [Ha Hnd].
  destruct Hx as [->|Hx], Hy as [->|Hy]; [reflexivity| | |now apply IH].
  - exfalso. apply Ha. rewrite E. apply elem_of_map. now apply list_elem_of_In.
  - exfalso. apply Ha. rewrite <- E. apply elem_of_map. now apply list_elem_of_In.
Qed.

(** A pass that found no current row for the key of its record and returned
    has added a row: the record has its key, and its values could be bound. *)
Lemma upsert_row_returns_storable (t : entity_table) (c : conn) (table : string)
    (key_fields attribute_fields : list string) (now : string) (rec : record)
    (n : Z) (c' : conn) :
  declares t key_fields attribute_fields ->
  NoDup (map canon (key_fields ++ attribute_fields)) ->
  tables (data c) !! canon table = Some t ->
  current_rows key_fields (map adapt (map (rec_get rec) key_fields)) (rows t) = [] ->
  upsert_row table key_fields attribute_fields now rec c = (Returns n, c') ->
  storable key_fields attribute_fields rec.
Proof.
  intros Hdecl Hnd Hpresent Hnone Hrun.
  apply (upsert_row_returns t) in Hrun; [|exact Hpresent].
  rewrite Hnone in Hrun. cbn [latest fmap option_fmap option_map] in Hrun.
  rewrite bool_decide_eq_false_2 in Hrun by discriminate.
  destruct Hrun as (_ & Hbind & Hnn & _).
  split; [|apply Forall_map; exact Hbind].
  rewrite (new_cells_all t key_fields attribute_fields _ Hdecl Hnd) in Hnn
    by (now rewrite !length_map).
  rewrite combine_cells in Hnn. destruct Hdecl as [Hk _]. rewrite Hk in Hnn.
  rewrite Forall_forall in Hnn. apply Forall_forall.
  intros k Hin Hnone'. specialize (Hnn (canon k) (elem_of_map canon _ _ Hin)).
  rewrite (assoc_tabulated (cell_of rec)) in Hnn;
    [|exact Hnd|apply elem_of_app; now left].
  cbn [default] in Hnn. unfold cell_of in Hnn. rewrite Hnone' in Hnn.
  now destruct Hnn.
Qed.

Section TwoPasses.
Context (table : string) (key_fields attribute_fields : list string).
Hypothesis names : well_named table key_fields attribute_fields.

Lemma names_columns_distinct : NoDup (map canon (key_fields ++ attribute_fields)).
Proof. destruct names as (_ & _ & _ & _ & _ & _ & Hnd). now apply NoDup_app in Hnd. Qed.

(** No version of the records done so far is current for the key of a record
    whose stored key differs from theirs. *)
Lemma versions_no_current (now : string) (done : list record) (rec : record)
    (more : list record) :
  NoDup (map (key_cells key_fields) (done ++ rec :: more)) ->
  current_rows key_fields (map adapt (map (rec_get rec) key_fields))
    (versions key_fields attribute_fields now 0 done) = [].
Proof.
  intros Hnd. apply filter_none. intros r Hr.
  apply versions_In in Hr as (rec' & i & Hrec' & ->).
  destruct (row_matches _ _ _) eqn:Em; [|reflexivity]. exfalso.
  apply (new_version_matches_key _ _ _ names_columns_distinct) in Em.
  rewrite map_app in Hnd. apply NoDup_app in Hnd as (_ & Hsep & _).
  apply (Hsep (key_cells key_fields rec')).
  - apply elem_of_map. now apply list_elem_of_In.
  - rewrite Em. apply list_elem_of_here.
Qed.

(** The first call on a fresh table adds one version per record. *)
Lemma first_pass (now : string) (todo : list record) :
  forall (done : list record) (inserted : Z) (c : conn) (t : entity_table),
    tables (data c) !! canon table = Some t ->
    declares t key_fields attribute_fields ->
    rows t = versions key_fields attribute_fields now 0 done ->
    NoDup (map (key_cells key_fields) (done ++ todo)) ->
    Forall (storable key_fields attribute_fields) todo ->
    exists c' t',
      upsert_rows table key_fields attribute_fields now todo inserted c
      = (Returns (inserted + Z.of_nat (length todo)), c')
      /\ tables (data c') !! canon table = Some t'
      /\ declares t' key_fields attribute_fields
      /\ rows t' = versions key_fields attribute_fields now 0 (done ++ todo).
Proof.
  induction todo as [|rec todo IH]; intros done inserted c t Hpresent Hdecl Hrows Hnd Hrecs.
  - exists c, t. cbn [upsert_rows length]. unfold ret. rewrite Z.add_0_r, app_nil_r. auto.
  - apply Forall_cons in Hrecs as [Hrec Hrecs].
    destruct (upsert_row_run t c table key_fields attribute_fields now rec
                names Hpresent Hdecl Hrec) as (c1 & Hrun & Hdata).
    rewrite Hrows, (versions_no_current now done rec todo Hnd) in Hrun, Hdata.
    cbn [latest fmap option_fmap option_map] in Hrun, Hdata.
    rewrite bool_decide_eq_false_2 in Hrun, Hdata by discriminate.
    cbn [after_close] in Hdata. rewrite <- Hrows in Hdata.
    cbn [upsert_rows]. unfold bind. rewrite Hrun.
    destruct (IH (done ++ [rec]) (inserted + 1) c1
                (Table (key_columns t) (attribute_columns t)
                   (rows t ++ [new_version key_fields attribute_fields now rec
                                 (max_id (rows t) + 1)])))
      as (c' & t' & Hloop & Ht' & Hdecl' & Hrows').
    + rewrite Hdata. apply lookup_insert_eq.
    + exact Hdecl.
    + cbn [rows]. rewrite versions_snoc, Hrows, versions_max_id by lia.
      destruct done; cbn [is_nil length]; repeat f_equal; lia.
    + now rewrite <- app_assoc.
    + exact Hrecs.
    + exists c', t'. rewrite <- app_assoc in Hrows'.
      split; [|split; [exact Ht'|split; [exact Hdecl'|exact Hrows']]].
      rewrite Hloop. do 2 f_equal. cbn [length]. lia.
Qed.

(** When the first call on a fresh table returns, the table could take every
    record. *)
Lemma first_pass_returns (now : string) (todo : list record) :
  forall (done : list record) (inserted : Z) (c : conn) (t : entity_table) (n : Z) (c' : conn),
    tables (data c) !! canon table = Some t ->
    declares t key_fields attribute_fields ->
    rows t = versions key_fields attribute_fields now 0 done ->
    NoDup (map (key_cells key_fields) (done ++ todo)) ->
    upsert_rows table key_fields attribute_fields now todo inserted c = (Returns n, c') ->
    Forall (storable key_fields attribute_fields) todo.
Proof.
  induction todo as [|rec todo IH];
    intros done inserted c t n c' Hpresent Hdecl Hrows Hnd Hloop; [constructor|].
  cbn [upsert_rows] in Hloop. unfold bind in Hloop.
  destruct (upsert_row _ _ _ _ _ c) as [[m|] c1] eqn:Hrow; [|discriminate].
  assert (Hnone := versions_no_current now done rec todo Hnd). rewrite <- Hrows in Hnone.
  assert (Hrec : storable key_fields attribute_fields rec).
  { exact (upsert_row_returns_storable t c table key_fields attribute_fields now rec m c1
             Hdecl names_columns_distinct Hpresent Hnone Hrow). }
  constructor; [exact Hrec|].
  destruct (upsert_row_run t c table key_fields attribute_fields now rec
              names Hpresent Hdecl Hrec) as (c1' & Hrun & Hdata).
  rewrite Hrow in Hrun. rewrite Hnone in Hrun, Hdata.
  cbn [latest fmap option_fmap option_map] in Hrun, Hdata.
  rewrite bool_decide_eq_false_2 in Hrun, Hdata by discriminate.
  cbn [after_close] in Hdata. simplify_eq.
  apply (IH (done ++ [rec]) (inserted + 1) c1'
            (Table (key_columns t) (attribute_columns t)
               (rows t ++ [new_version key_fields attribute_fields now rec
                             (max_id (rows t) + 1)])) n c').
  - rewrite Hdata. apply lookup_insert_eq.
  - exact Hdecl.
  - cbn [rows]. rewrite versions_snoc, Hrows, versions_max_id by lia.
    destruct done; cbn [is_nil length]; repeat f_equal; lia.
  - now rewrite <- app_assoc.
  - exact Hloop.
Qed.

(** The same batch again finds every record unchanged. *)
Lemma second_pass (now1 now2 : string) (records todo : list record) :
  forall (inserted : Z) (c : conn) (t : entity_table),
    tables (data c) !! canon table = Some t ->
    declares t key_fields attribute_fields ->
    rows t = versions key_fields attribute_fields now1 0 records ->
    NoDup (map (key_cells key_fields) records) ->
    Forall (storable key_fields attribute_fields) todo ->
    (forall rec, In rec todo -> In rec records) ->
    exists c',
      upsert_rows table key_fields attribute_fields now2 todo inserted c
      = (Returns inserted, c')
      /\ data c' = data c.
Proof.
  induction todo as [|rec todo IH]; intros inserted c t Hpresent Hdecl Hrows Hnd Hrecs Hsub.
  - exists c. auto.
  - apply Forall_cons in Hrecs as [Hrec Hrecs].
    destruct (upsert_row_run t c table key_fields attribute_fields now2 rec
                names Hpresent Hdecl Hrec) as (c1 & Hrun & Hdata).
    assert (Hsame : bool_decide
                      (row_hash <$> latest (current_rows key_fields
                                              (map adapt (map (rec_get rec) key_fields))
                                              (rows t))
                       = Some (_compute_hash rec attribute_fields)) = true).
    { apply bool_decide_eq_true.
      destruct (latest _) as [r|] eqn:Efound.
      - apply latest_In, filter_In in Efound as [Hr Hm].
        apply andb_true_iff in Hm as [Hm _]. rewrite Hrows in Hr.
        apply versions_In in Hr as (rec' & i & Hrec' & ->).
        apply (new_version_matches_key _ _ _ names_columns_distinct) in Hm.
        apply (NoDup_map_inj _ _ _ _ Hnd Hrec') in Hm; [|apply Hsub; now left].
        subst rec'. reflexivity.
      - exfalso. apply latest_nil_inv in Efound.
        destruct (versions_has key_fields attribute_fields now1 0 records rec) as [i Hi];
          [apply Hsub; now left|].
        rewrite <- Hrows in Hi.
        assert (Hin : In (new_version key_fields attribute_fields now1 rec i)
                         (current_rows key_fields (map adapt (map (rec_get rec) key_fields))
                            (rows t))).
        { apply filter_In. split; [exact Hi|]. apply andb_true_iff. split; [|reflexivity].
          apply (new_version_matches_own _ _ _ names_columns_distinct), Hrec. }
        rewrite Efound in Hin. destruct Hin. }
    rewrite Hsame in Hrun, Hdata.
    cbn [upsert_rows]. unfold bind. rewrite Hrun. rewrite Z.add_0_r.
    destruct (IH inserted c1 t) as (c' & Hloop & Hdata'); try assumption.
    + now rewrite Hdata.
    + intros r Hr. apply Hsub. now right.
    + exists c'. split; [exact Hloop|congruence].
Qed.

(** On a fresh table [ensure_scd2_table] returns and leaves the table
    empty, with the columns of the call. *)
Lemma ensure_scd2_table_fresh (c : conn) :
  fresh table key_fields attribute_fields (data c) ->
  exists ce te,
    ensure_scd2_table table key_fields attribute_fields c = (Returns tt, ce)
    /\ tables (data ce) !! canon table = Some te
    /\ declares te key_fields attribute_fields /\ rows te = [].
Proof.
  intros Hfresh. unfold fresh in Hfresh.
  destruct (tables (data c) !! canon table) as [t|] eqn:Et.
  - destruct Hfresh as (Hdecl & _ & Hempty).
    destruct (ensure_scd2_table_present t table key_fields attribute_fields names c Et Hdecl)
      as (ce & Hce & Hdata).
    exists ce, t. rewrite Hdata. auto.
  - destruct (ensure_scd2_table_absent table key_fields attribute_fields c names Et)
      as (ce & Hce & Hdata).
    exists ce, (Table (map canon key_fields) (map canon attribute_fields) []).
    rewrite Hdata. cbn [tables]. rewrite lookup_insert_eq.
    split; [exact Hce|]. split; [reflexivity|]. split; [split|]; reflexivity.
Qed.
End TwoPasses.

Lemma upsert_scd2_unfold (now table : string) (records : list record)
    (key_fields : list string) (attribute_fields : option (list string)) (c : conn) :
  is_nil records = false ->
  let attrs := effective_attribute_fields records key_fields attribute_fields in
  upsert_scd2 now table records key_fields attribute_fields c
  = match ensure_scd2_table table key_fields attrs c with
    | (Returns _, ce) => transaction (upsert_rows table key_fields attrs now records 0) ce
    | (Raises e, ce) => (Raises e, ce)
    end.
Proof. intros Hsome. unfold upsert_scd2, bind. rewrite Hsome. reflexivity. Qed.

(** A batch of new keys that the table can take, applied twice. *)
Lemma upsert_scd2_twice (c : conn) (table : string) (key_fields : list string)
    (attribute_fields : option (list string)) (now1 now2 : string)
    (records : list record) :
  let attrs := effective_attribute_fields records key_fields attribute_fields in
  is_nil records = false ->
  well_named table key_fields attrs ->
  fresh table key_fields attrs (data c) ->
  Forall (storable key_fields attrs) records ->
  NoDup (map (key_cells key_fields) records) ->
  exists c1 c2,
    upsert_scd2 now1 table records key_fields attribute_fields c
    = (Returns (Z.of_nat (length records)), c1)
    /\ length (table_rows table (data c1)) = length records
    /\ upsert_scd2 now2 table records key_fields attribute_fields c1 = (Returns 0, c2)
    /\ data c2 = data c1.
Proof.
  intros attrs Hsome Hnames Hfresh Hrecs Hnd.
  destruct (ensure_scd2_table_fresh table key_fields attrs Hnames c Hfresh)
    as (ce & te & Hce & Hte & Hdecl & Hempty).
  destruct (first_pass table key_fields attrs Hnames now1 records [] 0 ce te
              Hte Hdecl Hempty Hnd Hrecs) as (c1 & t1 & Hloop1 & Ht1 & Hdecl1 & Hrows1).
  cbn [app] in Hrows1. rewrite Z.add_0_l in Hloop1.
  destruct (ensure_scd2_table_present t1 table key_fields attrs Hnames c1 Ht1 Hdecl1)
    as (ce2 & Hce2 & Hdata2).
  destruct (second_pass table key_fields attrs Hnames now1 now2 records records 0 ce2 t1)
    as (c2 & Hloop2 & Hdata3); try assumption; [now rewrite Hdata2|auto|].
  exists c1, c2.
  rewrite !(upsert_scd2_unfold _ _ _ _ _ _ Hsome). fold attrs.
  rewrite Hce, Hce2. unfold transaction. rewrite Hloop1, Hloop2.
  split; [reflexivity|]. split; [|split; [reflexivity|congruence]].
  rewrite (table_rows_present _ _ _ Ht1), Hrows1. apply versions_length.
Qed.

(** When the first call on a fresh table returns, for a batch of new keys,
    the names are well formed and the table could take every record. *)
Lemma upsert_scd2_returns_storable (c : conn) (table : string) (key_fields : list string)
    (attribute_fields : option (list string)) (now : string) (records : list record)
    (n : Z) (c1 : conn) :
  let attrs := effective_attribute_fields records key_fields attribute_fields in
  is_nil records = false ->
  fresh table key_fields attrs (data c) ->
  NoDup (map (key_cells key_fields) records) ->
  upsert_scd2 now table records key_fields attribute_fields c = (Returns n, c1) ->
  well_named table key_fields attrs /\ Forall (storable key_fields attrs) records.
Proof.
  intros attrs Hsome Hfresh Hnd Hcall.
  rewrite (upsert_scd2_unfold _ _ _ _ _ _ Hsome) in Hcall. fold attrs in Hcall.
  destruct (ensure_scd2_table table key_fields attrs c) as [[u|] ce] eqn:Hens;
    [|discriminate].
  assert (Hnames := ensure_scd2_table_returns_well_named _ _ _ _ _ _ Hfresh Hens).
  split; [exact Hnames|].
  destruct (ensure_scd2_table_fresh table key_fields attrs Hnames c Hfresh)
    as (ce' & te & Hce & Hte & Hdecl & Hempty).
  rewrite Hens in Hce. simplify_eq.
  unfold transaction in Hcall.
  destruct (upsert_rows _ _ _ _ _ _ _) as [[m|] cx] eqn:Hloop; [|discriminate].
  exact (first_pass_returns table key_fields attrs Hnames now records [] 0 ce' te m cx
           Hte Hdecl Hempty Hnd Hloop).
Qed.

(** Claim C4, as stated, fails: the key columns are declared TEXT, so an
    integer key and the string of its digits are distinct key tuples and one
    key of the table. The second record of such a batch supersedes the first,
    and the same batch applied again returns 2 and adds two rows more. *)
Lemma upsert_scd2_integer_and_text_key :
  let batch := [ [("tx_id", PInt 1); ("amount", PStr "10")];
                 [("tx_id", PStr "1"); ("amount", PStr "25")] ]%string in
  let first := upsert_scd2 day1 "transactions" batch ["tx_id"]%string None adapter in
  let second := upsert_scd2 day2 "transactions" batch ["tx_id"]%string None (snd first) in
  NoDup (map (fun rec => map (rec_get rec) ["tx_id"]%string) batch)
  /\ table_rows "transactions" (data adapter) = []
  /\ fst first = Returns 2
  /\ length (table_rows "transactions" (data (snd first))) = 2%nat
  /\ fst second = Returns 2
  /\ fst second <> Returns 0
  /\ length (table_rows "transactions" (data (snd second))) = 4%nat.
Proof.
  cbv zeta. split.
  { apply NoDup_cons. split; [|apply NoDup_singleton].
    intros H. apply list_elem_of_singleton in H. discriminate. }
  repeat split; try (vm_compute; reflexivity). vm_compute. discriminate.
Qed.

(** Batches the table refuses: a key value that is [None] breaks the NOT NULL
    constraint of its column, and a record with no field but its key leaves
    the column list of CREATE TABLE with a stray comma. *)
Lemma upsert_scd2_refused_batches :
  fst (upsert_scd2 day1 "accounts" [[("account_id", PNone); ("balance", PStr "100")]]%string
         ["account_id"]%string None adapter) = Raises IntegrityError
  /\ fst (upsert_scd2 day1 "accounts" [[("account_id", PStr "A1")]]%string
            ["account_id"]%string None adapter) = Raises OperationalError.
Proof. split; vm_compute; reflexivity. Qed.

(** Claim C4, amended. On an adapter in use, a batch of N records whose keys
    are pairwise distinct as the table stores them is applied, with bare
    names, to a fresh table. When the call returns, it returns N and leaves N
    rows, and the same batch applied again at once returns 0 and leaves the
    table, and the whole database, as the first call left them. The first
    call does return when the names are well formed and every record can be
    stored: its key fields have values other than [None], and the integers
    among its key and attribute values fit 64 bits. *)
Theorem upsert_scd2_idempotent (c : conn) (table : string) (key_fields : list string)
    (attribute_fields : option (list string)) (now1 now2 : string)
    (records : list record) :
  let attrs := effective_attribute_fields records key_fields attribute_fields in
  in_use c ->
  bare_names table (key_fields ++ attrs) ->
  fresh table key_fields attrs (data c) ->
  NoDup (map (key_cells key_fields) records) ->
  (forall n c1,
      upsert_scd2 now1 table records key_fields attribute_fields c = (Returns n, c1) ->
      n = Z.of_nat (length records)
      /\ length (table_rows table (data c1)) = length records
      /\ exists c2,
           upsert_scd2 now2 table records key_fields attribute_fields c1 = (Returns 0, c2)
           /\ table_rows table (data c2) = table_rows table (data c1)
           /\ data c2 = data c1)
  /\ (well_named table key_fields attrs ->
      Forall (storable key_fields attrs) records ->
      exists c1,
        upsert_scd2 now1 table records key_fields attribute_fields c
        = (Returns (Z.of_nat (length records)), c1)).
Proof.
  intros attrs _ _ Hfresh Hnd.
  destruct (is_nil records) eqn:Hsome.
  { destruct records; [|discriminate].
    assert (Hnone : table_rows table (data c) = []).
    { unfold fresh in Hfresh. unfold table_rows, rows_at.
      destruct (tables (data c) !! canon table) as [t|]; [|reflexivity].
      destruct Hfresh as (_ & _ & Hempty). exact Hempty. }
    split.
    - intros n c1 Hcall. cbn in Hcall. unfold ret in Hcall. simplify_eq.
      rewrite Hnone. split; [reflexivity|]. split; [reflexivity|].
      exists c1. rewrite Hnone. auto.
    - intros _ _. exists c. reflexivity. }
  split.
  - intros n c1 Hcall.
    destruct (upsert_scd2_returns_storable c table key_fields attribute_fields now1
                records n c1 Hsome Hfresh Hnd Hcall) as [Hnames Hrecs].
    destruct (upsert_scd2_twice c table key_fields attribute_fields now1 now2 records
                Hsome Hnames Hfresh Hrecs Hnd) as (c1' & c2 & Hfirst & Hlen & Hsecond & Hdata).
    rewrite Hcall in Hfirst. simplify_eq.
    split; [reflexivity|]. split; [exact Hlen|].
    exists c2. split; [exact Hsecond|]. split; [now rewrite Hdata|exact Hdata].
  - intros Hnames Hrecs.
    destruct (upsert_scd2_twice c table key_fields attribute_fields now1 now2 records
                Hsome Hnames Hfresh Hrecs Hnd) as (c1 & _ & Hfirst & _).
    exists c1. exact Hfirst.
Qed.

(** ** The scenario of the specification, as instances *)

Lemma accounts_well_named : well_named "accounts" ["account_id"]%string ["balance"]%string.
Proof.
  repeat split; try reflexivity; try (vm_compute; discriminate).
  by_computation.
Qed.

Lemma account_storable (account_id balance : string) :
  storable ["account_id"]%string ["balance"]%string (account account_id balance).
Proof. split; repeat constructor; vm_compute; discriminate. Qed.

Lemma upsert_scd2_supersedes_witness :
  exists c',
    upsert_scd2 day2 "accounts" [account "A1" "200"] ["account_id"]%string
      (Some ["balance"]%string) accounts_day1 = (Returns 1, c')
    /\ supersedes day2 accounts_day1_row
         [("account_id", Some "A1"); ("balance", Some "200")]%string (Sha256.hexdigest "200")
         [accounts_day1_row] (table_rows "accounts" (data c')).
Proof.
  destruct (upsert_scd2_supersedes accounts_day1_table accounts_day1 "accounts"
              ["account_id"]%string ["balance"]%string day2 (account "A1" "200")
              accounts_day1_row) as (_ & Hcall & Hreturns).
  - exact accounts_day1_in_use.
  - exact accounts_bare.
  - vm_compute. reflexivity.
  - left. reflexivity.
  - reflexivity.
  - apply has_key_row_matches. vm_compute. reflexivity.
  - intros r [<-|[]] _ _. reflexivity.
  - vm_compute. discriminate.
  - destruct Hreturns as [_ [c' Hc']].
    + exact accounts_well_named.
    + split; reflexivity.
    + apply account_storable.
    + exists c'. split; [exact Hc'|].
      apply (Hcall 1 c'); [discriminate|exact Hc'].
Defined.

Lemma upsert_scd2_idempotent_witness :
  let batch := [account "A1" "100"; account "A2" "250"] in
  exists c1 c2,
    upsert_scd2 day1 "accounts" batch ["account_id"]%string None adapter = (Returns 2, c1)
    /\ length (table_rows "accounts" (data c1)) = 2%nat
    /\ upsert_scd2 day2 "accounts" batch ["account_id"]%string None c1 = (Returns 0, c2)
    /\ table_rows "accounts" (data c2) = table_rows "accounts" (data c1)
    /\ data c2 = data c1.
Proof.
  intros batch.
  destruct (upsert_scd2_idempotent adapter "accounts" ["account_id"]%string None
              day1 day2 batch) as (Htwice & Hreturns).
  - exact adapter_in_use.
  - exact accounts_bare.
  - vm_compute. exact I.
  - by_computation.
  - destruct Hreturns as [c1 Hc1].
    + exact accounts_well_named.
    + constructor; [apply account_storable|].
      constructor; [apply account_storable|]. constructor.
    + destruct (Htwice _ _ Hc1) as (_ & Hlen & c2 & Hsecond & Hrows & Hdata).
      exists c1, c2. auto.
Defined.

(** * Further properties of the adapter *)

(** ** Logging and reading back *)







(** ** What one pass of the loop does to the rows *)

Lemma closed_in_close_rows (table now : string) (target : Z) (rs : list row) :
  map (closed_in table now target (canon table)) rs = close_rows now target rs.
Proof.
  unfold close_rows. apply map_ext. intros r. unfold closed_in.
  destruct (decide (id r = target)); destruct (decide (_ /\ _)); tauto || reflexivity.
Qed.

Lemma current_rows_In (key_fields : list string) (q : list sqlval) (rs : list row) (r : row) :
  In r (current_rows key_fields q rs) ->
  In r rs /\ row_matches key_fields q r = true /\ is_current r = 1.
Proof.
  intros [Hin Hm]%filter_In. apply andb_true_iff in Hm as [Hm Hc].
  apply Z.eqb_eq in Hc. auto.
Qed.

(** Whether it returns or raises, a pass leaves the rows of its table as
    [one_pass] says. *)
Lemma upsert_row_effect (table : string) (key_fields attribute_fields : list string)
    (now : string) (rec : record) (c : conn) :
  one_pass now (table_rows table (data c))
    (table_rows table
       (data (snd (upsert_row table key_fields attribute_fields now rec c)))).
Proof.
  unfold upsert_row, bind, lift.
  destruct (key_values_of rec key_fields) as [vs|e]; [|now left].
  unfold execute at 1.
  pose proof (exec_select_current_cases table key_fields vs (data c)) as Hsel.
  destruct (exec_select_current table key_fields vs (data c)) as [[found s]|e];
    [|now left].
  destruct Hsel as [-> (own & _ & ->)].
  destruct (bool_decide _); [now left|].
  destruct (latest _) as [cur|] eqn:Efound.
  - apply latest_In, current_rows_In in Efound as (Hin & _ & Hcur).
    unfold execute at 1. cbn [data].
    pose proof (exec_close_cases table now (id cur) (data c)) as Hc.
    destruct (exec_close table now (id cur) (data c)) as [[[] s1]|e]; [|now left].
    destruct Hc as [_ Hr1]. specialize (Hr1 (canon table)).
    rewrite closed_in_close_rows in Hr1.
    unfold execute. cbn [data].
    match goal with
    | |- context [exec_insert ?t ?cols ?n ?up ?h ?ps s1] =>
        pose proof (exec_insert_cases t cols n up h ps s1) as Hi;
        destruct (exec_insert t cols n up h ps s1) as [[[] s2]|e]
    end.
    + destruct Hi as (_ & t1 & bound & Ht1 & _ & Hr2). specialize (Hr2 (canon table)).
      rewrite decide_True in Hr2 by reflexivity.
      assert (Hrows1 : rows t1 = close_rows now (id cur) (table_rows table (data c))).
      { unfold table_rows. rewrite <- Hr1. unfold rows_at. now rewrite Ht1. }
      right. left. exists cur. split; [exact Hin|]. split; [exact Hcur|]. right.
      eexists _, _. cbn [snd data ret]. unfold table_rows at 1. rewrite Hr2, Hrows1.
      rewrite max_id_close_rows. reflexivity.
    + right. left. exists cur. split; [exact Hin|]. split; [exact Hcur|]. left.
      cbn [snd data]. exact Hr1.
  - unfold ret at 1. unfold execute. cbn [data].
    match goal with
    | |- context [exec_insert ?t ?cols ?n ?up ?h ?ps ?s0] =>
        pose proof (exec_insert_cases t cols n up h ps s0) as Hi;
        destruct (exec_insert t cols n up h ps s0) as [[[] s2]|e]
    end; [|now left].
    destruct Hi as (_ & t & bound & Ht & _ & Hr2). specialize (Hr2 (canon table)).
    rewrite decide_True in Hr2 by reflexivity.
    right. right. eexists _, _. cbn [snd data ret]. unfold table_rows at 1.
    rewrite Hr2. unfold table_rows, rows_at. rewrite Ht. reflexivity.
Qed.

(** A property of the rows of every table that [one_pass] keeps is kept by
    every call of [upsert_scd2]. *)
Lemma upsert_scd2_keeps_rows (P : list row -> Prop) (now table : string)
    (records : list record) (key_fields : list string)
    (attribute_fields : option (list string)) (c : conn) :
  (forall rs rs', one_pass now rs rs' -> P rs -> P rs') ->
  (forall key, P (rows_at key (data c))) ->
  forall key,
    P (rows_at key (data (snd (upsert_scd2 now table records key_fields attribute_fields c)))).
Proof.
  intros Hpass.
  apply (upsert_scd2_keeps (fun s s' => (forall key, P (rows_at key s)) ->
                                       forall key, P (rows_at key s'))).
  - auto.
  - auto.
  - intros s s' [_ Hr] H key. rewrite Hr. apply H.
  - intros attrs rec c0 H key.
    destruct (decide (key = canon table)) as [->|Hne].
    + eapply Hpass; [apply (upsert_row_effect table key_fields attrs now rec c0)|apply H].
    + rewrite (proj2 (upsert_row_others_untouched table key_fields attrs now rec c0) key Hne).
      apply H.
Qed.

(** What a call can do to the history: nothing, or add one event numbered
    one more than the largest identifier. *)
Lemma perform_history (c : conn) (op : operation) :
  history (data (perform c op)) = history (data c)
  \/ exists e, history (data (perform c op)) = history (data c) ++ [e]
               /\ h_id e = max_h_id (history (data c)) + 1.
Proof.
  destruct op; cbn [perform].
  - now left.
  - unfold log_history, transaction, execute, exec_insert_history.
    destruct (bind_values _); cbn [snd data history]; [|now left].
    right. eexists. split; reflexivity.
  - left. now rewrite fetch_history_same_data.
  - left. apply (proj1 (ensure_scd2_table_same_rows _ _ _ c)).
  - left.
    assert (H : others_untouched table (data c)
                  (data (snd (upsert_scd2 now table records key_fields attribute_fields c)))).
    { apply (upsert_scd2_keeps (others_untouched table)).
      - apply others_untouched_refl.
      - apply others_untouched_trans.
      - intros s s' [Hh Hr]. split; [exact Hh|]. intros k _. apply Hr.
      - intros attrs rec. apply upsert_row_others_untouched. }
    apply (proj1 H).
Qed.

(** What a call can do to the rows of a table: [log_history] and
    [fetch_history] nothing, [ensure_scd2_table] nothing, [upsert_scd2] what
    keeps every property that [one_pass] keeps. *)
Lemma perform_keeps_rows (P : list row -> Prop) (c : conn) (op : operation) :
  (forall now rs rs', one_pass now rs rs' -> P rs -> P rs') ->
  (forall key, P (rows_at key (data c))) ->
  forall key, P (rows_at key (data (perform c op))).
Proof.
  intros Hpass H. destruct op; cbn [perform].
  - exact H.
  - intros key.
    assert (E : tables (data (snd (log_history now job event stat started ended duration
                                     count det c))) = tables (data c)).
    { unfold log_history, transaction, execute, exec_insert_history.
      destruct (bind_values _); reflexivity. }
    unfold rows_at. rewrite E. apply H.
  - rewrite fetch_history_same_data. exact H.
  - intros key. rewrite (proj2 (ensure_scd2_table_same_rows _ _ _ c)). apply H.
  - apply upsert_scd2_keeps_rows; [apply Hpass|exact H].
Qed.

Lemma reached_keeps_rows (P : list row -> Prop) (ops : list operation) :
  (forall now rs rs', one_pass now rs rs' -> P rs -> P rs') ->
  P [] ->
  forall key, P (rows_at key (data (fold_left perform ops adapter))).
Proof.
  intros Hpass Hnil.
  assert (H : forall c, (forall key, P (rows_at key (data c))) ->
                        forall key, P (rows_at key (data (fold_left perform ops c)))).
  { induction ops as [|op ops IH]; intros c Hc; [exact Hc|].
    cbn [fold_left]. apply IH. now apply perform_keeps_rows. }
  apply H. intros key. exact Hnil.
Qed.

(** ** What holds of every adapter in use *)

Lemma max_first_ids (n : nat) : fold_right Z.max 0 (first_ids n) = Z.of_nat n.
Proof.
  unfold first_ids.
  assert (H : forall a, fold_right Z.max 0 (map Z.of_nat (seq a n))
                        = match n with O => 0 | S _ => Z.of_nat (a + n - 1) end).
  { induction n as [|n IH]; intros a; [reflexivity|].
    cbn [seq map fold_right]. rewrite IH. destruct n; lia. }
  rewrite H. destruct n; lia.
Qed.

Lemma first_ids_S (n : nat) : first_ids (S n) = first_ids n ++ [Z.of_nat n + 1].
Proof.
  unfold first_ids. rewrite seq_S, map_app. cbn [map]. do 2 f_equal. lia.
Qed.

Lemma max_h_id_map (es : list history_event) :
  max_h_id es = fold_right Z.max 0 (map h_id es).
Proof. induction es as [|e es IH]; [reflexivity|]. cbn. now rewrite <- IH. Qed.

Lemma max_id_map (rs : list row) : max_id rs = fold_right Z.max 0 (map id rs).
Proof. induction rs as [|r rs IH]; [reflexivity|]. cbn. now rewrite <- IH. Qed.

Lemma map_id_close_rows (now : string) (target : Z) (rs : list row) :
  map id (close_rows now target rs) = map id rs.
Proof.
  unfold close_rows. rewrite map_map. apply map_ext. intros r.
  now destruct (decide (id r = target)).
Qed.

(** X3. On an adapter in use the identifiers of the history are 1, 2, ...,
    n in the order of logging, whatever calls were made and whether they
    returned or raised: the k-th event logged has the identifier k. *)
Theorem history_ids_count_events (ops : list operation) :
  let logged := history (data (fold_left perform ops adapter)) in
  map h_id logged = first_ids (length logged).
Proof.
  cbv zeta.
  assert (H : forall c,
            map h_id (history (data c)) = first_ids (length (history (data c))) ->
            map h_id (history (data (fold_left perform ops c)))
            = first_ids (length (history (data (fold_left perform ops c))))).
  { induction ops as [|op ops IH]; intros c Hc; [exact Hc|].
    cbn [fold_left]. apply IH.
    destruct (perform_history c op) as [->|(e & -> & He)]; [exact Hc|].
    rewrite map_app, length_app, Nat.add_comm. cbn [map length Nat.add].
    rewrite first_ids_S, Hc, He, max_h_id_map, Hc, max_first_ids. reflexivity. }
  apply H. reflexivity.
Qed.

Lemma one_pass_ids (now : string) (rs rs' : list row) :
  one_pass now rs rs' ->
  map id rs = first_ids (length rs) -> map id rs' = first_ids (length rs').
Proof.
  intros Hpass Hids.
  assert (Hadd : forall l cs digest,
            map id l = first_ids (length l) -> max_id l = max_id rs ->
            map id (l ++ [Row (max_id rs + 1) cs now sentinel 1 digest])
            = first_ids (length (l ++ [Row (max_id rs + 1) cs now sentinel 1 digest]))).
  { intros l cs digest Hl Hmax.
    rewrite map_app, length_app, Nat.add_comm. cbn [map length Nat.add id].
    rewrite first_ids_S, Hl, <- Hmax, max_id_map, Hl, max_first_ids. reflexivity. }
  assert (Hclosed : forall target,
            map id (close_rows now target rs)
            = first_ids (length (close_rows now target rs))).
  { intros target. rewrite map_id_close_rows.
    unfold close_rows. now rewrite length_map. }
  destruct Hpass as [->|[(cur & _ & _ & [->|(cs & digest & ->)])|(cs & digest & ->)]].
  - exact Hids.
  - apply Hclosed.
  - apply Hadd; [apply Hclosed|apply max_id_close_rows].
  - now apply Hadd.
Qed.

(** X4. On an adapter in use the rows of every entity table are numbered 1,
    2, ..., n in the order of insertion, whatever calls were made and whether
    they returned or raised: a call that raises, and is rolled back, uses up
    no identifier. The calls name bare names. *)
Theorem row_ids_count_rows (ops : list operation) (table : string) :
  Forall bare ops ->
  let stored := table_rows table (data (fold_left perform ops adapter)) in
  map id stored = first_ids (length stored).
Proof.
  intros _. cbv zeta. unfold table_rows.
  apply (reached_keeps_rows (fun rs => map id rs = first_ids (length rs))).
  - intros now rs rs'. apply one_pass_ids.
  - reflexivity.
Qed.

Lemma one_pass_open_ended (now : string) (rs rs' : list row) :
  one_pass now rs rs' -> Forall open_ended rs -> Forall open_ended rs'.
Proof.
  intros Hpass Hrs.
  assert (Hclosed : forall target, Forall open_ended (close_rows now target rs)).
  { intros target. unfold close_rows. apply Forall_forall. intros r' Hr'.
    apply list_elem_of_In, in_map_iff in Hr' as (r & <- & Hr).
    destruct (decide (id r = target)); [now right|].
    rewrite Forall_forall in Hrs. apply Hrs. now apply list_elem_of_In. }
  assert (Hnew : forall cs digest,
            open_ended (Row (max_id rs + 1) cs now sentinel 1 digest)).
  { intros cs digest. left. split; reflexivity. }
  destruct Hpass as [->|[(cur & _ & _ & [->|(cs & digest & ->)])|(cs & digest & ->)]].
  - exact Hrs.
  - apply Hclosed.
  - apply Forall_app. split; [apply Hclosed|]. constructor; [apply Hnew|constructor].
  - apply Forall_app. split; [exact Hrs|]. constructor; [apply Hnew|constructor].
Qed.

Lemma row_ids_count_rows_witness :
  map id (table_rows "accounts" (data accounts_day1)) = [1].
Proof.
  apply (row_ids_count_rows
           [UpsertScd2 day1 "accounts" [account "A1" "100"] ["account_id"]%string None]
           "accounts").
  constructor; [exact accounts_bare|constructor].
Defined.

(** X5. On an adapter in use every row of every entity table is either
    current, with [is_current] 1 and [valid_to] the sentinel
    9999-12-31T00:00:00+00:00, or closed, with [is_current] 0. The calls
    name bare names. *)
Theorem rows_current_or_closed (ops : list operation) (table : string) (r : row) :
  Forall bare ops ->
  In r (table_rows table (data (fold_left perform ops adapter))) ->
  (is_current r = 1 /\ valid_to r = "9999-12-31T00:00:00+00:00"%string)
  \/ is_current r = 0.
Proof.
  intros _ Hin.
  pose proof (reached_keeps_rows (Forall open_ended) ops one_pass_open_ended
                ltac:(constructor) (canon table)) as H.
  rewrite Forall_forall in H. apply (H r). now apply list_elem_of_In.
Qed.

Lemma rows_current_or_closed_witness :
  (is_current accounts_day1_row = 1
   /\ valid_to accounts_day1_row = "9999-12-31T00:00:00+00:00"%string)
  \/ is_current accounts_day1_row = 0.
Proof.
  apply (rows_current_or_closed
           [UpsertScd2 day1 "accounts" [account "A1" "100"] ["account_id"]%string None]
           "accounts" accounts_day1_row).
  - constructor; [exact accounts_bare|constructor].
  - vm_compute. now left.
Defined.

Lemma first_ids_bounds (n : nat) (z : Z) : In z (first_ids n) -> 1 <= z <= Z.of_nat n.
Proof.
  unfold first_ids. intros (k & <- & Hk)%in_map_iff. apply in_seq in Hk. lia.
Qed.

Lemma first_ids_NoDup (n : nat) : NoDup (first_ids n).
Proof.
  induction n as [|n IH]; [constructor|].
  rewrite first_ids_S. apply NoDup_app. split; [exact IH|]. split; [|apply NoDup_singleton].
  intros z Hz Hz'. apply list_elem_of_In, first_ids_bounds in Hz.
  apply list_elem_of_singleton in Hz'. lia.
Qed.

(** A pass leaves the closed rows as they are, in a table whose rows are
    numbered apart. *)
(** On an adapter in use the rows of a table are numbered 1, 2, ..., n. *)
Lemma in_use_ids (c : conn) (table : string) :
  in_use c ->
  map id (table_rows table (data c)) = first_ids (length (table_rows table (data c))).
Proof.
  intros (ops & _ & ->). unfold table_rows.
  apply (reached_keeps_rows (fun rs => map id rs = first_ids (length rs))).
  - intros now rs rs'. apply one_pass_ids.
  - reflexivity.
Qed.

Lemma in_use_ids_NoDup (c : conn) (table : string) :
  in_use c -> NoDup (map id (table_rows table (data c))).
Proof. intros Hc. rewrite (in_use_ids c table Hc). apply first_ids_NoDup. Qed.

Lemma one_pass_closed_kept (now : string) (rs rs' : list row) (r : row) :
  one_pass now rs rs' -> NoDup (map id rs) ->
  In r rs -> is_current r = 0 -> In r rs'.
Proof.
  intros Hpass Hnd Hin Hclosed.
  assert (Hkept : forall cur, In cur rs -> is_current cur = 1 ->
                              In r (close_rows now (id cur) rs)).
  { intros cur Hcur Hone. unfold close_rows. apply in_map_iff. exists r.
    split; [|exact Hin]. destruct (decide (id r = id cur)) as [E|_]; [|reflexivity].
    apply (NoDup_map_inj id rs r cur Hnd Hin Hcur) in E. subst cur. lia. }
  destruct Hpass as [->|[(cur & Hcur & Hone & [->|(cs & digest & ->)])|(cs & digest & ->)]].
  - exact Hin.
  - now apply Hkept.
  - apply in_or_app. left. now apply Hkept.
  - apply in_or_app. now left.
Qed.

Lemma perform_closed_kept (c : conn) (op : operation) :
  (forall key, map id (rows_at key (data c)) = first_ids (length (rows_at key (data c)))) ->
  forall key r, In r (rows_at key (data c)) -> is_current r = 0 ->
                In r (rows_at key (data (perform c op))).
Proof.
  intros Hids.
  assert (Hsame : forall s', (forall key, rows_at key s' = rows_at key (data c)) ->
                             forall key r, In r (rows_at key (data c)) -> is_current r = 0 ->
                                           In r (rows_at key s')).
  { intros s' E key r Hin _. now rewrite E. }
  destruct op; cbn [perform].
  - apply Hsame. reflexivity.
  - apply Hsame. intros key.
    assert (E : tables (data (snd (log_history now job event stat started ended duration
                                     count det c))) = tables (data c)).
    { unfold log_history, transaction, execute, exec_insert_history.
      destruct (bind_values _); reflexivity. }
    unfold rows_at. now rewrite E.
  - apply Hsame. intros key. now rewrite fetch_history_same_data.
  - apply Hsame. apply (proj2 (ensure_scd2_table_same_rows _ _ _ c)).
  - set (Inv := fun s => forall key, map id (rows_at key s) = first_ids (length (rows_at key s))).
    assert (H : Inv (data c) ->
                Inv (data (snd (upsert_scd2 now table records key_fields attribute_fields c)))
                /\ forall key r, In r (rows_at key (data c)) -> is_current r = 0 ->
                     In r (rows_at key
                             (data (snd (upsert_scd2 now table records key_fields
                                           attribute_fields c))))).
    { apply (upsert_scd2_keeps
               (fun s s' => Inv s ->
                            Inv s' /\ forall key r, In r (rows_at key s) -> is_current r = 0 ->
                                                    In r (rows_at key s'))).
      - auto.
      - intros s1 s2 s3 H12 H23 H1. destruct (H12 H1) as [H2 K12].
        destruct (H23 H2) as [H3 K23]. split; [exact H3|]. auto.
      - intros s s' [_ Hr] H. split.
        + intros key. rewrite Hr. apply H.
        + intros key r. now rewrite Hr.
      - intros attrs rec c0 H0.
        pose proof (upsert_row_effect table key_fields attrs now rec c0) as Hpass.
        pose proof (proj2 (upsert_row_others_untouched table key_fields attrs now rec c0))
          as Hothers.
        split.
        + intros key. destruct (decide (key = canon table)) as [->|Hne].
          * eapply one_pass_ids; [exact Hpass|apply H0].
          * rewrite (Hothers key Hne). apply H0.
        + intros key r Hin Hclosed. destruct (decide (key = canon table)) as [->|Hne].
          * eapply one_pass_closed_kept; [exact Hpass| |exact Hin|exact Hclosed].
            unfold table_rows. rewrite H0. apply first_ids_NoDup.
          * now rewrite (Hothers key Hne). }
    exact (proj2 (H Hids)).
Qed.

(** X6. A closed row is never written again: a row with [is_current] 0 on an
    adapter in use is found unchanged in its table after any further calls,
    whether they return or raise. The calls name bare names. *)
Theorem closed_row_is_final (before after : list operation) (table : string) (r : row) :
  Forall bare (before ++ after) ->
  let c := fold_left perform before adapter in
  In r (table_rows table (data c)) -> is_current r = 0 ->
  In r (table_rows table (data (fold_left perform after c))).
Proof.
  intros _ c Hin Hclosed. unfold table_rows in *.
  assert (Hids : forall key, map id (rows_at key (data c))
                             = first_ids (length (rows_at key (data c)))).
  { intros key. subst c.
    apply (reached_keeps_rows (fun rs => map id rs = first_ids (length rs)));
      [intros now rs rs'; apply one_pass_ids|reflexivity]. }
  clearbody c. revert c Hin Hids.
  induction after as [|op after IH]; intros c Hin Hids; [exact Hin|].
  cbn [fold_left]. apply IH.
  - now apply perform_closed_kept.
  - apply (perform_keeps_rows (fun rs => map id rs = first_ids (length rs)));
      [intros now rs rs'; apply one_pass_ids|exact Hids].
Qed.

Lemma closed_row_is_final_witness :
  In (close_row day2 accounts_day1_row)
     (table_rows "accounts"
        (data (fold_left perform
                 [UpsertScd2 "2024-05-03T09:00:00+00:00" "accounts" [account "A1" "300"]
                    ["account_id"]%string None]
                 (fold_left perform
                    [UpsertScd2 day1 "accounts" [account "A1" "100"] ["account_id"]%string None;
                     UpsertScd2 day2 "accounts" [account "A1" "200"] ["account_id"]%string None]
                    adapter)))).
Proof.
  apply (closed_row_is_final
           [UpsertScd2 day1 "accounts" [account "A1" "100"] ["account_id"]%string None;
            UpsertScd2 day2 "accounts" [account "A1" "200"] ["account_id"]%string None]
           [UpsertScd2 "2024-05-03T09:00:00+00:00" "accounts" [account "A1" "300"]
              ["account_id"]%string None]
           "accounts" (close_row day2 accounts_day1_row)).
  - repeat (constructor; [exact accounts_bare|]). constructor.
  - vm_compute. now left.
  - reflexivity.
Defined.

(** X7. Every call keeps to its own table. [fetch_history] and
    [ensure_history_schema] change nothing in the database; [log_history]
    changes no entity table; [ensure_scd2_table] changes no event of the
    history and no row of any table; [upsert_scd2] changes no event of the
    history and no row of any table but its own. This holds whether the call
    returns or raises, for a call that names bare names. *)
Theorem calls_keep_to_their_table (c : conn) (op : operation) :
  bare op ->
  let s := data c in
  let s' := data (perform c op) in
  match op with
  | EnsureHistorySchema | FetchHistory _ => s' = s
  | LogHistory _ _ _ _ _ _ _ _ _ => tables s' = tables s
  | EnsureScd2Table _ _ _ =>
      history s' = history s /\ forall other, table_rows other s' = table_rows other s
  | UpsertScd2 _ table _ _ _ =>
      history s' = history s
      /\ forall other, canon other <> canon table -> table_rows other s' = table_rows other s
  end.
Proof.
  intros _. destruct op; cbn [perform]; cbv zeta.
  - reflexivity.
  - unfold log_history, transaction, execute, exec_insert_history.
    destruct (bind_values _); reflexivity.
  - apply fetch_history_same_data.
  - destruct (ensure_scd2_table_same_rows table key_fields attribute_fields c) as [Hh Hr].
    split; [exact Hh|]. intros other. apply Hr.
  - assert (H : others_untouched table (data c)
                  (data (snd (upsert_scd2 now table records key_fields attribute_fields c)))).
    { apply (upsert_scd2_keeps (others_untouched table)).
      - apply others_untouched_refl.
      - apply others_untouched_trans.
      - intros s s' [Hh Hr]. split; [exact Hh|]. intros k _. apply Hr.
      - intros attrs rec. apply upsert_row_others_untouched. }
    destruct H as [Hh Hr]. split; [exact Hh|]. intros other Hother. now apply Hr.
Qed.

Lemma calls_keep_to_their_table_witness :
  let s' := data (perform two_events
                    (UpsertScd2 day1 "accounts" [account "A1" "100"] ["account_id"]%string
                       None)) in
  history s' = history (data two_events)
  /\ forall other, canon other <> canon "accounts" ->
                   table_rows other s' = table_rows other (data two_events).
Proof.
  apply (calls_keep_to_their_table two_events
           (UpsertScd2 day1 "accounts" [account "A1" "100"] ["account_id"]%string None)).
  exact accounts_bare.
Defined.


(** ** Creating the table of an entity *)

(** X8. [ensure_scd2_table] never alters a table that exists: whatever
    fields it is called with, and whether it returns or raises, the database
    is left as it was. No column is added for a field the table lacks. *)
Theorem ensure_scd2_table_keeps_existing_table (table : string)
    (key_fields attribute_fields : list string) (c : conn) (t : entity_table) :
  tables (data c) !! canon table = Some t ->
  data (snd (ensure_scd2_table table key_fields attribute_fields c)) = data c.
Proof.
  intros Ht. unfold ensure_scd2_table, bind, execute.
  pose proof (exec_create_table_cases table key_fields attribute_fields (data c)) as H1.
  destruct (exec_create_table _ _ _ _) as [[u1 s1]|]; [|reflexivity].
  destruct H1 as [->|[Hnone _]]; [|congruence].
  cbn [data].
  pose proof (exec_create_key_index_cases table key_fields (data c)) as H2.
  destruct (exec_create_key_index _ _ _) as [[u2 s2]|]; [|reflexivity].
  subst s2. cbn [data].
  pose proof (exec_create_current_index_cases table (data c)) as H3.
  destruct (exec_create_current_index _ _) as [[u3 s3]|]; [|reflexivity].
  now subst s3.
Qed.

Lemma ensure_scd2_table_keeps_existing_table_witness :
  data (snd (ensure_scd2_table "accounts" ["account_id"]%string ["balance"; "owner"]%string
               accounts_day1))
  = data accounts_day1.
Proof.
  apply (ensure_scd2_table_keeps_existing_table "accounts" ["account_id"]%string
           ["balance"; "owner"]%string accounts_day1 accounts_day1_table).
  vm_compute. reflexivity.
Defined.

(** X9. [ensure_scd2_table] can be repeated: when a call returns, the same
    call made again returns too and changes nothing. *)
Theorem ensure_scd2_table_twice (table : string) (key_fields attribute_fields : list string)
    (c c1 : conn) (u : unit) :
  ensure_scd2_table table key_fields attribute_fields c = (Returns u, c1) ->
  exists c2,
    ensure_scd2_table table key_fields attribute_fields c1 = (Returns tt, c2)
    /\ data c2 = data c1.
Proof.
  intros E. unfold ensure_scd2_table, bind, execute in E.
  destruct (exec_create_table table key_fields attribute_fields (data c))
    as [[u1 s1]|] eqn:E1; [|discriminate].
  cbn [data] in E.
  destruct (exec_create_key_index table key_fields s1) as [[u2 s2]|] eqn:E2; [|discriminate].
  pose proof (exec_create_key_index_cases table key_fields s1) as H2.
  rewrite E2 in H2. subst s2. cbn [data] in E.
  destruct (exec_create_current_index table s1) as [[u3 s3]|] eqn:E3; [|discriminate].
  pose proof (exec_create_current_index_cases table s1) as H3.
  rewrite E3 in H3. subst s3. destruct u, u1, u2, u3. simplify_eq. cbn [data] in *.
  assert (E1' : exec_create_table table key_fields attribute_fields s1 = Returns (tt, s1)).
  { unfold exec_create_table in *.
    destruct (negb _); [discriminate|].
    destruct (internal_name table); [discriminate|].
    unfold exec_create_current_index in E3.
    destruct (negb (sql_ident table)); [discriminate|].
    destruct (decide (canon table = history_table_name)); [discriminate|].
    destruct (tables s1 !! canon table); [reflexivity|discriminate]. }
  unfold ensure_scd2_table, bind, execute. cbn [data].
  rewrite E1'. cbn [data]. rewrite E2. cbn [data]. rewrite E3.
  eexists. split; reflexivity.
Qed.

Lemma ensure_scd2_table_twice_witness :
  exists c2,
    ensure_scd2_table "accounts" ["account_id"]%string ["balance"]%string
      (snd (ensure_scd2_table "accounts" ["account_id"]%string ["balance"]%string adapter))
    = (Returns tt, c2)
    /\ data c2
       = data (snd (ensure_scd2_table "accounts" ["account_id"]%string ["balance"]%string
                      adapter)).
Proof.
  apply (ensure_scd2_table_twice "accounts" ["account_id"]%string ["balance"]%string
           adapter _ tt).
  vm_compute. reflexivity.
Defined.



(** ** What a call of [upsert_scd2] leaves *)

(** X11. [upsert_scd2], called with bare names, is all or nothing: when it
    raises, for whatever reason and at whatever record, the history and the
    rows of every table are what they were before the call. *)
Theorem upsert_scd2_all_or_nothing (now table : string) (records : list record)
    (key_fields : list string) (attribute_fields : option (list string))
    (c : conn) (e : exn) :
  bare (UpsertScd2 now table records key_fields attribute_fields) ->
  let call := upsert_scd2 now table records key_fields attribute_fields c in
  fst call = Raises e ->
  history (data (snd call)) = history (data c)
  /\ forall other, table_rows other (data (snd call)) = table_rows other (data c).
Proof.
  intros _ call Hraise. subst call. unfold upsert_scd2 in *.
  destruct (is_nil records); [discriminate|].
  set (attrs := effective_attribute_fields records key_fields attribute_fields) in *.
  unfold bind in *.
  pose proof (ensure_scd2_table_same_rows table key_fields attrs c) as [Hh Hr].
  destruct (ensure_scd2_table table key_fields attrs c) as [[u|e0] ce];
    cbn [snd] in Hh, Hr.
  - unfold transaction in *.
    destruct (upsert_rows table key_fields attrs now records 0 ce) as [[n|e1] c1];
      [discriminate|].
    cbn [snd data]. split; [exact Hh|]. intros other. apply Hr.
  - cbn [snd]. split; [exact Hh|]. intros other. apply Hr.
Qed.

Lemma upsert_scd2_all_or_nothing_witness :
  let call := upsert_scd2 day2 "accounts"
                [account "A2" "250"; [("account_id", PNone); ("balance", PStr "7")]%string]
                ["account_id"]%string None accounts_day1 in
  fst call = Raises IntegrityError
  /\ table_rows "accounts" (data (snd call)) = [accounts_day1_row].
Proof.
  intros call.
  assert (Hraise : fst call = Raises IntegrityError) by (vm_compute; reflexivity).
  split; [exact Hraise|].
  destruct (upsert_scd2_all_or_nothing day2 "accounts"
              [account "A2" "250"; [("account_id", PNone); ("balance", PStr "7")]%string]
              ["account_id"]%string None accounts_day1 IntegrityError accounts_bare Hraise)
    as [_ Hrows].
  subst call. rewrite Hrows. vm_compute. reflexivity.
Defined.

Lemma length_after_close (now : string) (found : option row) (rs : list row) :
  length (after_close now found rs) = length rs.
Proof. destruct found; [apply length_map|reflexivity]. Qed.

Lemma upsert_rows_returns_count (table : string) (key_fields attribute_fields : list string)
    (now : string) (recs : list record) :
  forall (inserted : Z) (c : conn) (t : entity_table) (n : Z) (c' : conn),
    tables (data c) !! canon table = Some t ->
    upsert_rows table key_fields attribute_fields now recs inserted c = (Returns n, c') ->
    exists t',
      tables (data c') !! canon table = Some t'
      /\ Z.of_nat (length (rows t')) = Z.of_nat (length (rows t)) + (n - inserted)
      /\ inserted <= n <= inserted + Z.of_nat (length recs).
Proof.
  induction recs as [|rec recs IH]; intros inserted c t n c' Ht Hloop.
  - cbn in Hloop. unfold ret in Hloop. simplify_eq. exists t. cbn [length]. split; [exact Ht|lia].
  - cbn [upsert_rows] in Hloop. unfold bind in Hloop.
    destruct (upsert_row _ _ _ _ _ c) as [[m|] c1] eqn:Hrow; [|discriminate].
    pose proof (upsert_row_returns t c table key_fields attribute_fields now rec m c1 Ht Hrow)
      as Hone.
    cbv zeta in Hone. destruct (bool_decide _).
    + destruct Hone as [-> Hdata].
      destruct (IH (inserted + 0) c1 t n c') as (t' & Ht' & Hlen & Hn);
        [now rewrite Hdata|exact Hloop|].
      exists t'. cbn [length]. split; [exact Ht'|lia].
    + destruct Hone as (-> & _ & _ & Hdata).
      assert (Ht1 : exists t1, tables (data c1) !! canon table = Some t1
                               /\ length (rows t1) = S (length (rows t))).
      { rewrite Hdata. eexists. split; [apply lookup_insert_eq|].
        cbn [rows]. rewrite length_app, length_after_close. cbn [length]. lia. }
      destruct Ht1 as (t1 & Ht1 & Hlen1).
      destruct (IH (inserted + 1) c1 t1 n c' Ht1 Hloop) as (t' & Ht' & Hlen & Hn).
      exists t'. split; [exact Ht'|]. cbn [length]. lia.
Qed.

Lemma ensure_scd2_table_returns_table (table : string)
    (key_fields attribute_fields : list string) (c c' : conn) (u : unit) :
  ensure_scd2_table table key_fields attribute_fields c = (Returns u, c') ->
  exists t, tables (data c') !! canon table = Some t
            /\ rows t = table_rows table (data c).
Proof.
  intros E.
  pose proof (ensure_scd2_table_same_rows table key_fields attribute_fields c) as [_ Hr].
  rewrite E in Hr. cbn [snd] in Hr.
  unfold ensure_scd2_table, bind, execute in E.
  destruct (exec_create_table _ _ _ _) as [[u1 s1]|]; [|discriminate].
  cbn [data] in E.
  pose proof (exec_create_key_index_cases table key_fields s1) as H2.
  destruct (exec_create_key_index _ _ _) as [[u2 s2]|]; [|discriminate].
  subst s2. cbn [data] in E.
  pose proof (exec_create_current_index_cases table s1) as H3.
  destruct (exec_create_current_index _ _) as [[u3 s3]|] eqn:E3; [|discriminate].
  subst s3. simplify_eq. cbn [data] in *.
  unfold exec_create_current_index in E3.
  destruct (negb _); [discriminate|].
  destruct (decide (canon table = history_table_name)); [discriminate|].
  destruct (tables s1 !! canon table) as [t|] eqn:Et; [|discriminate].
  exists t. split; [reflexivity|].
  specialize (Hr (canon table)). unfold table_rows, rows_at in *. now rewrite Et in Hr.
Qed.

(** X12. On an adapter in use, the number that [upsert_scd2], called with
    bare names, returns is the number of rows it added: when it returns [n],
    its table holds [n] rows more than before the call, and [n] is between 0
    and the number of records. *)
Theorem upsert_scd2_returns_rows_added (now table : string) (records : list record)
    (key_fields : list string) (attribute_fields : option (list string))
    (c c' : conn) (n : Z) :
  in_use c ->
  bare (UpsertScd2 now table records key_fields attribute_fields) ->
  upsert_scd2 now table records key_fields attribute_fields c = (Returns n, c') ->
  Z.of_nat (length (table_rows table (data c')))
  = Z.of_nat (length (table_rows table (data c))) + n
  /\ 0 <= n <= Z.of_nat (length records).
Proof.
  intros _ _ Hcall. unfold upsert_scd2 in Hcall.
  destruct records as [|r0 rest]; cbn [is_nil] in Hcall.
  { unfold ret in Hcall. simplify_eq. cbn [length]. lia. }
  unfold bind in Hcall.
  destruct (ensure_scd2_table _ _ _ c) as [[u|] ce] eqn:Hens; [|discriminate].
  destruct (ensure_scd2_table_returns_table _ _ _ _ _ _ Hens) as (t & Ht & Hrows).
  unfold transaction in Hcall.
  destruct (upsert_rows _ _ _ _ _ _ ce) as [[m|] c1] eqn:Hloop; [|discriminate].
  simplify_eq.
  destruct (upsert_rows_returns_count _ _ _ _ _ _ _ _ _ _ Ht Hloop) as (t' & Ht' & Hlen & Hn).
  rewrite (table_rows_present _ _ _ Ht'), <- Hrows. lia.
Qed.

Lemma upsert_scd2_returns_rows_added_witness :
  Z.of_nat (length (table_rows "accounts"
                      (data (snd (upsert_scd2 day2 "accounts"
                                    [account "A1" "200"; account "A2" "250"; account "A1" "200"]
                                    ["account_id"]%string None accounts_day1)))))
  = Z.of_nat (length (table_rows "accounts" (data accounts_day1))) + 2
  /\ 0 <= 2 <= Z.of_nat (length [account "A1" "200"; account "A2" "250"; account "A1" "200"]).
Proof.
  apply (upsert_scd2_returns_rows_added day2 "accounts"
           [account "A1" "200"; account "A2" "250"; account "A1" "200"]
           ["account_id"]%string None accounts_day1).
  - exact accounts_day1_in_use.
  - exact accounts_bare.
  - vm_compute. reflexivity.
Defined.

(** X13. On an adapter in use and with bare names, a record whose key has
    one current row, with the digest of the record as its [row_hash], is
    skipped: a pass of the loop that returns counts 0 and leaves the database
    as it was, and so does a whole call on a batch of that one record. Such a
    call does return when the table was created for the fields of the call
    and can take the record. *)
Theorem upsert_scd2_skips_unchanged (t : entity_table) (c : conn) (table : string)
    (key_fields attribute_fields : list string) (now : string) (rec : record) (cur : row) :
  in_use c ->
  bare_names table (key_fields ++ attribute_fields) ->
  tables (data c) !! canon table = Some t ->
  In cur (rows t) -> is_current cur = 1 -> has_key key_fields rec cur ->
  (forall r, In r (rows t) -> is_current r = 1 -> has_key key_fields rec r -> r = cur) ->
  row_hash cur = _compute_hash rec attribute_fields ->
  (forall n c',
      upsert_row table key_fields attribute_fields now rec c = (Returns n, c') ->
      n = 0 /\ data c' = data c)
  /\ (forall n c',
        attribute_fields <> [] ->
        upsert_scd2 now table [rec] key_fields (Some attribute_fields) c = (Returns n, c') ->
        n = 0 /\ data c' = data c)
  /\ (well_named table key_fields attribute_fields ->
      declares t key_fields attribute_fields ->
      storable key_fields attribute_fields rec ->
      exists c', upsert_scd2 now table [rec] key_fields (Some attribute_fields) c
                 = (Returns 0, c')).
Proof.
  intros _ _ Hpresent Hstored Hcur Hkey Honly Hsame.
  pose proof (only_current_found key_fields rec (rows t) cur Hstored Hcur Hkey Honly)
    as Hfound.
  assert (Hstep : forall c0 n c',
            data c0 = data c ->
            upsert_row table key_fields attribute_fields now rec c0 = (Returns n, c') ->
            n = 0 /\ data c' = data c).
  { intros c0 n c' E0 Hrun.
    apply (upsert_row_returns t) in Hrun; [|now rewrite E0].
    rewrite Hfound in Hrun. cbn [fmap option_fmap option_map] in Hrun.
    rewrite bool_decide_eq_true_2 in Hrun by congruence.
    destruct Hrun as [-> Hdata]. split; [reflexivity|congruence]. }
  split; [intros n c'; now apply Hstep|]. split.
  - intros n c' Hattrs Hcall. unfold upsert_scd2 in Hcall. cbn [is_nil] in Hcall.
    rewrite (effective_attribute_fields_given _ _ _ Hattrs) in Hcall.
    unfold bind at 1 in Hcall.
    destruct (ensure_scd2_table _ _ _ c) as [[u|] c1] eqn:Hens; [|discriminate].
    apply (ensure_scd2_table_returns_present _ _ _ _ _ _ t Hpresent) in Hens.
    unfold transaction in Hcall. cbn [upsert_rows] in Hcall. unfold bind in Hcall.
    destruct (upsert_row _ _ _ _ _ c1) as [[m|] c2] eqn:Hrow; [|discriminate].
    unfold ret in Hcall. simplify_eq.
    destruct (Hstep c1 _ _ Hens Hrow) as [-> Hdata]. split; [reflexivity|exact Hdata].
  - intros Hnames Hdecl Hrec.
    unfold upsert_scd2. cbn [is_nil].
    assert (Hattrs : attribute_fields <> []) by apply Hnames.
    rewrite (effective_attribute_fields_given _ _ _ Hattrs).
    destruct (ensure_scd2_table_present t table key_fields attribute_fields Hnames
                c Hpresent Hdecl) as (c1 & Hens & Hdata1).
    unfold bind at 1. rewrite Hens.
    destruct (upsert_row_run t c1 table key_fields attribute_fields now rec Hnames)
      as (c' & Hrun & _); [now rewrite Hdata1|exact Hdecl|exact Hrec|].
    rewrite Hfound in Hrun. cbn [fmap option_fmap option_map] in Hrun.
    rewrite bool_decide_eq_true_2 in Hrun by congruence.
    unfold transaction. cbn [upsert_rows]. unfold bind. rewrite Hrun.
    exists c'. reflexivity.
Qed.

Lemma upsert_scd2_skips_unchanged_witness :
  exists c',
    upsert_scd2 day2 "accounts" [account "A1" "100"] ["account_id"]%string
      (Some ["balance"]%string) accounts_day1 = (Returns 0, c')
    /\ data c' = data accounts_day1.
Proof.
  destruct (upsert_scd2_skips_unchanged accounts_day1_table accounts_day1 "accounts"
              ["account_id"]%string ["balance"]%string day2 (account "A1" "100")
              accounts_day1_row) as (_ & Hcall & Hreturns).
  - exact accounts_day1_in_use.
  - exact accounts_bare.
  - vm_compute. reflexivity.
  - left. reflexivity.
  - reflexivity.
  - apply has_key_row_matches. vm_compute. reflexivity.
  - intros r [<-|[]] _ _. reflexivity.
  - vm_compute. reflexivity.
  - destruct Hreturns as [c' Hc'].
    + exact accounts_well_named.
    + split; reflexivity.
    + apply account_storable.
    + exists c'. split; [exact Hc'|]. apply (Hcall 0 c'); [discriminate|exact Hc'].
Defined.

(** X14. On an adapter in use and with bare names, a record whose key has no
    current row is inserted: a pass of the loop that returns counts 1 and
    has added, after the rows of the table, which it leaves as they are, one
    row with the values of the record, [is_current] 1, [valid_from] the time
    of the call and [valid_to] the sentinel; and so does a whole call on a
    batch of that one record. Such a call does return when the table was
    created for the fields of the call and can take the record; the cells of
    the new row are then the values of the record as [TEXT]. *)
Theorem upsert_scd2_inserts_new_key (t : entity_table) (c : conn) (table : string)
    (key_fields attribute_fields : list string) (now : string) (rec : record) :
  in_use c ->
  bare_names table (key_fields ++ attribute_fields) ->
  tables (data c) !! canon table = Some t ->
  (forall r, In r (rows t) -> is_current r = 1 -> ~ has_key key_fields rec r) ->
  let columns := key_fields ++ attribute_fields in
  let added := Row (max_id (rows t) + 1)
                   (new_cells t columns (map adapt (map (rec_get rec) columns)))
                   now "9999-12-31T00:00:00+00:00" 1 (_compute_hash rec attribute_fields) in
  (forall n c',
      upsert_row table key_fields attribute_fields now rec c = (Returns n, c') ->
      n = 1 /\ table_rows table (data c') = rows t ++ [added])
  /\ (forall n c',
        attribute_fields <> [] ->
        upsert_scd2 now table [rec] key_fields (Some attribute_fields) c = (Returns n, c') ->
        n = 1 /\ table_rows table (data c') = rows t ++ [added])
  /\ (well_named table key_fields attribute_fields ->
      declares t key_fields attribute_fields ->
      storable key_fields attribute_fields rec ->
      cells added = map (fun f => (canon f, cell_of rec f)) columns
      /\ exists c', upsert_scd2 now table [rec] key_fields (Some attribute_fields) c
                    = (Returns 1, c')).
Proof.
  intros _ _ Hpresent Hnokey columns added.
  pose proof (no_current_found key_fields rec (rows t) Hnokey) as Hnone.
  assert (Hstep : forall c0 n c',
            data c0 = data c ->
            upsert_row table key_fields attribute_fields now rec c0 = (Returns n, c') ->
            n = 1 /\ table_rows table (data c') = rows t ++ [added]).
  { intros c0 n c' E0 Hrun.
    apply (upsert_row_returns t) in Hrun; [|now rewrite E0].
    rewrite Hnone in Hrun. cbn [latest fmap option_fmap option_map after_close] in Hrun.
    rewrite bool_decide_eq_false_2 in Hrun by discriminate.
    destruct Hrun as (-> & _ & _ & Hdata). split; [reflexivity|].
    unfold table_rows. rewrite Hdata, E0, rows_at_insert, decide_True by reflexivity.
    reflexivity. }
  split; [intros n c'; now apply Hstep|]. split.
  - intros n c' Hattrs Hcall. unfold upsert_scd2 in Hcall. cbn [is_nil] in Hcall.
    rewrite (effective_attribute_fields_given _ _ _ Hattrs) in Hcall.
    unfold bind at 1 in Hcall.
    destruct (ensure_scd2_table _ _ _ c) as [[u|] c1] eqn:Hens; [|discriminate].
    apply (ensure_scd2_table_returns_present _ _ _ _ _ _ t Hpresent) in Hens.
    unfold transaction in Hcall. cbn [upsert_rows] in Hcall. unfold bind in Hcall.
    destruct (upsert_row _ _ _ _ _ c1) as [[m|] c2] eqn:Hrow; [|discriminate].
    unfold ret in Hcall. simplify_eq.
    exact (Hstep c1 _ _ Hens Hrow).
  - intros Hnames Hdecl Hrec. split.
    { subst added columns. cbn [cells].
      rewrite (new_cells_all t key_fields attribute_fields _ Hdecl).
      - apply combine_cells.
      - destruct Hnames as (_ & _ & _ & _ & _ & _ & Hnd).
        apply NoDup_app in Hnd as (_ & _ & Hnd). exact Hnd.
      - now rewrite !length_map. }
    unfold upsert_scd2. cbn [is_nil].
    assert (Hattrs : attribute_fields <> []) by apply Hnames.
    rewrite (effective_attribute_fields_given _ _ _ Hattrs).
    destruct (ensure_scd2_table_present t table key_fields attribute_fields Hnames
                c Hpresent Hdecl) as (c1 & Hens & Hdata1).
    unfold bind at 1. rewrite Hens.
    destruct (upsert_row_run t c1 table key_fields attribute_fields now rec Hnames)
      as (c' & Hrun & _); [now rewrite Hdata1|exact Hdecl|exact Hrec|].
    rewrite Hnone in Hrun. cbn [latest fmap option_fmap option_map] in Hrun.
    rewrite bool_decide_eq_false_2 in Hrun by discriminate.
    unfold transaction. cbn [upsert_rows]. unfold bind. rewrite Hrun.
    exists c'. reflexivity.
Qed.

Lemma upsert_scd2_inserts_new_key_witness :
  exists c',
    upsert_scd2 day2 "accounts" [account "A2" "250"] ["account_id"]%string
      (Some ["balance"]%string) accounts_day1 = (Returns 1, c')
    /\ table_rows "accounts" (data c')
       = [ accounts_day1_row;
           Row 2 [("account_id", Some "A2"); ("balance", Some "250")]%string day2
               "9999-12-31T00:00:00+00:00" 1 (Sha256.hexdigest "250") ].
Proof.
  destruct (upsert_scd2_inserts_new_key accounts_day1_table accounts_day1 "accounts"
              ["account_id"]%string ["balance"]%string day2 (account "A2" "250"))
    as (_ & Hcall & Hreturns).
  - exact accounts_day1_in_use.
  - exact accounts_bare.
  - vm_compute. reflexivity.
  - intros r [<-|[]] _ Hkey. apply has_key_row_matches in Hkey. vm_compute in Hkey.
    discriminate.
  - destruct Hreturns as [_ [c' Hc']].
    + exact accounts_well_named.
    + split; reflexivity.
    + apply account_storable.
    + exists c'. split; [exact Hc'|].
      destruct (Hcall 1 c') as [_ Hrows]; [discriminate|exact Hc'|].
      rewrite Hrows. vm_compute. reflexivity.
Defined.

(** ** One current version per key, at all times *)

Lemma perform_single_current (table : string) (key_fields : list string) (key : list sqlval)
    (c : conn) (op : operation) :
  NoDup (map canon key_fields) -> keyed_by table key_fields op ->
  single_current key_fields key (table_rows table (data c)) ->
  single_current key_fields key (table_rows table (data (perform c op))).
Proof.
  intros Hnd Hop Hinv.
  assert (Hsame : forall s', rows_at (canon table) s' = rows_at (canon table) (data c) ->
                             single_current key_fields key (table_rows table s')).
  { intros s' E. unfold table_rows. now rewrite E. }
  destruct op; cbn [perform].
  - exact Hinv.
  - apply Hsame.
    assert (E : tables (data (snd (log_history now job event stat started ended duration
                                     count det c))) = tables (data c)).
    { unfold log_history, transaction, execute, exec_insert_history.
      destruct (bind_values _); reflexivity. }
    unfold rows_at. now rewrite E.
  - apply Hsame. now rewrite fetch_history_same_data.
  - apply Hsame. apply (proj2 (ensure_scd2_table_same_rows _ _ _ c)).
  - destruct (decide (canon table0 = canon table)) as [E|Hne].
    + cbn [keyed_by] in Hop. rewrite (Hop E).
      assert (Ht : forall s, table_rows table s = table_rows table0 s).
      { intros s. unfold table_rows. now rewrite E. }
      rewrite Ht in *. revert Hinv.
      apply (upsert_scd2_keeps
               (fun s s' => single_current key_fields key (table_rows table0 s) ->
                            single_current key_fields key (table_rows table0 s'))).
      * auto.
      * auto.
      * intros s s' [_ Hr] H. unfold table_rows. now rewrite Hr.
      * intros attrs rec. now apply upsert_row_single_current.
    + apply Hsame.
      assert (H : others_untouched table0 (data c)
                    (data (snd (upsert_scd2 now table0 records key_fields0
                                  attribute_fields c)))).
      { apply (upsert_scd2_keeps (others_untouched table0)).
        - apply others_untouched_refl.
        - apply others_untouched_trans.
        - intros s s' [Hh Hr]. split; [exact Hh|]. intros k _. apply Hr.
        - intros attrs rec. apply upsert_row_others_untouched. }
      apply (proj2 H). congruence.
Qed.

(** X15. On an adapter in use, a table on which every [upsert_scd2] named
    the same key fields, distinct from each other, has at most one current
    row for every tuple of key values, whatever the batches held and whether
    the calls returned or raised. The calls name bare names. *)
Theorem single_current_at_all_times (ops : list operation) (table : string)
    (key_fields : list string) (key : list sqlval) :
  NoDup (map canon key_fields) ->
  Forall bare ops ->
  Forall (keyed_by table key_fields) ops ->
  (length (current_rows key_fields key
             (table_rows table (data (fold_left perform ops adapter)))) <= 1)%nat.
Proof.
  intros Hnd _ Hops.
  assert (H : forall c, single_current key_fields key (table_rows table (data c)) ->
                        single_current key_fields key
                          (table_rows table (data (fold_left perform ops c)))).
  { induction Hops as [|op ops Hop _ IH]; intros c Hc; [exact Hc|].
    cbn [fold_left]. apply IH. now apply perform_single_current. }
  apply H. unfold single_current, table_rows, rows_at.
  change (data adapter) with (Store [] ∅). cbn [tables].
  rewrite lookup_empty. cbn. lia.
Qed.

Lemma single_current_at_all_times_witness :
  (length (current_rows ["account_id"]%string [SqlText "A1"]
             (table_rows "accounts"
                (data (fold_left perform
                         [UpsertScd2 day1 "accounts" [account "A1" "100"; account "A2" "250"]
                            ["account_id"]%string None;
                          LogHistory day1 "fetch_transactions" "success" "ok" None None None
                            (Some 2%Z) DetailsNone;
                          UpsertScd2 day2 "Accounts" [account "A1" "200"; account "A1" "300"]
                            ["account_id"]%string None]
                         adapter)))) <= 1)%nat.
Proof.
  apply single_current_at_all_times.
  - by_computation.
  - repeat constructor; by_computation.
  - repeat constructor; intros _; reflexivity.
Defined.

(** ** One batch or two *)

Lemma data_only_ret {A : Type} (a : A) : data_only (ret a).
Proof. intros c d E. auto. Qed.

Lemma data_only_lift {A : Type} (o : outcome A) : data_only (lift o).
Proof. intros c d E. auto. Qed.

Lemma data_only_bind {A B : Type} (m : M A) (k : A -> M B) :
  data_only m -> (forall a, data_only (k a)) -> data_only (bind m k).
Proof.
  intros Hm Hk c d E. unfold bind. destruct (Hm c d E) as [Ho Hd].
  destruct (m c) as [[a|e] c1], (m d) as [[a'|e'] d1]; cbn [fst snd] in *; simplify_eq.
  - now apply Hk.
  - auto.
Qed.

Lemma data_only_execute {A : Type} (sql : string) (run : store -> outcome (A * store)) :
  data_only (execute sql run).
Proof.
  intros c d E. unfold execute. rewrite E.
  destruct (run (data d)) as [[a s']|e]; auto.
Qed.

Lemma data_only_transaction {A : Type} (m : M A) : data_only m -> data_only (transaction m).
Proof.
  intros Hm c d E. unfold transaction. destruct (Hm c d E) as [Ho Hd].
  destruct (m c) as [[a|e] c1], (m d) as [[a'|e'] d1]; cbn [fst snd] in *; simplify_eq; auto.
Qed.

Lemma data_only_upsert_rows (table : string) (key_fields attribute_fields : list string)
    (now : string) (recs : list record) (inserted : Z) :
  data_only (upsert_rows table key_fields attribute_fields now recs inserted).
Proof.
  revert inserted. induction recs as [|rec recs IH]; intros inserted; cbn [upsert_rows].
  - apply data_only_ret.
  - apply data_only_bind; [|intros n; apply IH].
    unfold upsert_row.
    apply data_only_bind; [apply data_only_lift|intros vs].
    apply data_only_bind; [apply data_only_execute|intros found].
    destruct (bool_decide _); [apply data_only_ret|].
    apply data_only_bind; [|intros _].
    { destruct found; [apply data_only_execute|apply data_only_ret]. }
    apply data_only_bind; [apply data_only_execute|intros _; apply data_only_ret].
Qed.

(** The loop on a batch is the loop on its first part, then on its second. *)
Lemma upsert_rows_app (table : string) (key_fields attribute_fields : list string)
    (now : string) (b1 b2 : list record) (inserted : Z) (c : conn) :
  upsert_rows table key_fields attribute_fields now (b1 ++ b2) inserted c
  = bind (upsert_rows table key_fields attribute_fields now b1 inserted)
         (fun n => upsert_rows table key_fields attribute_fields now b2 n) c.
Proof.
  revert inserted c. induction b1 as [|rec b1 IH]; intros inserted c; [reflexivity|].
  cbn [app upsert_rows]. unfold bind.
  destruct (upsert_row _ _ _ _ _ c) as [[n|e] c1]; [|reflexivity].
  rewrite IH. reflexivity.
Qed.

(** The count the loop starts from is carried along. *)
Lemma upsert_rows_from (table : string) (key_fields attribute_fields : list string)
    (now : string) (recs : list record) (start inserted : Z) (c : conn) :
  upsert_rows table key_fields attribute_fields now recs (start + inserted) c
  = match upsert_rows table key_fields attribute_fields now recs inserted c with
    | (Returns n, c') => (Returns (start + n), c')
    | (Raises e, c') => (Raises e, c')
    end.
Proof.
  revert inserted c. induction recs as [|rec recs IH]; intros inserted c; [reflexivity|].
  cbn [upsert_rows]. unfold bind.
  destruct (upsert_row _ _ _ _ _ c) as [[n|e] c1]; [|reflexivity].
  rewrite <- Z.add_assoc. apply IH.
Qed.

(** X16. A batch can be split: when [upsert_scd2] with some records and
    then, with the same clock reading and the same fields, with some more
    both return, one call with all the records returns the sum of the two
    counts and leaves the same database. The attribute fields are given, so
    that both calls use the same. *)
Theorem upsert_scd2_split_batch (now table : string) (first second : list record)
    (key_fields attribute_fields : list string) (c c1 c2 : conn) (n1 n2 : Z) :
  attribute_fields <> [] ->
  upsert_scd2 now table first key_fields (Some attribute_fields) c = (Returns n1, c1) ->
  upsert_scd2 now table second key_fields (Some attribute_fields) c1 = (Returns n2, c2) ->
  exists c',
    upsert_scd2 now table (first ++ second) key_fields (Some attribute_fields) c
    = (Returns (n1 + n2), c')
    /\ data c' = data c2.
Proof.
  intros Hattrs H1 H2.
  destruct first as [|r1 first].
  { cbn in H1. unfold ret in H1. simplify_eq. exists c2. cbn [app]. now rewrite H2. }
  destruct second as [|r2 second].
  { cbn in H2. unfold ret in H2. simplify_eq. exists c2.
    rewrite app_nil_r, Z.add_0_r. auto. }
  unfold upsert_scd2 in *. cbn [app is_nil] in *.
  rewrite (effective_attribute_fields_given _ _ _ Hattrs) in H1.
  rewrite (effective_attribute_fields_given _ _ _ Hattrs) in H2.
  rewrite (effective_attribute_fields_given _ _ _ Hattrs).
  unfold bind in *.
  destruct (ensure_scd2_table table key_fields attribute_fields c) as [[u|] ce] eqn:Hens;
    [|discriminate].
  destruct (ensure_scd2_table_returns_table _ _ _ _ _ _ Hens) as (t & Ht & _).
  unfold transaction in H1.
  destruct (upsert_rows _ _ _ _ (r1 :: first) 0 ce) as [[m1|] d1] eqn:Hloop1; [|discriminate].
  simplify_eq.
  destruct (upsert_rows_returns_count _ _ _ _ _ _ _ _ _ _ Ht Hloop1) as (t1 & Ht1 & _).
  destruct (ensure_scd2_table table key_fields attribute_fields c1) as [[u'|] ce2] eqn:Hens2;
    [|discriminate].
  apply (ensure_scd2_table_returns_present _ _ _ _ _ _ t1 Ht1) in Hens2.
  unfold transaction in H2.
  destruct (upsert_rows _ _ _ _ (r2 :: second) 0 ce2) as [[m2|] d2] eqn:Hloop2; [|discriminate].
  simplify_eq.
  unfold transaction.
  change (r1 :: first ++ r2 :: second) with ((r1 :: first) ++ r2 :: second).
  rewrite upsert_rows_app. unfold bind. rewrite Hloop1.
  pose proof (upsert_rows_from table key_fields attribute_fields now (r2 :: second) n1 0 c1)
    as Hfrom.
  rewrite Z.add_0_r in Hfrom. rewrite Hfrom.
  destruct (data_only_upsert_rows table key_fields attribute_fields now (r2 :: second) 0
              c1 ce2 (eq_sym Hens2)) as [Ho Hd].
  rewrite Hloop2 in Ho, Hd. cbn [fst snd] in Ho, Hd.
  destruct (upsert_rows _ _ _ _ (r2 :: second) 0 c1) as [[m|e] d]; cbn [fst snd] in *;
    simplify_eq.
  eexists. split; [reflexivity|exact Hd].
Qed.

Lemma upsert_scd2_split_batch_witness :
  exists c',
    upsert_scd2 day2 "accounts" ([account "A1" "200"] ++ [account "A2" "250"; account "A1" "300"])
      ["account_id"]%string (Some ["balance"]%string) accounts_day1
    = (Returns (1 + 2), c')
    /\ data c'
       = data (snd (upsert_scd2 day2 "accounts" [account "A2" "250"; account "A1" "300"]
                      ["account_id"]%string (Some ["balance"]%string)
                      (snd (upsert_scd2 day2 "accounts" [account "A1" "200"]
                              ["account_id"]%string (Some ["balance"]%string)
                              accounts_day1)))).
Proof.
  apply (upsert_scd2_split_batch day2 "accounts" [account "A1" "200"]
           [account "A2" "250"; account "A1" "300"] ["account_id"]%string ["balance"]%string
           accounts_day1
           (snd (upsert_scd2 day2 "accounts" [account "A1" "200"]
                   ["account_id"]%string (Some ["balance"]%string) accounts_day1))
           (snd (upsert_scd2 day2 "accounts" [account "A2" "250"; account "A1" "300"]
                   ["account_id"]%string (Some ["balance"]%string)
                   (snd (upsert_scd2 day2 "accounts" [account "A1" "200"]
                           ["account_id"]%string (Some ["balance"]%string)
                           accounts_day1))))
           1 2).
  - discriminate.
  - vm_compute. reflexivity.
  - vm_compute. reflexivity.
Defined.

(** ** Changes the digest does not see *)

Lemma compute_hash_joined (rec : record) (fields : list string) :
  _compute_hash rec fields = Sha256.hexdigest (join EmptyString (map (hash_value rec) fields)).
Proof. unfold _compute_hash, hasher_hexdigest, hasher_new, join. now rewrite hasher_fold. Qed.

(** X17. The digest is taken of the attribute values one after the other,
    with nothing between them and [None] as the empty string, so a change
    that leaves this concatenation as it was is not seen: on an adapter in
    use and with bare names, after a record is stored in a fresh table,
    [upsert_scd2] of a record with the same key and the same concatenation
    returns 0 and leaves the database as it was, whatever the two records
    hold field by field. *)
Theorem upsert_scd2_same_concatenation_is_no_change (c : conn) (table : string)
    (key_fields attribute_fields : list string) (now1 now2 : string)
    (stored changed : record) :
  in_use c ->
  bare_names table (key_fields ++ attribute_fields) ->
  well_named table key_fields attribute_fields ->
  fresh table key_fields attribute_fields (data c) ->
  storable key_fields attribute_fields stored ->
  storable key_fields attribute_fields changed ->
  key_cells key_fields stored = key_cells key_fields changed ->
  join EmptyString (map (hash_value stored) attribute_fields)
  = join EmptyString (map (hash_value changed) attribute_fields) ->
  exists c1 c2,
    upsert_scd2 now1 table [stored] key_fields (Some attribute_fields) c = (Returns 1, c1)
    /\ upsert_scd2 now2 table [changed] key_fields (Some attribute_fields) c1
       = (Returns 0, c2)
    /\ data c2 = data c1.
Proof.
  intros _ _ Hnames Hfresh Hstored Hchanged Hkey Hjoin.
  assert (Hattrs : attribute_fields <> []) by apply Hnames.
  assert (Hnd := names_columns_distinct table key_fields attribute_fields Hnames).
  destruct (ensure_scd2_table_fresh table key_fields attribute_fields Hnames c Hfresh)
    as (ce & te & Hce & Hte & Hdecl & Hempty).
  destruct (first_pass table key_fields attribute_fields Hnames now1 [stored] [] 0 ce te
              Hte Hdecl Hempty) as (c1 & t1 & Hloop1 & Ht1 & Hdecl1 & Hrows1).
  { cbn. apply NoDup_singleton. }
  { now constructor. }
  cbn [app versions length] in Hrows1, Hloop1.
  destruct (ensure_scd2_table_present t1 table key_fields attribute_fields Hnames c1 Ht1 Hdecl1)
    as (ce2 & Hce2 & Hdata2).
  destruct (upsert_row_run t1 ce2 table key_fields attribute_fields now2 changed Hnames)
    as (c2 & Hrun & Hdata3); [now rewrite Hdata2|exact Hdecl1|exact Hchanged|].
  assert (Hfound : latest (current_rows key_fields
                             (map adapt (map (rec_get changed) key_fields)) (rows t1))
                   = Some (new_version key_fields attribute_fields now1 stored (0 + 1))).
  { rewrite Hrows1. unfold current_rows. cbn [List.filter].
    rewrite (row_matches_cells_own _ changed stored);
      [reflexivity|now apply new_version_cells|apply Hchanged|exact Hkey]. }
  rewrite Hfound in Hrun, Hdata3. cbn [fmap option_fmap option_map new_version row_hash] in *.
  rewrite bool_decide_eq_true_2 in Hrun, Hdata3
    by (now rewrite !compute_hash_joined, Hjoin).
  exists c1, c2.
  unfold upsert_scd2. cbn [is_nil].
  rewrite (effective_attribute_fields_given [stored] _ _ Hattrs).
  rewrite (effective_attribute_fields_given [changed] _ _ Hattrs).
  unfold bind. rewrite Hce, Hce2. unfold transaction. rewrite Hloop1.
  cbn [upsert_rows]. unfold bind. rewrite Hrun.
  split; [reflexivity|]. split; [reflexivity|congruence].
Qed.

Lemma upsert_scd2_same_concatenation_is_no_change_witness :
  exists c1 c2,
    upsert_scd2 day1 "people" [[("person_id", PStr "P1"); ("given", PStr "Ann");
                                 ("family", PStr "Lee"); ("age", PInt 41)]%string]
      ["person_id"]%string (Some ["given"; "family"; "age"]%string) adapter = (Returns 1, c1)
    /\ upsert_scd2 day2 "people" [[("person_id", PStr "P1"); ("given", PStr "An");
                                    ("family", PStr "nLee4"); ("age", PStr "1")]%string]
         ["person_id"]%string (Some ["given"; "family"; "age"]%string) c1 = (Returns 0, c2)
    /\ data c2 = data c1.
Proof.
  apply upsert_scd2_same_concatenation_is_no_change.
  - exact adapter_in_use.
  - split; [split; reflexivity|]. repeat constructor; by_computation.
  - repeat split; try reflexivity; try (vm_compute; discriminate). by_computation.
  - vm_compute. exact I.
  - split; repeat constructor; vm_compute; (discriminate || intuition discriminate).
  - split; repeat constructor; vm_compute; (discriminate || intuition discriminate).
  - reflexivity.
  - vm_compute. reflexivity.
Defined.

(** ** The same batch again, on any table *)

Lemma max_id_bound (rs : list row) : Forall (fun r => id r <= max_id rs) rs.
Proof.
  induction rs as [|r rs IH]; [constructor|].
  cbn [max_id fold_right]. fold (max_id rs). constructor; [lia|].
  eapply Forall_impl; [exact IH|]. cbn. intros x Hx. lia.
Qed.

Lemma latest_snoc_newest (l : list row) (x : row) :
  Forall (fun r => id r < id x) l -> latest (l ++ [x]) = Some x.
Proof.
  induction 1 as [|r l Hr _ IH]; [reflexivity|].
  cbn [app latest]. rewrite IH.
  destruct (id r <? id x) eqn:E; [reflexivity|]. apply Z.ltb_ge in E. lia.
Qed.

Lemma row_matches_cells_only (key_fields : list string) (q : list sqlval) (r r' : row) :
  cells r' = cells r -> row_matches key_fields q r' = row_matches key_fields q r.
Proof.
  intros E. revert q. induction key_fields as [|k ks IH]; intros q; [reflexivity|].
  destruct q as [|p q]; [reflexivity|]. cbn [row_matches]. now rewrite E, IH.
Qed.

(** A row that matches the keys of two records: they have the same stored
    key. *)
Lemma row_matches_key_cells (key_fields : list string) (rec rec' : record) (r : row) :
  row_matches key_fields (map adapt (map (rec_get rec) key_fields)) r = true ->
  row_matches key_fields (map adapt (map (rec_get rec') key_fields)) r = true ->
  key_cells key_fields rec = key_cells key_fields rec'.
Proof.
  unfold key_cells. induction key_fields as [|k ks IH]; intros H1 H2; [reflexivity|].
  cbn [map row_matches] in *.
  destruct (assoc (canon k) (cells r)) as [[stored|]|]; try discriminate.
  fold (cell_of rec k) in H1. fold (cell_of rec' k) in H2.
  destruct (cell_of rec k) as [a|]; [|discriminate].
  destruct (cell_of rec' k) as [b|]; [|discriminate].
  apply andb_true_iff in H1 as [E1 H1], H2 as [E2 H2].
  apply bool_decide_eq_true in E1, E2. subst a b. now rewrite IH.
Qed.

(** Closing a row that does not match a key leaves the current rows of that
    key as they were. *)
Lemma current_rows_close_other (key_fields : list string) (q : list sqlval)
    (now : string) (target : Z) (rs : list row) :
  (forall r, In r rs -> id r = target -> row_matches key_fields q r = false) ->
  current_rows key_fields q (close_rows now target rs) = current_rows key_fields q rs.
Proof.
  unfold current_rows, close_rows. induction rs as [|r rs IH]; intros H; [reflexivity|].
  cbn [map List.filter]. rewrite IH by (intros x Hx; apply H; now right).
  destruct (decide (id r = target)) as [E|_]; [|reflexivity].
  rewrite (row_matches_cells_only key_fields q r (close_row now r)) by reflexivity.
  now rewrite (H r (or_introl eq_refl) E).
Qed.

Lemma assoc_tabulate_in {A : Type} (f : string -> A) (cols : list string) (c : string) :
  c ∈ cols -> assoc c (map (fun c' => (c', f c')) cols) = Some (f c).
Proof.
  induction cols as [|x cols IH]; intros Hin; [now apply elem_of_nil in Hin|].
  cbn [map assoc]. destruct (decide (x = c)) as [->|Hne]; [reflexivity|].
  apply elem_of_cons in Hin as [->|Hin]; [congruence|now apply IH].
Qed.

(** The row an INSERT adds for a record whose key values are not [None],
    in a table that has the key columns, matches the key of the record. *)
Lemma inserted_row_matches (t : entity_table) (key_fields attribute_fields : list string)
    (rec : record) (r : row) :
  NoDup (map canon key_fields) ->
  Forall (fun k => canon k ∈ table_columns t) key_fields ->
  Forall (fun k => rec_get rec k <> PNone) key_fields ->
  cells r = new_cells t (key_fields ++ attribute_fields)
              (map adapt (map (rec_get rec) (key_fields ++ attribute_fields))) ->
  row_matches key_fields (map adapt (map (rec_get rec) key_fields)) r = true.
Proof.
  intros Hnd Hcols Hkeys Hcells.
  apply (row_matches_cells_own r rec rec); [|exact Hkeys|reflexivity].
  pose proof (assoc_given_keys (map canon key_fields)
                (map to_text (map adapt (map (rec_get rec) key_fields)))
                [] (map canon attribute_fields) []
                (map to_text (map adapt (map (rec_get rec) attribute_fields))) Hnd) as Hgiven.
  rewrite !length_map in Hgiven. specialize (Hgiven eq_refl eq_refl).
  cbn [app] in Hgiven. rewrite <- !map_app in Hgiven.
  specialize (Hgiven (fun k _ Hin => proj1 (elem_of_nil k) Hin)).
  apply Forall2_map_both in Hgiven.
  rewrite Forall_forall in Hcols. apply Forall_forall. intros k Hk.
  rewrite Hcells. unfold new_cells.
  rewrite (assoc_tabulate_in _ _ _ (Hcols k Hk)). f_equal.
  assert (Hk' : forall ks, Forall2 (fun k0 p => assoc (canon k0)
                  (combine (map canon (key_fields ++ attribute_fields))
                     (map to_text (map adapt (map (rec_get rec)
                                                (key_fields ++ attribute_fields)))))
                  = Some (to_text p)) ks (map adapt (map (rec_get rec) ks)) ->
                k ∈ ks ->
                assoc (canon k)
                  (combine (map canon (key_fields ++ attribute_fields))
                     (map to_text (map adapt (map (rec_get rec)
                                                (key_fields ++ attribute_fields)))))
                = Some (cell_of rec k)).
  { induction ks as [|k0 ks IH]; intros H2 Hin; [now apply elem_of_nil in Hin|].
    cbn [map] in H2. inversion H2; subst.
    apply elem_of_cons in Hin as [->|Hin]; [assumption|now apply IH]. }
  rewrite (Hk' key_fields Hgiven Hk). reflexivity.
Qed.

(** A pass that returned could run the lookup of its record. *)
Lemma upsert_row_returns_readable (t : entity_table) (c : conn) (table : string)
    (key_fields attribute_fields : list string) (now : string) (rec : record)
    (n : Z) (c' : conn) :
  tables (data c) !! canon table = Some t ->
  upsert_row table key_fields attribute_fields now rec c = (Returns n, c') ->
  readable table key_fields (table_columns t) rec.
Proof.
  intros Ht Hrun. unfold upsert_row, bind, lift in Hrun.
  destruct (key_values_of rec key_fields) as [vs|] eqn:Ekeys; [|discriminate].
  pose proof (key_values_of_returns _ _ _ Ekeys) as ->.
  unfold execute at 1 in Hrun.
  destruct (exec_select_current _ _ _ _) as [[found s0]|] eqn:Esel; [|discriminate].
  clear Hrun. unfold exec_select_current in Esel. rewrite Ht in Esel.
  destruct (sql_ident table && forallb sql_ident key_fields && negb (is_nil key_fields))
    eqn:Hchecks; [|discriminate].
  cbn [negb] in Esel.
  destruct (decide (canon table = history_table_name)) as [|Hh]; [discriminate|].
  destruct (decide (Forall _ key_fields)) as [Hcols|]; [|discriminate].
  destruct (bind_values _) as [bound|] eqn:Eb; [|discriminate].
  apply bind_values_returns in Eb as [_ Hb].
  repeat split; assumption.
Qed.

(** The lookup of a readable record that is settled: the pass returns 0 and
    changes nothing. *)
Lemma upsert_row_settled (t : entity_table) (c : conn) (table : string)
    (key_fields attribute_fields : list string) (now : string) (rec : record) :
  tables (data c) !! canon table = Some t ->
  readable table key_fields (table_columns t) rec ->
  settled key_fields attribute_fields (rows t) rec ->
  exists c', upsert_row table key_fields attribute_fields now rec c = (Returns 0, c')
             /\ data c' = data c.
Proof.
  intros Ht (Hchecks & Hh & Hcols & Hkeys & Hb) Hsettled.
  unfold upsert_row, bind, lift. rewrite Hkeys.
  unfold execute at 1. unfold exec_select_current.
  rewrite Hchecks. cbn [negb]. rewrite decide_False by exact Hh. rewrite Ht.
  rewrite decide_True by exact Hcols. rewrite (bind_values_adapt _ Hb).
  unfold settled in Hsettled. rewrite bool_decide_eq_true_2 by exact Hsettled.
  eexists. split; reflexivity.
Qed.

Section AnyTable.
Context (table : string) (key_fields attribute_fields : list string) (now : string).
Hypothesis keys_distinct : NoDup (map canon key_fields).

(** One pass of the first call: it settles its record, and leaves settled
    the records of other keys that were. *)
Lemma upsert_row_settles (t : entity_table) (c : conn) (rec : record) (n : Z) (c' : conn)
    (done : list record) :
  tables (data c) !! canon table = Some t ->
  NoDup (map id (rows t)) ->
  Forall (fun k => rec_get rec k <> PNone) key_fields ->
  Forall (fun d => key_cells key_fields d <> key_cells key_fields rec) done ->
  Forall (settled key_fields attribute_fields (rows t)) done ->
  upsert_row table key_fields attribute_fields now rec c = (Returns n, c') ->
  exists t',
    tables (data c') !! canon table = Some t'
    /\ table_columns t' = table_columns t
    /\ NoDup (map id (rows t'))
    /\ Forall (settled key_fields attribute_fields (rows t')) (done ++ [rec]).
Proof.
  intros Ht Hids Hkeys Hother Hdone Hrun.
  pose proof (upsert_row_returns_readable t c table key_fields attribute_fields now rec n c'
                Ht Hrun) as (_ & _ & Hcols & _ & _).
  pose proof (upsert_row_returns t c table key_fields attribute_fields now rec n c' Ht Hrun)
    as Hone.
  cbv zeta in Hone.
  destruct (bool_decide _) eqn:Esame.
  { destruct Hone as [_ Hdata]. exists t. rewrite Hdata.
    split; [exact Ht|]. split; [reflexivity|]. split; [exact Hids|].
    apply Forall_app. split; [exact Hdone|]. constructor; [|constructor].
    now apply bool_decide_eq_true in Esame. }
  destruct Hone as (_ & _ & _ & Hdata).
  set (own := map adapt (map (rec_get rec) key_fields)) in *.
  set (found := latest (current_rows key_fields own (rows t))) in *.
  set (added := Row (max_id (rows t) + 1)
                    (new_cells t (key_fields ++ attribute_fields)
                       (map adapt (map (rec_get rec) (key_fields ++ attribute_fields))))
                    now sentinel 1 (_compute_hash rec attribute_fields)) in *.
  assert (Hadded : row_matches key_fields own added = true).
  { apply (inserted_row_matches t key_fields attribute_fields rec added);
      [exact keys_distinct|exact Hcols|exact Hkeys|reflexivity]. }
  assert (Hbelow : Forall (fun r => id r < id added) (after_close now found (rows t))).
  { apply Forall_forall. intros r Hr. apply list_elem_of_In in Hr.
    assert (Hid : exists r0, In r0 (rows t) /\ id r0 = id r).
    { destruct found as [cur|]; cbn [after_close] in Hr; [|eauto].
      unfold close_rows in Hr. apply in_map_iff in Hr as (r0 & <- & Hr0).
      exists r0. split; [exact Hr0|]. now destruct (decide (id r0 = id cur)). }
    destruct Hid as (r0 & Hr0 & <-).
    pose proof (max_id_bound (rows t)) as Hmax. rewrite Forall_forall in Hmax.
    specialize (Hmax r0 (proj2 (list_elem_of_In _ _) Hr0)). unfold added. cbn [id]. lia. }
  eexists. rewrite Hdata. cbn [tables]. split; [apply lookup_insert_eq|].
  split; [reflexivity|]. cbn [rows]. split.
  { rewrite map_app. apply NoDup_app. split.
    - destruct found as [cur|]; cbn [after_close]; [|exact Hids].
      now rewrite map_id_close_rows.
    - split; [|apply NoDup_singleton].
      intros z Hz Hz'. apply list_elem_of_singleton in Hz'. subst z.
      apply list_elem_of_In, in_map_iff in Hz as (r & Er & Hr).
      rewrite Forall_forall in Hbelow.
      specialize (Hbelow r (proj2 (list_elem_of_In _ _) Hr)).
      unfold added in Hbelow, Er. cbn [id] in Hbelow, Er. lia. }
  apply Forall_app. split.
  - (* the records of other keys *)
    rewrite Forall_forall in Hother, Hdone. apply Forall_forall. intros d Hd.
    specialize (Hother d Hd). specialize (Hdone d Hd). unfold settled in *.
    rewrite current_rows_snoc.
    assert (Hnot : forall r, row_matches key_fields own r = true ->
                     row_matches key_fields (map adapt (map (rec_get d) key_fields)) r
                     = false).
    { intros r Hr. destruct (row_matches key_fields (map adapt _) r) eqn:E; [|reflexivity].
      exfalso. apply Hother. now apply (row_matches_key_cells key_fields d rec r). }
    rewrite (Hnot added Hadded). cbn [andb]. rewrite app_nil_r.
    destruct found as [cur|] eqn:Efound; cbn [after_close]; [|exact Hdone].
    rewrite current_rows_close_other; [exact Hdone|].
    intros r Hr Eid. apply Hnot.
    subst found. apply latest_In, current_rows_In in Efound as (Hcur & Hm & _).
    apply (NoDup_map_inj id (rows t) r cur Hids Hr Hcur) in Eid. now subst r.
  - constructor; [|constructor]. unfold settled. fold own.
    rewrite current_rows_snoc, Hadded.
    change (is_current added =? 1) with true. cbn [andb].
    rewrite latest_snoc_newest; [reflexivity|].
    eapply Forall_forall. intros r Hr. apply list_elem_of_In, filter_In in Hr as [Hr _].
    rewrite Forall_forall in Hbelow. apply Hbelow. now apply list_elem_of_In.
Qed.

(** The first call, when it returns, leaves every record settled and
    readable. *)
Lemma first_call_settles (todo : list record) :
  forall (done : list record) (inserted : Z) (c : conn) (t : entity_table) (n : Z) (c' : conn),
    tables (data c) !! canon table = Some t ->
    NoDup (map id (rows t)) ->
    NoDup (map (key_cells key_fields) (done ++ todo)) ->
    Forall (fun rec => Forall (fun k => rec_get rec k <> PNone) key_fields) todo ->
    Forall (settled key_fields attribute_fields (rows t)) done ->
    Forall (readable table key_fields (table_columns t)) done ->
    upsert_rows table key_fields attribute_fields now todo inserted c = (Returns n, c') ->
    exists t',
      tables (data c') !! canon table = Some t'
      /\ table_columns t' = table_columns t
      /\ Forall (settled key_fields attribute_fields (rows t')) (done ++ todo)
      /\ Forall (readable table key_fields (table_columns t)) (done ++ todo).
Proof.
  induction todo as [|rec todo IH];
    intros done inserted c t n c' Ht Hids Hnd Hkeys Hdone Hread Hloop.
  - cbn in Hloop. unfold ret in Hloop. simplify_eq. exists t. rewrite app_nil_r. auto.
  - cbn [upsert_rows] in Hloop. unfold bind in Hloop.
    destruct (upsert_row _ _ _ _ _ c) as [[m|] c1] eqn:Hrow; [|discriminate].
    apply Forall_cons in Hkeys as [Hkey Hkeys].
    assert (Hother : Forall (fun d => key_cells key_fields d <> key_cells key_fields rec) done).
    { apply Forall_forall. intros d Hd E.
      rewrite map_app in Hnd. apply NoDup_app in Hnd as (_ & Hsep & _).
      apply (Hsep (key_cells key_fields d)); [now apply elem_of_map|].
      rewrite E. cbn [map]. apply list_elem_of_here. }
    destruct (upsert_row_settles t c rec m c1 done Ht Hids Hkey Hother Hdone Hrow)
      as (t1 & Ht1 & Hcols1 & Hids1 & Hdone1).
    pose proof (upsert_row_returns_readable t c table key_fields attribute_fields now rec m c1
                  Ht Hrow) as Hrec.
    destruct (IH (done ++ [rec]) (inserted + m) c1 t1 n c' Ht1 Hids1)
      as (t' & Ht' & Hcols' & Hall & Hreadall).
    + now rewrite <- app_assoc.
    + exact Hkeys.
    + exact Hdone1.
    + rewrite Hcols1. apply Forall_app. split; [exact Hread|]. now constructor.
    + exact Hloop.
    + exists t'. rewrite <- app_assoc in Hall, Hreadall. cbn [app] in Hall, Hreadall.
      rewrite Hcols1 in Hreadall.
      split; [exact Ht'|]. split; [congruence|]. split; assumption.
Qed.

(** The second call finds every record settled. *)
Lemma second_call_skips (t : entity_table) (todo : list record) :
  forall (inserted : Z) (c : conn),
    tables (data c) !! canon table = Some t ->
    Forall (settled key_fields attribute_fields (rows t)) todo ->
    Forall (readable table key_fields (table_columns t)) todo ->
    exists c', upsert_rows table key_fields attribute_fields now todo inserted c
               = (Returns inserted, c')
               /\ data c' = data c.
Proof.
  induction todo as [|rec todo IH]; intros inserted c Ht Hsettled Hread.
  - exists c. auto.
  - apply Forall_cons in Hsettled as [Hrec Hsettled], Hread as [Hr Hread].
    destruct (upsert_row_settled t c table key_fields attribute_fields now rec Ht Hr Hrec)
      as (c1 & Hrun & Hdata).
    destruct (IH inserted c1) as (c' & Hloop & Hdata'); [now rewrite Hdata|assumption..|].
    exists c'. cbn [upsert_rows]. unfold bind. rewrite Hrun, Z.add_0_r.
    split; [exact Hloop|congruence].
Qed.
End AnyTable.

(** [ensure_scd2_table] returns again on a database in which the table has
    the columns it had when the call returned. *)
Lemma ensure_scd2_table_again (table : string) (key_fields attribute_fields : list string)
    (c ce d : conn) (u : unit) (te td : entity_table) :
  ensure_scd2_table table key_fields attribute_fields c = (Returns u, ce) ->
  tables (data ce) !! canon table = Some te ->
  tables (data d) !! canon table = Some td ->
  table_columns td = table_columns te ->
  exists d', ensure_scd2_table table key_fields attribute_fields d = (Returns tt, d')
             /\ data d' = data d.
Proof.
  intros E Hte Htd Hcols. unfold ensure_scd2_table, bind, execute in E.
  destruct (exec_create_table table key_fields attribute_fields (data c))
    as [[u1 s1]|] eqn:E1; [|discriminate].
  cbn [data] in E.
  destruct (exec_create_key_index table key_fields s1) as [[u2 s2]|] eqn:E2; [|discriminate].
  pose proof (exec_create_key_index_cases table key_fields s1) as H2.
  rewrite E2 in H2. subst s2. cbn [data] in E.
  destruct (exec_create_current_index table s1) as [[u3 s3]|] eqn:E3; [|discriminate].
  pose proof (exec_create_current_index_cases table s1) as H3.
  rewrite E3 in H3. subst s3. simplify_eq. cbn [data] in *.
  unfold exec_create_current_index in E3.
  destruct (negb (sql_ident table)) eqn:Hident; [discriminate|].
  destruct (decide (canon table = history_table_name)) as [|Hh]; [discriminate|].
  unfold ensure_scd2_table, bind, execute.
  assert (E1' : exec_create_table table key_fields attribute_fields (data d)
                = Returns (tt, data d)).
  { unfold exec_create_table in *.
    destruct (negb (_ && _ && _ && _)); [discriminate|].
    destruct (internal_name table); [discriminate|].
    rewrite decide_False by exact Hh. now rewrite Htd. }
  assert (E2' : exec_create_key_index table key_fields (data d) = Returns (tt, data d)).
  { unfold exec_create_key_index, columns_of in *.
    destruct (negb (_ && _ && _)); [discriminate|].
    rewrite decide_False in * by exact Hh. rewrite Hte in E2. rewrite Htd.
    cbn [fmap option_fmap option_map] in *. rewrite Hcols.
    now destruct (decide (Forall _ key_fields)). }
  assert (E3' : exec_create_current_index table (data d) = Returns (tt, data d)).
  { unfold exec_create_current_index. rewrite Hident.
    rewrite decide_False by exact Hh. now rewrite Htd. }
  rewrite E1'. cbn [data]. rewrite E2'. cbn [data]. rewrite E3'.
  eexists. split; reflexivity.
Qed.

(** X18. The same batch again changes nothing, on any table of an adapter
    in use: when [upsert_scd2], called with bare names, returns for a batch
    whose records have pairwise distinct keys, as the table stores them, with
    no [None] among the key values, the same call made again at once returns
    0 and leaves the database as the first call left it. The key fields are
    distinct columns. *)
Theorem upsert_scd2_again_is_no_change (c : conn) (table : string) (key_fields : list string)
    (attribute_fields : option (list string)) (now1 now2 : string)
    (records : list record) (n : Z) (c1 : conn) :
  in_use c ->
  bare (UpsertScd2 now1 table records key_fields attribute_fields) ->
  NoDup (map canon key_fields) ->
  NoDup (map (key_cells key_fields) records) ->
  Forall (fun rec => Forall (fun k => rec_get rec k <> PNone) key_fields) records ->
  upsert_scd2 now1 table records key_fields attribute_fields c = (Returns n, c1) ->
  exists c2,
    upsert_scd2 now2 table records key_fields attribute_fields c1 = (Returns 0, c2)
    /\ data c2 = data c1.
Proof.
  intros Huse _ Hkeys Hnd Hnn Hcall.
  pose proof (in_use_ids_NoDup c table Huse) as Hids.
  destruct (is_nil records) eqn:Hsome.
  { destruct records; [|discriminate]. cbn in Hcall. unfold ret in Hcall. simplify_eq.
    exists c1. auto. }
  rewrite (upsert_scd2_unfold _ _ _ _ _ _ Hsome) in Hcall.
  set (attrs := effective_attribute_fields records key_fields attribute_fields) in *.
  destruct (ensure_scd2_table table key_fields attrs c) as [[u|] ce] eqn:Hens;
    [|discriminate].
  destruct (ensure_scd2_table_returns_table _ _ _ _ _ _ Hens) as (te & Hte & Hrows).
  unfold transaction in Hcall.
  destruct (upsert_rows _ _ _ _ _ _ ce) as [[m|] cx] eqn:Hloop; [|discriminate].
  simplify_eq.
  destruct (first_call_settles table key_fields attrs now1 Hkeys records [] 0 ce te n c1)
    as (t1 & Ht1 & Hcols & Hsettled & Hread); try assumption.
  { now rewrite Hrows. }
  { constructor. }
  { constructor. }
  cbn [app] in Hsettled, Hread.
  destruct (ensure_scd2_table_again table key_fields attrs c ce c1 u te t1 Hens Hte Ht1 Hcols)
    as (ce2 & Hens2 & Hdata2).
  destruct (second_call_skips table key_fields attrs now2 t1 records 0 ce2)
    as (c2 & Hloop2 & Hdata3).
  { now rewrite Hdata2. }
  { exact Hsettled. }
  { now rewrite Hcols. }
  exists c2. rewrite (upsert_scd2_unfold _ _ _ _ _ _ Hsome). fold attrs.
  rewrite Hens2. unfold transaction. rewrite Hloop2. split; [reflexivity|congruence].
Qed.

Lemma upsert_scd2_again_is_no_change_witness :
  let batch := [account "A1" "200"; account "A2" "250"] in
  let c1 := snd (upsert_scd2 day2 "accounts" batch ["account_id"]%string None accounts_day1) in
  exists c2,
    upsert_scd2 "2024-05-03T09:00:00+00:00" "accounts" batch ["account_id"]%string None c1
    = (Returns 0, c2)
    /\ data c2 = data c1.
Proof.
  intros batch c1.
  apply (upsert_scd2_again_is_no_change accounts_day1 "accounts" ["account_id"]%string None
           day2 "2024-05-03T09:00:00+00:00" batch 2 c1).
  - exact accounts_day1_in_use.
  - exact accounts_bare.
  - by_computation.
  - by_computation.
  - repeat constructor; vm_compute; discriminate.
  - vm_compute. reflexivity.
Defined.

(** ** A field the table has no column for *)

Lemma operational_is (e : exn) : exn_class e = "OperationalError"%string -> e = OperationalError.
Proof. destruct e; (discriminate || reflexivity). Qed.

Lemma unknown_column_refused (t : entity_table) (key_fields attribute_fields : list string)
    (f : string) :
  f ∈ attribute_fields -> canon f ∉ table_columns t ->
  ~ Forall (fun c => canon c ∈ table_columns t) (key_fields ++ attribute_fields).
Proof.
  intros Hf Hnot Hall. rewrite Forall_forall in Hall. apply Hnot, Hall.
  apply elem_of_app. now right.
Qed.

(** A pass on a record that is not settled reaches the INSERT, which SQLite
    refuses. *)
Lemma upsert_row_unknown_column (t : entity_table) (c : conn) (table : string)
    (key_fields attribute_fields : list string) (now : string) (rec : record) (f : string) :
  tables (data c) !! canon table = Some t ->
  f ∈ attribute_fields -> canon f ∉ table_columns t ->
  key_values_of rec key_fields = Returns (map (rec_get rec) key_fields) ->
  Forall bindable (map (rec_get rec) key_fields) ->
  ~ settled key_fields attribute_fields (rows t) rec ->
  fst (upsert_row table key_fields attribute_fields now rec c) = Raises OperationalError.
Proof.
  intros Ht Hf Hnot Hkeys Hb Hns.
  unfold upsert_row, bind, lift. rewrite Hkeys.
  unfold execute at 1. unfold exec_select_current.
  destruct (negb (sql_ident table && forallb sql_ident key_fields && negb (is_nil key_fields)));
    [reflexivity|].
  destruct (decide (canon table = history_table_name)) as [|Hh]; [reflexivity|].
  rewrite Ht. destruct (decide (Forall _ key_fields)); [|reflexivity].
  rewrite (bind_values_adapt _ Hb).
  unfold settled in Hns. rewrite bool_decide_eq_false_2 by exact Hns.
  destruct (latest _) as [cur|].
  - unfold execute at 1. unfold exec_close. cbn [data].
    destruct (negb (sql_ident table)); [reflexivity|].
    rewrite decide_False by exact Hh. rewrite Ht.
    unfold execute, exec_insert. cbn [data tables].
    destruct (negb (sql_ident table && forallb sql_ident (key_fields ++ attribute_fields)));
      [reflexivity|].
    rewrite decide_False by exact Hh. rewrite lookup_insert_eq.
    rewrite decide_False; [reflexivity|].
    now apply (unknown_column_refused t key_fields attribute_fields f).
  - unfold ret at 1. unfold execute, exec_insert. cbn [data].
    destruct (negb (sql_ident table && forallb sql_ident (key_fields ++ attribute_fields)));
      [reflexivity|].
    rewrite decide_False by exact Hh. rewrite Ht.
    rewrite decide_False; [reflexivity|].
    now apply (unknown_column_refused t key_fields attribute_fields f).
Qed.

(** On a table that exists, [ensure_scd2_table] leaves the database as it
    is, whether it returns or raises. *)
Lemma ensure_scd2_table_present_data (table : string)
    (key_fields attribute_fields : list string) (c : conn) (t : entity_table) :
  tables (data c) !! canon table = Some t ->
  data (snd (ensure_scd2_table table key_fields attribute_fields c)) = data c.
Proof.
  intros Ht. unfold ensure_scd2_table, bind, execute.
  pose proof (exec_create_table_cases table key_fields attribute_fields (data c)) as H1.
  destruct (exec_create_table _ _ _ _) as [[u1 s1]|]; [|reflexivity].
  destruct H1 as [->|[Hnone _]]; [|congruence].
  cbn [data].
  pose proof (exec_create_key_index_cases table key_fields (data c)) as H2.
  destruct (exec_create_key_index _ _ _) as [[u2 s2]|]; [|reflexivity].
  subst s2. cbn [data].
  pose proof (exec_create_current_index_cases table (data c)) as H3.
  destruct (exec_create_current_index _ _) as [[u3 s3]|]; [|reflexivity].
  now subst s3.
Qed.

(** X19. The columns of a table are those it was created with: on an
    adapter in use, a call of [upsert_scd2] with bare names on a table that
    exists, with an attribute field the table has no column for, raises
    [OperationalError] and leaves the database as it was, as soon as the
    first record has something to insert, that is, is not a record whose key
    is current with the same digest. The key of the record can be read and
    bound. *)
Theorem upsert_scd2_unknown_attribute_raises (c : conn) (table : string)
    (key_fields : list string) (attribute_fields : option (list string)) (now : string)
    (rec : record) (rest : list record) (t : entity_table) (f : string) :
  let attrs := effective_attribute_fields (rec :: rest) key_fields attribute_fields in
  in_use c ->
  bare_names table (key_fields ++ attrs) ->
  tables (data c) !! canon table = Some t ->
  f ∈ attrs -> canon f ∉ table_columns t ->
  key_values_of rec key_fields = Returns (map (rec_get rec) key_fields) ->
  Forall bindable (map (rec_get rec) key_fields) ->
  ~ settled key_fields attrs (rows t) rec ->
  let call := upsert_scd2 now table (rec :: rest) key_fields attribute_fields c in
  fst call = Raises OperationalError /\ data (snd call) = data c.
Proof.
  intros attrs _ _ Ht Hf Hnot Hkeys Hb Hns call. subst call.
  unfold upsert_scd2. cbn [is_nil]. fold attrs. unfold bind.
  pose proof (ensure_scd2_table_present_data table key_fields attrs c t Ht) as Hdata.
  pose proof (ensure_scd2_table_raises_operational table key_fields attrs c) as Hcls.
  destruct (ensure_scd2_table table key_fields attrs c) as [[u|e] ce];
    cbn [fst snd] in *.
  - unfold transaction. cbn [upsert_rows]. unfold bind.
    pose proof (upsert_row_unknown_column t ce table key_fields attrs now rec f) as Hrow.
    rewrite Hdata in Hrow. specialize (Hrow Ht Hf Hnot Hkeys Hb Hns).
    destruct (upsert_row table key_fields attrs now rec ce) as [[m|e] c1];
      cbn [fst] in Hrow; [discriminate|].
    simplify_eq. cbn [fst snd data]. auto.
  - split; [|exact Hdata]. f_equal. now apply operational_is.
Qed.

Lemma upsert_scd2_unknown_attribute_raises_witness :
  let call := upsert_scd2 day2 "accounts"
                [[("account_id", PStr "A1"); ("balance", PStr "100");
                  ("owner", PStr "Kim")]%string]
                ["account_id"]%string None accounts_day1 in
  fst call = Raises OperationalError /\ data (snd call) = data accounts_day1.
Proof.
  apply (upsert_scd2_unknown_attribute_raises accounts_day1 "accounts" ["account_id"]%string
           None day2 _ [] accounts_day1_table "owner").
  - exact accounts_day1_in_use.
  - split; [split; reflexivity|]. repeat constructor; by_computation.
  - vm_compute. reflexivity.
  - vm_compute. apply list_elem_of_further, list_elem_of_here.
  - vm_compute. intros H. repeat (apply elem_of_cons in H as [H|H]; [discriminate|]).
    now apply elem_of_nil in H.
  - reflexivity.
  - repeat constructor.
  - unfold settled. vm_compute. discriminate.
Defined.

(** ** Every closed version has a successor *)

Lemma row_matches_not_null (key_fields : list string) (rec : record) (r : row) :
  row_matches key_fields (map adapt (map (rec_get rec) key_fields)) r = true ->
  Forall (fun k => rec_get rec k <> PNone) key_fields.
Proof.
  induction key_fields as [|k ks IH]; intros Hm; [constructor|].
  cbn [map row_matches] in Hm.
  destruct (assoc (canon k) (cells r)) as [[stored|]|]; try discriminate.
  destruct (rec_get rec k) eqn:Ek; cbn [adapt to_text] in Hm; try discriminate;
    apply andb_true_iff in Hm as [_ Hm];
    (constructor; [rewrite Ek; discriminate|now apply IH]).
Qed.

(** What a pass that returned did, for the rows of its table. *)
Lemma upsert_row_returned_pass (t : entity_table) (c : conn) (table : string)
    (key_fields attribute_fields : list string) (now : string) (rec : record)
    (n : Z) (c' : conn) :
  NoDup (map canon key_fields) ->
  tables (data c) !! canon table = Some t ->
  upsert_row table key_fields attribute_fields now rec c = (Returns n, c') ->
  exists t', tables (data c') !! canon table = Some t'
             /\ returned_pass key_fields now (rows t) (rows t').
Proof.
  intros Hnd Ht Hrun.
  pose proof (upsert_row_returns_readable t c table key_fields attribute_fields now rec n c'
                Ht Hrun) as (_ & _ & Hcols & _ & _).
  pose proof (upsert_row_returns t c table key_fields attribute_fields now rec n c' Ht Hrun)
    as Hone.
  cbv zeta in Hone. destruct (bool_decide _).
  { destruct Hone as [_ Hdata]. exists t. rewrite Hdata. split; [exact Ht|now left]. }
  destruct Hone as (_ & _ & _ & Hdata).
  eexists. rewrite Hdata. cbn [tables]. split; [apply lookup_insert_eq|].
  cbn [rows]. right.
  exists (Row (max_id (rows t) + 1)
              (new_cells t (key_fields ++ attribute_fields)
                 (map adapt (map (rec_get rec) (key_fields ++ attribute_fields))))
              now sentinel 1 (_compute_hash rec attribute_fields)).
  split; [reflexivity|]. split; [reflexivity|]. split; [reflexivity|].
  destruct (latest _) as [cur|] eqn:Efound; cbn [after_close]; [|now left].
  right. exists cur.
  apply latest_In, current_rows_In in Efound as (Hin & Hm & Hcur).
  split; [exact Hin|]. split; [exact Hcur|]. split; [reflexivity|].
  intros q Hq.
  match goal with
  | |- row_matches _ _ ?added = true =>
      assert (Hadded : row_matches key_fields (map adapt (map (rec_get rec) key_fields)) added
                       = true)
  end.
  { apply (inserted_row_matches t key_fields attribute_fields rec);
      [exact Hnd|exact Hcols|now apply (row_matches_not_null key_fields rec cur)|reflexivity]. }
  now rewrite (row_matches_agree key_fields q _ cur Hq Hm).
Qed.

Lemma returned_pass_ids (key_fields : list string) (now : string) (rs rs' : list row) :
  returned_pass key_fields now rs rs' -> NoDup (map id rs) -> NoDup (map id rs').
Proof.
  intros Hpass Hnd.
  assert (Hadd : forall l added, map id l = map id rs -> id added = max_id rs + 1 ->
                                 NoDup (map id (l ++ [added]))).
  { intros l added Hl Hid. rewrite map_app, Hl. apply NoDup_app.
    split; [exact Hnd|]. split; [|apply NoDup_singleton].
    intros z Hz Hz'. apply list_elem_of_singleton in Hz'. subst z.
    apply list_elem_of_In, in_map_iff in Hz as (r & Er & Hr).
    pose proof (max_id_bound rs) as Hmax. rewrite Forall_forall in Hmax.
    specialize (Hmax r (proj2 (list_elem_of_In _ _) Hr)). cbn [map] in Er. lia. }
  destruct Hpass as [->|(added & Hid & _ & _ & [->|(cur & _ & _ & -> & _)])].
  - exact Hnd.
  - now apply Hadd.
  - apply Hadd; [apply map_id_close_rows|exact Hid].
Qed.

Lemma returned_pass_superseded (key_fields : list string) (now : string) (rs rs' : list row) :
  returned_pass key_fields now rs rs' -> NoDup (map id rs) ->
  superseded_in key_fields rs -> superseded_in key_fields rs'.
Proof.
  intros Hpass Hnd Hsup.
  destruct Hpass as [->|(added & Hid & Hone & Hfrom & [->|(cur & Hcur & Hcur1 & -> & Hsame)])].
  - exact Hsup.
  - intros r Hin Hclosed. apply in_app_or in Hin as [Hr|[<-|[]]]; [|lia].
    destruct (Hsup r Hr Hclosed) as (next & Hnext & Hlt & Hv & Hm).
    exists next. split; [apply in_or_app; now left|auto].
  - intros r' Hin Hclosed. apply in_app_or in Hin as [Hr'|[<-|[]]]; [|lia].
    unfold close_rows in Hr'. apply in_map_iff in Hr' as (r & Er & Hr).
    destruct (decide (id r = id cur)) as [E|Hne]; subst r'.
    + (* the row closed by this pass *)
      apply (NoDup_map_inj id rs r cur Hnd Hr Hcur) in E. subst r.
      exists added. split; [apply in_or_app; right; now left|].
      pose proof (max_id_bound rs) as Hmax. rewrite Forall_forall in Hmax.
      specialize (Hmax cur (proj2 (list_elem_of_In _ _) Hcur)).
      cbn [close_row id valid_to]. split; [lia|]. split; [exact Hfrom|].
      intros q Hq. apply Hsame.
      now rewrite <- (row_matches_cells_only key_fields q cur (close_row now cur)).
    + (* a row closed before *)
      destruct (Hsup r Hr Hclosed) as (next & Hnext & Hlt & Hv & Hm).
      exists (if decide (id next = id cur) then close_row now next else next).
      split.
      { apply in_or_app. left. unfold close_rows. apply in_map_iff. now exists next. }
      destruct (decide (id next = id cur)); cbn [close_row id valid_from];
        (split; [exact Hlt|]); (split; [exact Hv|]); [|exact Hm].
      intros q Hq.
      rewrite (row_matches_cells_only key_fields q next (close_row now next)) by reflexivity.
      now apply Hm.
Qed.

(** The rows of the table of a call that returned went through passes that
    returned; those of a call that raised are as they were. *)
Lemma upsert_scd2_keeps_returned (P : list row -> Prop) (now table : string)
    (records : list record) (key_fields : list string)
    (attribute_fields : option (list string)) (c : conn) :
  NoDup (map canon key_fields) ->
  (forall rs rs', returned_pass key_fields now rs rs' -> P rs -> P rs') ->
  P (table_rows table (data c)) ->
  P (table_rows table (data (snd (upsert_scd2 now table records key_fields
                                    attribute_fields c)))).
Proof.
  intros Hnd Hpass Hc. unfold upsert_scd2.
  destruct (is_nil records); [exact Hc|].
  set (attrs := effective_attribute_fields records key_fields attribute_fields).
  unfold bind.
  pose proof (ensure_scd2_table_same_rows table key_fields attrs c) as [_ Hr].
  destruct (ensure_scd2_table table key_fields attrs c) as [[u|e] ce] eqn:Hens;
    cbn [snd] in Hr; [|cbn [snd]; unfold table_rows; now rewrite Hr].
  destruct (ensure_scd2_table_returns_table _ _ _ _ _ _ Hens) as (te & Hte & Hrows).
  unfold transaction.
  destruct (upsert_rows table key_fields attrs now records 0 ce) as [[n|e] c1] eqn:Hloop;
    cbn [snd data]; [|unfold table_rows; now rewrite Hr].
  rewrite <- Hrows in Hc. clear Hens Hr Hrows. clearbody attrs.
  revert Hloop Hte Hc. generalize 0 as inserted. generalize ce as c0. generalize te as t0.
  induction records as [|rec recs IH]; intros t0 c0 inserted Hloop Ht0 H0.
  - cbn in Hloop. unfold ret in Hloop. simplify_eq.
    now rewrite (table_rows_present _ _ _ Ht0).
  - cbn [upsert_rows] in Hloop. unfold bind in Hloop.
    destruct (upsert_row _ _ _ _ _ c0) as [[m|] c2] eqn:Hrow; [|discriminate].
    destruct (upsert_row_returned_pass t0 c0 table key_fields attrs now rec m c2 Hnd Ht0 Hrow)
      as (t2 & Ht2 & Hstep).
    apply (IH t2 c2 (inserted + m) Hloop Ht2). eapply Hpass; [exact Hstep|exact H0].
Qed.

Lemma perform_keeps_returned (P : list row -> Prop) (table : string)
    (key_fields : list string) (c : conn) (op : operation) :
  NoDup (map canon key_fields) -> keyed_by table key_fields op ->
  (forall now rs rs', returned_pass key_fields now rs rs' -> P rs -> P rs') ->
  P (table_rows table (data c)) -> P (table_rows table (data (perform c op))).
Proof.
  intros Hnd Hop Hpass Hc.
  assert (Hsame : forall s', rows_at (canon table) s' = rows_at (canon table) (data c) ->
                             P (table_rows table s')).
  { intros s' E. unfold table_rows. now rewrite E. }
  destruct op; cbn [perform].
  - exact Hc.
  - apply Hsame.
    assert (E : tables (data (snd (log_history now job event stat started ended duration
                                     count det c))) = tables (data c)).
    { unfold log_history, transaction, execute, exec_insert_history.
      destruct (bind_values _); reflexivity. }
    unfold rows_at. now rewrite E.
  - apply Hsame. now rewrite fetch_history_same_data.
  - apply Hsame. apply (proj2 (ensure_scd2_table_same_rows _ _ _ c)).
  - destruct (decide (canon table0 = canon table)) as [E|Hne].
    + cbn [keyed_by] in Hop. rewrite (Hop E).
      assert (Ht : forall s, table_rows table s = table_rows table0 s).
      { intros s. unfold table_rows. now rewrite E. }
      rewrite Ht in *. apply upsert_scd2_keeps_returned; [exact Hnd|apply Hpass|exact Hc].
    + apply Hsame.
      assert (H : others_untouched table0 (data c)
                    (data (snd (upsert_scd2 now table0 records key_fields0
                                  attribute_fields c)))).
      { apply (upsert_scd2_keeps (others_untouched table0)).
        - apply others_untouched_refl.
        - apply others_untouched_trans.
        - intros s s' [Hh Hr]. split; [exact Hh|]. intros k _. apply Hr.
        - intros attrs rec. apply upsert_row_others_untouched. }
      apply (proj2 H). congruence.
Qed.

(** X20. Every closed version has a successor. On an adapter in use, in a
    table on which every [upsert_scd2] named the same, distinct, key fields,
    every row with [is_current] 0 is followed by a row with a larger [id]
    whose [valid_from] is the [valid_to] of the closed row and which matches
    every tuple of key values that the closed row matches: a version is
    never closed without the version that supersedes it, and a call that
    raises leaves neither. The calls name bare names. *)
Theorem closed_rows_are_superseded (ops : list operation) (table : string)
    (key_fields : list string) (r : row) :
  NoDup (map canon key_fields) ->
  Forall bare ops ->
  Forall (keyed_by table key_fields) ops ->
  let stored := table_rows table (data (fold_left perform ops adapter)) in
  In r stored -> is_current r = 0 ->
  exists next,
    In next stored /\ id r < id next /\ valid_from next = valid_to r
    /\ forall q, row_matches key_fields q r = true ->
                 row_matches key_fields q next = true.
Proof.
  intros Hnd _ Hops stored. subst stored.
  set (P := fun rs => NoDup (map id rs) /\ superseded_in key_fields rs).
  assert (H : forall c, P (table_rows table (data c)) ->
                        P (table_rows table (data (fold_left perform ops c)))).
  { induction Hops as [|op ops Hop _ IH]; intros c Hc; [exact Hc|].
    cbn [fold_left]. apply IH.
    apply (perform_keeps_returned P table key_fields c op Hnd Hop); [|exact Hc].
    intros now rs rs' Hpass [Hids Hsup]. split.
    - eapply returned_pass_ids; eassumption.
    - eapply returned_pass_superseded; eassumption. }
  destruct (H adapter) as [_ Hsup].
  { unfold P, table_rows, rows_at. change (data adapter) with (Store [] ∅). cbn [tables].
    rewrite lookup_empty. cbn. split; [constructor|]. intros x []. }
  apply Hsup.
Qed.

Lemma closed_rows_are_superseded_witness :
  let stored :=
    table_rows "accounts"
      (data (fold_left perform
               [UpsertScd2 day1 "accounts" [account "A1" "100"] ["account_id"]%string None;
                UpsertScd2 day2 "accounts" [account "A2" "250"; account "A1" "200"]
                  ["account_id"]%string None]
               adapter)) in
  exists next,
    In next stored /\ id (close_row day2 accounts_day1_row) < id next
    /\ valid_from next = day2
    /\ forall q, row_matches ["account_id"]%string q (close_row day2 accounts_day1_row) = true ->
                 row_matches ["account_id"]%string q next = true.
Proof.
  apply (closed_rows_are_superseded
           [UpsertScd2 day1 "accounts" [account "A1" "100"] ["account_id"]%string None;
            UpsertScd2 day2 "accounts" [account "A2" "250"; account "A1" "200"]
              ["account_id"]%string None]
           "accounts" ["account_id"]%string (close_row day2 accounts_day1_row)).
  - by_computation.
  - repeat constructor; by_computation.
  - repeat constructor; intros _; reflexivity.
  - vm_compute. now left.
  - reflexivity.
Defined.

(** ** Rows are added, never removed *)

(** X24. On an adapter in use, whatever calls are made with bare names, in
    whatever order and whether they return or raise, the history keeps every
    event it had and every table keeps every row it had, in order, each with
    the same [id], cells (key and attribute values), [valid_from] and
    [row_hash]: rows are added, never removed, and of a stored row only
    [valid_to] and [is_current] are ever rewritten. *)
Theorem no_operation_deletes_rows (ops : list operation) (c : conn) :
  in_use c -> Forall bare ops ->
  no_row_deleted (data c) (data (fold_left perform ops c)).
Proof. intros _ _. apply perform_all_no_row_deleted. Qed.

Lemma no_operation_deletes_rows_witness :
  no_row_deleted (data accounts_day1)
    (data (fold_left perform
             [UpsertScd2 day2 "accounts" [account "A1" "200"] ["account_id"]%string None;
              FetchHistory 5]
             accounts_day1)).
Proof.
  apply no_operation_deletes_rows.
  - exact accounts_day1_in_use.
  - constructor; [exact accounts_bare|]. constructor; [exact I|constructor].
Defined.


(** * The answers of the address search *)

Lemma dict_get_set_same (d : list (string * json)) (key : string) (value : json) :
  dict_get (dict_set d key value) key = Some value.
Proof.
  unfold dict_get. induction d as [|[k v] rest IH]; cbn.
  - rewrite decide_True by reflexivity. reflexivity.
  - destruct (decide (k = key)) as [->|Hne]; cbn.
    + rewrite decide_True by reflexivity. reflexivity.
    + rewrite decide_False by exact Hne. exact IH.
Qed.

Lemma dict_get_set_other (d : list (string * json)) (key other : string) (value : json) :
  other <> key -> dict_get (dict_set d key value) other = dict_get d other.
Proof.
  intros Hne. unfold dict_get. induction d as [|[k v] rest IH]; cbn.
  - rewrite decide_False by congruence. reflexivity.
  - destruct (decide (k = key)) as [->|Hk]; cbn.
    + rewrite !decide_False by congruence. reflexivity.
    + destruct (decide (k = other)); [reflexivity | exact IH].
Qed.

(** X21. An answer that [_perform_address_search_request] returns is the
    [response] block of the payload with status [OK], unchanged, or that
    block with status [NOT_FOUND], in which [result] is a [dict] whose
    [items] is a list: every other key of the block is as the service sent
    it, and so is every other key of a [result] that was a [dict], and its
    [items] when that was a list already. *)
Theorem address_search_answer (payload : json) (r : list (string * json)) :
  _perform_address_search_request payload = Answers r ->
  exists top response,
    payload = JObject top
    /\ dict_get top "response" = Some (JObject response)
    /\ ((equals_str (dict_get response "status") "OK" = true /\ r = response)
        \/ (equals_str (dict_get response "status") "NOT_FOUND" = true
            /\ (forall key, key <> "result"%string -> dict_get r key = dict_get response key)
            /\ exists result items,
                 dict_get r "result" = Some (JObject result)
                 /\ dict_get result "items" = Some (JArray items)
                 /\ forall sent,
                      dict_get response "result" = Some (JObject sent) ->
                      (forall key, key <> "items"%string ->
                                   dict_get result key = dict_get sent key)
                      /\ forall was, dict_get sent "items" = Some (JArray was) ->
                                     items = was)).
Proof.
  unfold _perform_address_search_request. intros H.
  destruct payload as [| | | | |top]; try discriminate.
  destruct (dict_get top "response") as [[| | | | |response]|] eqn:Eresp; try discriminate.
  exists top, response. split; [reflexivity|]. split; [exact Eresp|].
  destruct (equals_str (dict_get response "status") "NOT_FOUND") eqn:Enf.
  - right. split; [reflexivity|]. injection H as <-.
    split; [intros key Hkey; apply dict_get_set_other; exact Hkey|].
    rewrite dict_get_set_same.
    destruct (dict_get response "result") as [[| | | | |sent]|] eqn:Eres;
      try (exists [("items"%string, JArray [])], []; split; [reflexivity|];
           split; [reflexivity|]; intros sent' Hs; discriminate).
    destruct (dict_get sent "items") as [[| | | |was|]|] eqn:Eitems;
      try (exists (dict_set sent "items" (JArray [])), []; split; [reflexivity|];
           split; [apply dict_get_set_same|]; intros sent' Hs; injection Hs as <-;
           split; [intros key Hkey; apply dict_get_set_other; exact Hkey
                  | intros w Hw; rewrite Eitems in Hw; discriminate]).
    exists sent, was. split; [reflexivity|]. split; [exact Eitems|].
    intros sent' Hs. injection Hs as <-.
    split; [reflexivity|]. intros w Hw. rewrite Eitems in Hw. congruence.
  - left. destruct (equals_str (dict_get response "status") "OK"); [|discriminate].
    cbn in H. injection H as <-. split; reflexivity.
Qed.

Lemma address_search_answer_witness :
  exists top response,
    JObject [("response"%string,
              JObject [("status"%string, JString "NOT_FOUND");
                       ("result"%string, JNull)])] = JObject top
    /\ dict_get top "response" = Some (JObject response)
    /\ ((equals_str (dict_get response "status") "OK" = true
         /\ [("status"%string, JString "NOT_FOUND");
             ("result"%string, JObject [("items"%string, JArray [])])] = response)
        \/ (equals_str (dict_get response "status") "NOT_FOUND" = true
            /\ (forall key, key <> "result"%string ->
                  dict_get [("status"%string, JString "NOT_FOUND");
                            ("result"%string, JObject [("items"%string, JArray [])])] key
                  = dict_get response key)
            /\ exists result items,
                 dict_get [("status"%string, JString "NOT_FOUND");
                           ("result"%string, JObject [("items"%string, JArray [])])] "result"
                 = Some (JObject result)
                 /\ dict_get result "items" = Some (JArray items)
                 /\ forall sent,
                      dict_get response "result" = Some (JObject sent) ->
                      (forall key, key <> "items"%string ->
                                   dict_get result key = dict_get sent key)
                      /\ forall was, dict_get sent "items" = Some (JArray was) ->
                                     items = was)).
Proof.
  apply (address_search_answer
           (JObject [("response"%string,
                      JObject [("status"%string, JString "NOT_FOUND");
                               ("result"%string, JNull)])])).
  reflexivity.
Defined.

(** X22. [_perform_address_search_request] raises the module's
    [VWorldAPIError] exactly on a payload that is a [dict] whose [response]
    is no [dict] or has a status other than the strings [OK] and
    [NOT_FOUND]; on a payload that is no [dict] it is the [AttributeError]
    of [payload.get] that leaves the function. *)
Theorem address_search_refusals (payload : json) :
  (_perform_address_search_request payload = Fails AttributeError
   <-> forall top, payload <> JObject top)
  /\ (_perform_address_search_request payload = Fails VWorldAPIError
      <-> exists top,
            payload = JObject top
            /\ forall response,
                 dict_get top "response" = Some (JObject response) ->
                 equals_str (dict_get response "status") "OK" = false
                 /\ equals_str (dict_get response "status") "NOT_FOUND" = false).
Proof.
  unfold _perform_address_search_request. split; split.
  - intros H top ->.
    destruct (dict_get top "response") as [[| | | | |response]|]; try discriminate.
    destruct (equals_str (dict_get response "status") "NOT_FOUND"); [discriminate|].
    destruct (equals_str (dict_get response "status") "OK"); discriminate.
  - intros H. destruct payload as [| | | | |top]; try reflexivity.
    exfalso. exact (H top eq_refl).
  - intros H. destruct payload as [| | | | |top]; try discriminate.
    exists top. split; [reflexivity|]. intros response Hresp. rewrite Hresp in H.
    destruct (equals_str (dict_get response "status") "NOT_FOUND"); [discriminate|].
    destruct (equals_str (dict_get response "status") "OK"); [discriminate|].
    split; reflexivity.
  - intros (top & -> & H).
    destruct (dict_get top "response") as [[| | | | |response]|]; try reflexivity.
    destruct (H response eq_refl) as [-> ->]. reflexivity.
Qed.

Lemma contains_none_before_first (sep : ascii) (s : string) :
  contains sep s = false -> before_first sep s = s.
Proof.
  induction s as [|a rest IH]; cbn; [reflexivity|].
  intros H. apply orb_false_iff in H as [Ha Hrest].
  rewrite Ha. rewrite (IH Hrest). reflexivity.
Qed.

(** X23. [_numbers_match] is equality of the two numbers: a query with a
    sub-number matches only the same text, and a query without one never
    matches a candidate with one, so that the comparison of the parts
    before the hyphen compares the whole texts. *)
Theorem numbers_match_is_equality (query candidate : string) :
  _numbers_match query candidate = bool_decide (query = candidate).
Proof.
  unfold _numbers_match.
  destruct (contains "-" query) eqn:Hq; [reflexivity|].
  destruct (contains "-" candidate) eqn:Hc; cbn.
  - symmetry. apply bool_decide_eq_false. intros ->. congruence.
  - rewrite (contains_none_before_first _ _ Hq), (contains_none_before_first _ _ Hc).
    reflexivity.
Qed.
